(** * koinos-p2p: error scores, connection manager, peer handler, message ids

    A shallow embedding of the parts of koinos-p2p that the specification
    makes checkable statements about:

    - [ErrorScore]: the [PeerErrorHandler] (package p2p): [handleCanConnect],
      [handleError], [getScoreForError], [decayErrorScore], [CanConnect];
    - [MessageID]: [generateMessageID] (package node) with the SHA-256 and
      base64 routines of the Go standard library it calls;
    - [Backoff]: the reconnection task of [handleDisconnected] and
      [connectInitialPeers] (package p2p, [ConnectionManager]);
    - [ConnManager]: [handleConnected], [handleDisconnected], [managerLoop];
    - [PeerHandler]: [nodeUpdateLoop], [peerHandlerLoop], [peerHandlerCycle]
      (package protocol).

    Go's [uint64] is a [Z] with the wrap-around of [+=] written out, maps are
    stdpp [gmap]s, goroutines that only perform one channel send are recorded
    as the send they attempt, and every [select] is driven by an explicit
    event or readiness description. *)

From Stdlib Require Import ZArith Lia List.
From Stdlib.Strings Require Import Ascii String Byte.
From stdpp Require Import base option list gmap strings.

(** [peer.ID] is a Go string. *)
Abbreviation PeerID := string.

(* ===================================================================== *)
(** * The error score engine (PeerErrorHandler) *)
(* ===================================================================== *)

Module ErrorScore.

Local Open Scope Z_scope.

(** The sentinel errors of package p2perrors that [getScoreForError]
    distinguishes, in the order of its switch. *)
Inductive sentinel : Type :=
  | ErrTransactionApplication
  | ErrBlockApplication
  | ErrDeserialization
  | ErrBlockIrreversibility
  | ErrPeerRPC
  | ErrPeerRPCTimeout
  | ErrChainIDMismatch
  | ErrChainNotConnected
  | ErrCheckpointMismatch
  | ErrLocalRPC
  | ErrLocalRPCTimeout
  | ErrSerialization
  | ErrProcessRequestTimeout.

#[global] Instance sentinel_eq_dec : EqDecision sentinel.
Proof. solve_decision. Defined.

(** A Go [error] value as [errors.Is] sees it: its [Unwrap] chain, outermost
    first.  A link is either one of the sentinels or some other error value
    (identified by its message). *)
Inductive errlink : Type :=
  | Sentinel (s : sentinel)
  | Opaque (msg : string).

Definition error : Type := list errlink.

Definition is_link (target : sentinel) (l : errlink) : bool :=
  match l with
  | Sentinel s => bool_decide (s = target)
  | Opaque _ => false
  end.

(** [errors.Is(err, target)]: some link of the chain is [target]. *)
Definition errors_Is (err : error) (target : sentinel) : bool :=
  existsb (is_link target) err.

(** [options.PeerErrorHandlerOptions]: the threshold, the half-life (a
    [time.Duration], in nanoseconds) and one [uint64] weight per kind. *)
Record PeerErrorHandlerOptions : Type := {
  ErrorScoreDecayHalflife : Z;
  ErrorScoreThreshold : Z;
  TransactionApplicationErrorScore : Z;
  BlockApplicationErrorScore : Z;
  DeserializationErrorScore : Z;
  BlockIrreversibilityErrorScore : Z;
  PeerRPCErrorScore : Z;
  PeerRPCTimeoutErrorScore : Z;
  ChainIDMismatchErrorScore : Z;
  ChainNotConnectedErrorScore : Z;
  CheckpointMismatchErrorScore : Z;
  LocalRPCErrorScore : Z;
  LocalRPCTimeoutErrorScore : Z;
  SerializationErrorScore : Z;
  ProcessRequestTimeoutErrorScore : Z;
  UnknownErrorScore : Z
}.

(** [type PeerError struct { id peer.ID; err error }] *)
Record PeerError : Type := { id : PeerID; err : error }.

(** [type errorScoreRecord struct { lastUpdate time.Time; score uint64 }];
    a [time.Time] is its monotonic reading in nanoseconds. *)
Record errorScoreRecord : Type := { lastUpdate : Z; score : Z }.

#[global] Instance errorScoreRecord_eq_dec : EqDecision errorScoreRecord.
Proof. solve_decision. Defined.

Definition uint64_modulus : Z := 2 ^ 64.

(** [uint64] addition as Go performs it. *)
Definition uint64_add (a b : Z) : Z := (a + b) mod uint64_modulus.

Definition minDuration : Z := - 2 ^ 63.
Definition maxDuration : Z := 2 ^ 63 - 1.

(** [t.Sub(u)]: the difference as a [time.Duration], saturating at the ends
    of [int64]. *)
Definition time_Sub (t u : Z) : Z :=
  Z.max minDuration (Z.min maxDuration (t - u)).

(** [getScoreForError]: the first case of the switch that matches. *)
Definition getScoreForError (opts : PeerErrorHandlerOptions) (e : error) : Z :=
  if errors_Is e ErrTransactionApplication then TransactionApplicationErrorScore opts
  else if errors_Is e ErrBlockApplication then BlockApplicationErrorScore opts
  else if errors_Is e ErrDeserialization then DeserializationErrorScore opts
  else if errors_Is e ErrBlockIrreversibility then BlockIrreversibilityErrorScore opts
  else if errors_Is e ErrPeerRPC then PeerRPCErrorScore opts
  else if errors_Is e ErrPeerRPCTimeout then PeerRPCTimeoutErrorScore opts
  else if errors_Is e ErrChainIDMismatch then ChainIDMismatchErrorScore opts
  else if errors_Is e ErrChainNotConnected then ChainNotConnectedErrorScore opts
  else if errors_Is e ErrCheckpointMismatch then CheckpointMismatchErrorScore opts
  else if errors_Is e ErrLocalRPC then LocalRPCErrorScore opts
  else if errors_Is e ErrLocalRPCTimeout then LocalRPCTimeoutErrorScore opts
  else if errors_Is e ErrSerialization then SerializationErrorScore opts
  else if errors_Is e ErrProcessRequestTimeout then ProcessRequestTimeoutErrorScore opts
  else UnknownErrorScore opts.

(** The weight the options give to one sentinel. *)
Definition weight (opts : PeerErrorHandlerOptions) (s : sentinel) : Z :=
  match s with
  | ErrTransactionApplication => TransactionApplicationErrorScore opts
  | ErrBlockApplication => BlockApplicationErrorScore opts
  | ErrDeserialization => DeserializationErrorScore opts
  | ErrBlockIrreversibility => BlockIrreversibilityErrorScore opts
  | ErrPeerRPC => PeerRPCErrorScore opts
  | ErrPeerRPCTimeout => PeerRPCTimeoutErrorScore opts
  | ErrChainIDMismatch => ChainIDMismatchErrorScore opts
  | ErrChainNotConnected => ChainNotConnectedErrorScore opts
  | ErrCheckpointMismatch => CheckpointMismatchErrorScore opts
  | ErrLocalRPC => LocalRPCErrorScore opts
  | ErrLocalRPCTimeout => LocalRPCTimeoutErrorScore opts
  | ErrSerialization => SerializationErrorScore opts
  | ErrProcessRequestTimeout => ProcessRequestTimeoutErrorScore opts
  end.

Section Handler.

(** The floating-point expression of [decayErrorScore],

      [uint64(float64(score) * math.Exp(-1 * (math.Log(2) / float64(halflife)) * float64(elapsed)))],

    as a function of the half-life, the stored score and the elapsed
    [time.Duration].  Its value is whatever IEEE-754 double arithmetic and
    Go's [math] package produce; the handler below only stores it and
    compares it, so it is left as a variable. *)
Variable float_decay : Z -> Z -> Z -> Z.

Variable opts : PeerErrorHandlerOptions.

(** [decayErrorScore], with the reading [now] of [time.Now()]. *)
Definition decayErrorScore (now : Z) (record : errorScoreRecord) : errorScoreRecord :=
  {| lastUpdate := now;
     score := float_decay (ErrorScoreDecayHalflife opts) (score record)
                          (time_Sub now (lastUpdate record)) |}.

(** [handleCanConnect]: the reply, and the map with the record decayed in
    place. *)
Definition handleCanConnect (now : Z) (pid : PeerID)
    (errorScores : gmap string errorScoreRecord) : bool * gmap string errorScoreRecord :=
  match errorScores !! pid with
  | Some record =>
      let record' := decayErrorScore now record in
      (score record' <? ErrorScoreThreshold opts, <[pid := record']> errorScores)
  | None => (true, errorScores)
  end.

(** The map after the first statement of [handleError]. *)
Definition recordError (now : Z) (peerErr : PeerError)
    (errorScores : gmap string errorScoreRecord) : gmap string errorScoreRecord :=
  match errorScores !! id peerErr with
  | Some record =>
      let record' := decayErrorScore now record in
      <[id peerErr :=
          {| lastUpdate := lastUpdate record';
             score := uint64_add (score record') (getScoreForError opts (err peerErr)) |}]>
        errorScores
  | None =>
      <[id peerErr :=
          {| lastUpdate := now; score := getScoreForError opts (err peerErr) |}]>
        errorScores
  end.

(** [handleError]: the new map, and the peers for which a goroutine sending
    on [disconnectPeerChan] is started (none or one). *)
Definition handleError (now : Z) (peerErr : PeerError)
    (errorScores : gmap string errorScoreRecord)
    : gmap string errorScoreRecord * list PeerID :=
  let errorScores' := recordError now peerErr errorScores in
  match errorScores' !! id peerErr with
  | Some record =>
      (errorScores',
       if ErrorScoreThreshold opts <=? score record then [id peerErr] else [])
  | None => (errorScores', [])
  end.

(** The loop of [Start]: what the handler goroutine receives, each with the
    clock reading taken while it is handled. *)
Inductive request : Type :=
  | ReqError (now : Z) (peerErr : PeerError)       (* perr := <-p.peerErrorChan *)
  | ReqCanConnect (now : Z) (pid : PeerID)         (* req := <-p.canConnectChan *)
  | ReqDone.                                       (* <-ctx.Done() *)

(** What the loop sends: a reply on a request's [resultChan], or a
    disconnect signal. *)
Inductive output : Type :=
  | Reply (pid : PeerID) (res : bool)
  | Disconnect (pid : PeerID).

Definition serve (r : request) (errorScores : gmap string errorScoreRecord)
    : gmap string errorScoreRecord * list output :=
  match r with
  | ReqError now peerErr =>
      let '(m, ds) := handleError now peerErr errorScores in (m, map Disconnect ds)
  | ReqCanConnect now pid =>
      let '(b, m) := handleCanConnect now pid errorScores in (m, [Reply pid b])
  | ReqDone => (errorScores, [])
  end.

Fixpoint Start (rs : list request) (errorScores : gmap string errorScoreRecord)
    : gmap string errorScoreRecord * list output :=
  match rs with
  | [] => (errorScores, [])
  | ReqDone :: _ => (errorScores, [])
  | r :: rs' =>
      let '(m, out) := serve r errorScores in
      let '(m', out') := Start rs' m in
      (m', out ++ out')
  end.

(** [CanConnect]: the request is sent on the unbuffered [canConnectChan],
    then a [select] waits for the reply on [resultChan] or for [ctx.Done()].
    A [scheduling] says how the call is interleaved with the handler
    goroutine and the context: whether the loop of [Start] ever takes the
    request, the time at which the [select] is evaluated, the time from
    which the reply is in [resultChan], the time (if any) from which
    [ctx.Done()] is closed, and the case the [select] picks when both can
    proceed. *)
Inductive selectCase : Type := CaseResult | CaseDone.

Record scheduling : Type := {
  taken : bool;
  selectAt : nat;
  replyAt : nat;
  doneAt : option nat;
  pick : selectCase
}.

(** The time at which the [select] proceeds: when it is evaluated, or, if no
    case can proceed then, when the first one can. *)
Definition fireAt (s : scheduling) : nat :=
  match doneAt s with
  | Some d => Nat.max (selectAt s) (Nat.min (replyAt s) d)
  | None => Nat.max (selectAt s) (replyAt s)
  end.

Definition replyReady (s : scheduling) : bool := (replyAt s <=? fireAt s)%nat.

Definition doneReady (s : scheduling) : bool :=
  match doneAt s with
  | Some d => (d <=? fireAt s)%nat
  | None => false
  end.

(** The result of [CanConnect]; [None] when it never returns. *)
Definition CanConnect (s : scheduling) (now : Z) (pid : PeerID)
    (errorScores : gmap string errorScoreRecord) : option bool :=
  if taken s then
    let res := (handleCanConnect now pid errorScores).1 in
    match replyReady s, doneReady s with
    | true, true =>
        match pick s with
        | CaseResult => Some res
        | CaseDone => Some false
        end
    | true, false => Some res
    | false, true => Some false
    | false, false => None
    end
  else None.

(** The kind of an error: the sentinel of the first case of the switch of
    [getScoreForError] that matches, [None] for the default case. *)
Definition kind (e : error) : option sentinel :=
  if errors_Is e ErrTransactionApplication then Some ErrTransactionApplication
  else if errors_Is e ErrBlockApplication then Some ErrBlockApplication
  else if errors_Is e ErrDeserialization then Some ErrDeserialization
  else if errors_Is e ErrBlockIrreversibility then Some ErrBlockIrreversibility
  else if errors_Is e ErrPeerRPC then Some ErrPeerRPC
  else if errors_Is e ErrPeerRPCTimeout then Some ErrPeerRPCTimeout
  else if errors_Is e ErrChainIDMismatch then Some ErrChainIDMismatch
  else if errors_Is e ErrChainNotConnected then Some ErrChainNotConnected
  else if errors_Is e ErrCheckpointMismatch then Some ErrCheckpointMismatch
  else if errors_Is e ErrLocalRPC then Some ErrLocalRPC
  else if errors_Is e ErrLocalRPCTimeout then Some ErrLocalRPCTimeout
  else if errors_Is e ErrSerialization then Some ErrSerialization
  else if errors_Is e ErrProcessRequestTimeout then Some ErrProcessRequestTimeout
  else None.

(** The configured weight of a kind. *)
Definition kindWeight (k : option sentinel) : Z :=
  match k with
  | Some s => weight opts s
  | None => UnknownErrorScore opts
  end.

(** ** Properties of the handler *)

Lemma getScoreForError_kind (e : error) :
  getScoreForError opts e = kindWeight (kind e).
Proof.
  unfold getScoreForError, kind, kindWeight.
  repeat (destruct (errors_Is e _); [reflexivity|]).
  reflexivity.
Qed.

Lemma decayErrorScore_lastUpdate (now : Z) (record : errorScoreRecord) :
  lastUpdate (decayErrorScore now record) = now.
Proof. reflexivity. Qed.

Lemma recordError_lookup (now : Z) (peerErr : PeerError)
    (errorScores : gmap string errorScoreRecord) :
  recordError now peerErr errorScores !! id peerErr =
  Some match errorScores !! id peerErr with
       | Some record =>
           {| lastUpdate := now;
              score := uint64_add (score (decayErrorScore now record))
                                  (getScoreForError opts (err peerErr)) |}
       | None => {| lastUpdate := now; score := getScoreForError opts (err peerErr) |}
       end.
Proof.
  unfold recordError.
  destruct (errorScores !! id peerErr) as [record|]; by rewrite lookup_insert_eq.
Qed.

Lemma recordError_other (now : Z) (peerErr : PeerError)
    (errorScores : gmap string errorScoreRecord) (q : PeerID) :
  q <> id peerErr -> recordError now peerErr errorScores !! q = errorScores !! q.
Proof.
  intros Hq. unfold recordError.
  destruct (errorScores !! id peerErr) as [record|]; by rewrite lookup_insert_ne.
Qed.

Lemma handleError_map (now : Z) (peerErr : PeerError)
    (errorScores : gmap string errorScoreRecord) :
  (handleError now peerErr errorScores).1 = recordError now peerErr errorScores.
Proof.
  unfold handleError. by destruct (recordError now peerErr errorScores !! id peerErr).
Qed.

(** Scores stay [uint64] values: when the floating-point expression yields
    a [uint64], as its conversion does, and the configured weights are
    [uint64] values, every score the loop of [Start] stores is between 0 and
    2^64 - 1. *)
Definition scores_uint64 (errorScores : gmap string errorScoreRecord) : Prop :=
  forall p record, errorScores !! p = Some record -> 0 <= score record < 2 ^ 64.

Lemma handleCanConnect_uint64 (now : Z) (pid : PeerID)
    (errorScores : gmap string errorScoreRecord) :
  (forall h s e, 0 <= float_decay h s e < 2 ^ 64) ->
  scores_uint64 errorScores ->
  scores_uint64 (handleCanConnect now pid errorScores).2.
Proof.
  intros Hfd Hm. unfold handleCanConnect.
  destruct (errorScores !! pid) as [record|] eqn:Hrec; cbn [snd]; [|exact Hm].
  intros p r. destruct (decide (pid = p)) as [->|Hne].
  - rewrite lookup_insert_eq. intros [= <-]. apply Hfd.
  - rewrite lookup_insert_ne by done. apply Hm.
Qed.

Lemma recordError_uint64 (now : Z) (peerErr : PeerError)
    (errorScores : gmap string errorScoreRecord) :
  0 <= getScoreForError opts (err peerErr) < 2 ^ 64 ->
  scores_uint64 errorScores ->
  scores_uint64 (recordError now peerErr errorScores).
Proof.
  intros Hw Hm p r. destruct (decide (p = id peerErr)) as [->|Hne].
  - rewrite recordError_lookup. intros [= <-].
    destruct (errorScores !! id peerErr) as [record|]; cbn [score]; [|exact Hw].
    unfold uint64_add, uint64_modulus. apply Z.mod_pos_bound. lia.
  - rewrite recordError_other by exact Hne. apply Hm.
Qed.

Lemma Start_uint64 (rs : list request) (errorScores : gmap string errorScoreRecord) :
  (forall h s e, 0 <= float_decay h s e < 2 ^ 64) ->
  (forall e, 0 <= getScoreForError opts e < 2 ^ 64) ->
  scores_uint64 errorScores ->
  scores_uint64 (Start rs errorScores).1.
Proof.
  intros Hfd Hw. revert errorScores.
  induction rs as [|[now peerErr|now pid|] rs IH]; intros m Hm; cbn [Start];
    try exact Hm.
  - cbn [serve]. pose proof (handleError_map now peerErr m) as Hmap.
    destruct (handleError now peerErr m) as [m1 ds]. cbn [fst] in Hmap. subst m1.
    specialize (IH _ (recordError_uint64 now peerErr m (Hw _) Hm)).
    by destruct (Start rs (recordError now peerErr m)).
  - cbn [serve]. pose proof (handleCanConnect_uint64 now pid m Hfd Hm) as H1.
    destruct (handleCanConnect now pid m) as [b m1]. cbn [snd] in H1.
    specialize (IH _ H1). by destruct (Start rs m1).
Qed.

(** C1: the reply of [handleCanConnect] for a peer is [true] exactly when the
    peer has no error-score record, or the score of its record, once the
    record is decayed to the current clock reading, is strictly below
    [ErrorScoreThreshold]; the decayed record is the one kept in the map,
    and the reply is what the loop of [Start] sends back on the result
    channel of the request. *)
Theorem handleCanConnect_iff (now : Z) (pid : PeerID)
    (errorScores : gmap string errorScoreRecord) :
  ((handleCanConnect now pid errorScores).1 = true <->
   (errorScores !! pid = None \/
    exists record, errorScores !! pid = Some record /\
      score (decayErrorScore now record) < ErrorScoreThreshold opts)) /\
  (handleCanConnect now pid errorScores).2 !! pid =
    decayErrorScore now <$> errorScores !! pid /\
  (serve (ReqCanConnect now pid) errorScores).2 =
    [Reply pid (handleCanConnect now pid errorScores).1].
Proof.
  split; [|split].
  - unfold handleCanConnect.
    destruct (errorScores !! pid) as [record|] eqn:Hrec; cbn [fst].
    + rewrite Z.ltb_lt. split.
      * intros Hlt. right. exists record. split; [reflexivity | exact Hlt].
      * intros [Hnone | (r & Hr & Hlt)]; [discriminate | by simplify_eq].
    + split; [by left | reflexivity].
  - unfold handleCanConnect.
    destruct (errorScores !! pid) as [record|] eqn:Hrec; cbn [snd].
    + by rewrite lookup_insert_eq.
    + by rewrite Hrec.
  - unfold serve. by destruct (handleCanConnect now pid errorScores).
Qed.

(** C2, as the code has it: [handleError] decays the existing record of the
    peer to the current clock reading, or creates one with
    [lastUpdate = now], and adds the weight [getScoreForError] gives to the
    error, which is the configured weight of the error's kind, with the
    addition of [uint64]: modulo 2^64, the plain sum when that is below
    2^64; the records of other peers are untouched; a disconnect signal for
    the peer is started exactly when the resulting score is at least
    [ErrorScoreThreshold]; and after two reports of the same kind at clock
    readings [t1] and [t2] with nothing between, the score is the first
    score decayed over [t2 - t1] plus the weight of the kind, modulo 2^64. *)
Theorem handleError_spec (now : Z) (peerErr : PeerError)
    (errorScores : gmap string errorScoreRecord) :
  let w := getScoreForError opts (err peerErr) in
  let errorScores' := (handleError now peerErr errorScores).1 in
  let signals := (handleError now peerErr errorScores).2 in
  w = kindWeight (kind (err peerErr)) /\
  (exists record',
     errorScores' !! id peerErr = Some record' /\
     lastUpdate record' = now /\
     score record' =
       match errorScores !! id peerErr with
       | Some record => (score (decayErrorScore now record) + w) mod 2 ^ 64
       | None => w
       end /\
     (forall record, errorScores !! id peerErr = Some record ->
        0 <= score (decayErrorScore now record) + w < 2 ^ 64 ->
        score record' = score (decayErrorScore now record) + w) /\
     (signals = [id peerErr] <-> ErrorScoreThreshold opts <= score record') /\
     (signals = [] <-> score record' < ErrorScoreThreshold opts)) /\
  (forall q : PeerID, q <> id peerErr -> errorScores' !! q = errorScores !! q) /\
  (forall (t2 : Z) (err2 : error),
     kind err2 = kind (err peerErr) ->
     exists record1 record2,
       errorScores' !! id peerErr = Some record1 /\
       (handleError t2 {| id := id peerErr; err := err2 |} errorScores').1
         !! id peerErr = Some record2 /\
       lastUpdate record2 = t2 /\
       score record2 =
         (float_decay (ErrorScoreDecayHalflife opts) (score record1) (time_Sub t2 now)
          + kindWeight (kind (err peerErr))) mod 2 ^ 64).
Proof.
  intros w errorScores' signals.
  assert (Hlook := recordError_lookup now peerErr errorScores).
  split; [apply getScoreForError_kind|].
  split; [|split].
  - subst errorScores' signals. unfold handleError. rewrite Hlook.
    cbn [fst snd]. rewrite Hlook.
    eexists. split; [reflexivity|].
    split; [by destruct (errorScores !! id peerErr)|].
    split; [by destruct (errorScores !! id peerErr)|].
    split.
    { intros record ->. cbn [score]. intros Hrange.
      unfold uint64_add, uint64_modulus. by apply Z.mod_small. }
    match goal with |- context [if ?c then _ else _] => destruct c eqn:Hc end.
    + apply Z.leb_le in Hc. split; split; intros; try done; lia.
    + apply Z.leb_gt in Hc. split; split; intros; try done; lia.
  - intros q Hq. subst errorScores'. rewrite handleError_map.
    by apply recordError_other.
  - intros t2 err2 Hkind. subst errorScores'.
    rewrite !handleError_map.
    eexists _, _. split; [exact Hlook|].
    pose proof (recordError_lookup t2 {| id := id peerErr; err := err2 |}
                  (recordError now peerErr errorScores)) as Hlook2.
    cbn [id err] in Hlook2. rewrite Hlook2, Hlook.
    split; [reflexivity|]. split; [reflexivity|]. cbn [score lastUpdate decayErrorScore].
    rewrite <- Hkind, <- getScoreForError_kind.
    by destruct (errorScores !! id peerErr).
Qed.

(** C10, as the code has it: once the handler loop has taken the request,
    [CanConnect] returns [false] when the context is cancelled while no
    reply is in the result channel yet, that is, when the cancellation comes
    before the reply and before or while the [select] waits; when reply and
    cancellation can both proceed (both are there when the [select] is
    evaluated, or they come at the same time) the [select] picks either, so
    the reply can still be returned; when the reply comes first, or without
    cancellation, the reply is returned; and while the request is not taken
    [CanConnect] does not return. *)
Theorem CanConnect_cancelled (s : scheduling) (now : Z) (pid : PeerID)
    (errorScores : gmap string errorScoreRecord) :
  let res := (handleCanConnect now pid errorScores).1 in
  (taken s = false -> CanConnect s now pid errorScores = None) /\
  (taken s = true -> doneAt s = None -> CanConnect s now pid errorScores = Some res) /\
  (forall d : nat,
     taken s = true -> doneAt s = Some d ->
     ((Nat.max (selectAt s) d < replyAt s)%nat ->
        CanConnect s now pid errorScores = Some false) /\
     ((Nat.max (selectAt s) (replyAt s) < d)%nat ->
        CanConnect s now pid errorScores = Some res) /\
     ((replyAt s <= Nat.max (selectAt s) d)%nat ->
      (d <= Nat.max (selectAt s) (replyAt s))%nat ->
        CanConnect s now pid errorScores =
        Some match pick s with CaseResult => res | CaseDone => false end)).
Proof.
  intros res. unfold CanConnect, replyReady, doneReady, fireAt. fold res.
  split; [by intros ->|]. split.
  - intros -> ->. rewrite (leb_correct (replyAt s)) by lia. reflexivity.
  - intros d -> ->. split; [|split].
    + intros Hlt. rewrite (leb_correct_conv _ (replyAt s)) by lia.
      rewrite (leb_correct d) by lia. reflexivity.
    + intros Hlt. rewrite (leb_correct (replyAt s)) by lia.
      rewrite (leb_correct_conv _ d) by lia. reflexivity.
    + intros Hr Hd. rewrite (leb_correct (replyAt s)) by lia.
      rewrite (leb_correct d) by lia. by destruct (pick s).
Qed.

End Handler.

(** [NewPeerErrorHandler]: the empty map. *)
Definition NewPeerErrorHandler : gmap string errorScoreRecord := ∅.

(** An integer stand-in for the floating-point decay, used to run the
    handler on examples: the score halves once per elapsed half-life. *)
Definition halving_decay (halflife score elapsed : Z) : Z :=
  score / 2 ^ (elapsed / halflife).

Definition example_opts : PeerErrorHandlerOptions :=
  {| ErrorScoreDecayHalflife := 60000000000;
     ErrorScoreThreshold := 150;
     TransactionApplicationErrorScore := 10;
     BlockApplicationErrorScore := 100;
     DeserializationErrorScore := 100;
     BlockIrreversibilityErrorScore := 100;
     PeerRPCErrorScore := 20;
     PeerRPCTimeoutErrorScore := 20;
     ChainIDMismatchErrorScore := 150;
     ChainNotConnectedErrorScore := 150;
     CheckpointMismatchErrorScore := 150;
     LocalRPCErrorScore := 1;
     LocalRPCTimeoutErrorScore := 1;
     SerializationErrorScore := 1;
     ProcessRequestTimeoutErrorScore := 1;
     UnknownErrorScore := 5 |}.

Definition example_error : PeerError :=
  {| id := "QmPeer"; err := [Opaque "apply block"; Sentinel ErrBlockApplication] |}.

(** Scenario S4 on the stand-in: weight 100, half-life 60s, threshold 150;
    a report, then a second one 60s later: 50 + 100 = 150 and a disconnect. *)
Example scenario_S4 :
  Start halving_decay example_opts
    [ReqCanConnect 0 "QmPeer"; ReqError 0 example_error;
     ReqError 60000000000 example_error; ReqCanConnect 60000000001 "QmPeer"]
    NewPeerErrorHandler
  = ({[ "QmPeer" := {| lastUpdate := 60000000001; score := 150 |} ]},
     [Reply "QmPeer" true; Disconnect "QmPeer"; Reply "QmPeer" false]).
Proof. vm_compute. reflexivity. Qed.

(** The map after one report of weight 100 at time 0. *)
Definition one_report : gmap string errorScoreRecord :=
  {[ "QmPeer" := {| lastUpdate := 0; score := 100 |} ]}.

Lemma handleError_spec_witness :
  let now := 60000000000 in
  let w := getScoreForError example_opts (err example_error) in
  let errorScores' :=
    (handleError halving_decay example_opts now example_error one_report).1 in
  let signals :=
    (handleError halving_decay example_opts now example_error one_report).2 in
  w = kindWeight example_opts (kind (err example_error)) /\
  (exists record',
     errorScores' !! id example_error = Some record' /\
     lastUpdate record' = now /\
     score record' =
       match one_report !! id example_error with
       | Some record =>
           (score (decayErrorScore halving_decay example_opts now record) + w) mod 2 ^ 64
       | None => w
       end /\
     (forall record, one_report !! id example_error = Some record ->
        0 <= score (decayErrorScore halving_decay example_opts now record) + w < 2 ^ 64 ->
        score record' = score (decayErrorScore halving_decay example_opts now record) + w) /\
     (signals = [id example_error] <-> ErrorScoreThreshold example_opts <= score record') /\
     (signals = [] <-> score record' < ErrorScoreThreshold example_opts)) /\
  (forall q : PeerID, q <> id example_error -> errorScores' !! q = one_report !! q) /\
  (forall (t2 : Z) (err2 : error),
     kind err2 = kind (err example_error) ->
     exists record1 record2,
       errorScores' !! id example_error = Some record1 /\
       (handleError halving_decay example_opts t2
          {| id := id example_error; err := err2 |} errorScores').1
         !! id example_error = Some record2 /\
       lastUpdate record2 = t2 /\
       score record2 =
         (halving_decay (ErrorScoreDecayHalflife example_opts) (score record1)
            (time_Sub t2 now)
          + kindWeight example_opts (kind (err example_error))) mod 2 ^ 64).
Proof.
  exact (handleError_spec halving_decay example_opts 60000000000 example_error one_report).
Defined.

(** The second report of the witness: 100 decays to 50, the weight 100 is
    added, and 150 reaches the threshold. *)
Example handleError_second_report :
  handleError halving_decay example_opts 60000000000 example_error one_report
  = ({[ "QmPeer" := {| lastUpdate := 60000000000; score := 150 |} ]}, ["QmPeer"%string]).
Proof. vm_compute. reflexivity. Qed.

(** Options whose weight for a chain id mismatch is the largest [uint64]. *)
Definition max_opts : PeerErrorHandlerOptions :=
  {| ErrorScoreDecayHalflife := 60000000000;
     ErrorScoreThreshold := 150;
     TransactionApplicationErrorScore := 10;
     BlockApplicationErrorScore := 100;
     DeserializationErrorScore := 100;
     BlockIrreversibilityErrorScore := 100;
     PeerRPCErrorScore := 20;
     PeerRPCTimeoutErrorScore := 20;
     ChainIDMismatchErrorScore := 2 ^ 64 - 1;
     ChainNotConnectedErrorScore := 150;
     CheckpointMismatchErrorScore := 150;
     LocalRPCErrorScore := 1;
     LocalRPCTimeoutErrorScore := 1;
     SerializationErrorScore := 1;
     ProcessRequestTimeoutErrorScore := 1;
     UnknownErrorScore := 5 |}.

Definition chain_error : PeerError :=
  {| id := "QmPeer"; err := [Sentinel ErrChainIDMismatch] |}.

(** C2 as stated fails: two chain id mismatches of one peer, one second
    apart, with the weight 2^64 - 1 and a half-life of 60 seconds.  The
    first score is 2^64 - 1; whatever is left of it after the decay (the
    floating-point expression leaves about 1.8e19, and the statement only
    asks for at least 1), adding the weight passes 2^64 and wraps around, so
    the second score is not the decayed first score plus the weight. *)
Lemma handleError_sum_wraps :
  ~ (exists float_decay : Z -> Z -> Z -> Z,
       1 <= float_decay 60000000000 (2 ^ 64 - 1) 1000000000 /\
       let m1 := (handleError float_decay max_opts 0 chain_error NewPeerErrorHandler).1 in
       let m2 := (handleError float_decay max_opts 1000000000 chain_error m1).1 in
       exists record1 record2,
         m1 !! "QmPeer" = Some record1 /\
         m2 !! "QmPeer" = Some record2 /\
         score record2 =
           float_decay 60000000000 (score record1) (time_Sub 1000000000 0)
           + getScoreForError max_opts (err chain_error)).
Proof.
  intros (fd & Hd & r1 & r2 & H1 & H2 & Hs).
  cbv zeta in H1, H2. rewrite handleError_map in H1.
  do 2 rewrite handleError_map in H2.
  pose proof (recordError_lookup fd max_opts 0 chain_error NewPeerErrorHandler) as L1.
  change (id chain_error) with "QmPeer"%string in L1.
  rewrite H1 in L1. unfold NewPeerErrorHandler in L1.
  rewrite lookup_empty in L1. injection L1 as ->.
  pose proof (recordError_lookup fd max_opts 1000000000 chain_error
                (recordError fd max_opts 0 chain_error NewPeerErrorHandler)) as L2.
  change (id chain_error) with "QmPeer"%string in L2.
  rewrite H2, H1 in L2. injection L2 as ->.
  cbn [score lastUpdate decayErrorScore] in Hs.
  change (ErrorScoreDecayHalflife max_opts) with 60000000000 in Hs.
  change (getScoreForError max_opts _) with (2 ^ 64 - 1) in Hs.
  change (time_Sub 1000000000 0) with 1000000000 in Hs.
  unfold uint64_add, uint64_modulus in Hs.
  pose proof (Z.mod_pos_bound
                (fd 60000000000 (2 ^ 64 - 1) 1000000000 + (2 ^ 64 - 1)) (2 ^ 64)) as Hb.
  lia.
Qed.

(** A context cancelled at time 0, a reply sent at time 1 and a [select]
    evaluated at time 2, where it picks the reply. *)
Definition racing : scheduling :=
  {| taken := true; selectAt := 2; replyAt := 1; doneAt := Some 0%nat; pick := CaseResult |}.

(** The same context with the [select] already waiting when the reply
    comes. *)
Definition waiting_select : scheduling :=
  {| taken := true; selectAt := 0; replyAt := 1; doneAt := Some 0%nat; pick := CaseResult |}.

Lemma CanConnect_cancelled_witness :
  taken waiting_select = true /\ doneAt waiting_select = Some 0%nat /\
  (Nat.max (selectAt waiting_select) 0 < replyAt waiting_select)%nat /\
  CanConnect halving_decay example_opts waiting_select 0 "QmPeer" NewPeerErrorHandler
  = Some false.
Proof.
  split; [reflexivity|]. split; [reflexivity|]. split; [cbn; lia|].
  refine (proj1 (proj2 (proj2
            (CanConnect_cancelled halving_decay example_opts waiting_select 0 "QmPeer"
               NewPeerErrorHandler)) 0%nat eq_refl eq_refl) _).
  cbn. lia.
Defined.

(** C10 as stated fails: the context is cancelled before the call, the peer
    has no record, so the reply is [true]; the reply is in the channel when
    the [select] is evaluated, the [select] picks it, and [CanConnect]
    returns [true]. *)
Lemma CanConnect_not_fail_closed :
  ~ (forall (s : scheduling) (now : Z) (pid : PeerID)
            (errorScores : gmap string errorScoreRecord) (d : nat),
       taken s = true -> doneAt s = Some d -> (d <= fireAt s)%nat ->
       CanConnect halving_decay example_opts s now pid errorScores = Some false).
Proof.
  intros H.
  specialize (H racing 0 "QmPeer" NewPeerErrorHandler 0%nat eq_refl eq_refl).
  vm_compute in H. specialize (H (le_0_n _)). discriminate H.
Qed.

End ErrorScore.

(* ===================================================================== *)
(** * Pub/sub message ids (generateMessageID) *)
(* ===================================================================== *)

Module MessageID.

Local Open Scope Z_scope.

(** ** crypto/sha256 (FIPS 180-4), on [uint32] words held in [Z] *)

Definition uint32 (x : Z) : Z := x mod 2 ^ 32.

Definition add32 (a b : Z) : Z := uint32 (a + b).

(** [bits.RotateLeft32(x, -n)] *)
Definition rotr (n x : Z) : Z :=
  Z.lor (Z.shiftr x n) (uint32 (Z.shiftl x (32 - n))).

(** [^x] on a [uint32] *)
Definition not32 (x : Z) : Z := Z.lxor x 0xffffffff.

(** A table of words written in hexadecimal, separated by spaces. *)
Definition hexval (c : ascii) : Z :=
  let n := Z.of_nat (nat_of_ascii c) in
  if n <? 58 then n - 48 else n - 87.

Fixpoint hexwords (s : string) (acc : Z) : list Z :=
  match s with
  | EmptyString => [acc]
  | String c s' =>
      if Ascii.eqb c " " then acc :: hexwords s' 0
      else hexwords s' (16 * acc + hexval c)
  end.

(** The round constants [_K] of sha256block.go. *)
Definition _K : list Z := Eval vm_compute in
  hexwords
    ("428a2f98 71374491 b5c0fbcf e9b5dba5 3956c25b 59f111f1 923f82a4 ab1c5ed5 " ++
     "d807aa98 12835b01 243185be 550c7dc3 72be5d74 80deb1fe 9bdc06a7 c19bf174 " ++
     "e49b69c1 efbe4786 0fc19dc6 240ca1cc 2de92c6f 4a7484aa 5cb0a9dc 76f988da " ++
     "983e5152 a831c66d b00327c8 bf597fc7 c6e00bf3 d5a79147 06ca6351 14292967 " ++
     "27b70a85 2e1b2138 4d2c6dfc 53380d13 650a7354 766a0abb 81c2c92e 92722c85 " ++
     "a2bfe8a1 a81a664b c24b8b70 c76c51a3 d192e819 d6990624 f40e3585 106aa070 " ++
     "19a4c116 1e376c08 2748774c 34b0bcb5 391c0cb3 4ed8aa4a 5b9cca4f 682e6ff3 " ++
     "748f82ee 78a5636f 84c87814 8cc70208 90befffa a4506ceb bef9a3f7 c67178f2")%string
    0.

(** The eight chaining words [dig.h]. *)
Record digest : Type := Digest {
  h0 : Z; h1 : Z; h2 : Z; h3 : Z; h4 : Z; h5 : Z; h6 : Z; h7 : Z
}.

Definition init : digest :=
  Digest 0x6a09e667 0xbb67ae85 0x3c6ef372 0xa54ff53a
         0x510e527f 0x9b05688c 0x1f83d9ab 0x5be0cd19.

Definition byteZ (b : byte) : Z := Z.of_N (Byte.to_N b).

Definition Zbyte (z : Z) : byte :=
  match Byte.of_N (Z.to_N (z mod 256)) with
  | Some b => b
  | None => x00
  end.

(** The big-endian words [w[0..15]] of one 64-byte chunk. *)
Fixpoint words (p : list byte) : list Z :=
  match p with
  | b0 :: b1 :: b2 :: b3 :: rest =>
      Z.lor (Z.lor (Z.lor (Z.shiftl (byteZ b0) 24) (Z.shiftl (byteZ b1) 16))
                   (Z.shiftl (byteZ b2) 8)) (byteZ b3)
      :: words rest
  | _ => []
  end.

Definition w_at (w : list Z) (i : nat) : Z := nth i w 0.

(** The message schedule: [w[i] = t1 + w[i-7] + t2 + w[i-16]] for
    [i = 16 .. 63]; [n] counts the words still to add. *)
Fixpoint schedule (n : nat) (w : list Z) : list Z :=
  match n with
  | O => w
  | S n' =>
      let i := length w in
      let v1 := w_at w (i - 2) in
      let t1 := Z.lxor (Z.lxor (rotr 17 v1) (rotr 19 v1)) (Z.shiftr v1 10) in
      let v2 := w_at w (i - 15) in
      let t2 := Z.lxor (Z.lxor (rotr 7 v2) (rotr 18 v2)) (Z.shiftr v2 3) in
      schedule n' (w ++ [add32 (add32 (add32 t1 (w_at w (i - 7))) t2) (w_at w (i - 16))])
  end.

(** One of the 64 rounds on the working variables [a .. h]. *)
Definition round (s : digest) (kw : Z * Z) : digest :=
  let '(Digest a b c d e f g h) := s in
  let '(k, w) := kw in
  let t1 :=
    add32 (add32 (add32 (add32 h
      (Z.lxor (Z.lxor (rotr 6 e) (rotr 11 e)) (rotr 25 e)))
      (Z.lxor (Z.land e f) (Z.land (not32 e) g))) k) w in
  let t2 :=
    add32 (Z.lxor (Z.lxor (rotr 2 a) (rotr 13 a)) (rotr 22 a))
          (Z.lxor (Z.lxor (Z.land a b) (Z.land a c)) (Z.land b c)) in
  Digest (add32 t1 t2) a b c (add32 d t1) e f g.

(** The body of the loop of [blockGeneric] for one chunk. *)
Definition block1 (dig : digest) (chunk : list byte) : digest :=
  let w := schedule 48 (words chunk) in
  let s := fold_left round (combine _K w) dig in
  Digest (add32 (h0 dig) (h0 s)) (add32 (h1 dig) (h1 s))
         (add32 (h2 dig) (h2 s)) (add32 (h3 dig) (h3 s))
         (add32 (h4 dig) (h4 s)) (add32 (h5 dig) (h5 s))
         (add32 (h6 dig) (h6 s)) (add32 (h7 dig) (h7 s)).

(** [blockGeneric]: [for len(p) >= chunk { ...; p = p[chunk:] }]; [fuel]
    bounds the number of chunks. *)
Fixpoint blockGeneric (fuel : nat) (dig : digest) (p : list byte) : digest :=
  match fuel with
  | O => dig
  | S fuel' =>
      if (64 <=? length p)%nat
      then blockGeneric fuel' (block1 dig (firstn 64 p)) (skipn 64 p)
      else dig
  end.

(** [binary.BigEndian.PutUint64] *)
Definition PutUint64 (v : Z) : list byte :=
  map (fun i => Zbyte (Z.shiftr v (8 * i))) [7; 6; 5; 4; 3; 2; 1; 0].

(** [binary.BigEndian.PutUint32] *)
Definition PutUint32 (v : Z) : list byte :=
  map (fun i => Zbyte (Z.shiftr v (8 * i))) [3; 2; 1; 0].

(** The padding of [checkSum]: a 1 bit, 0 bits up to 56 bytes mod 64, and
    the length in bits as a [uint64]. *)
Definition padding (len : Z) : list byte :=
  let n := if len mod 64 <? 56 then 56 - len mod 64 else 64 + 56 - len mod 64 in
  (x80 :: repeat x00 (Z.to_nat n - 1)) ++ PutUint64 ((len * 8) mod 2 ^ 64).

(** [h := sha256.New(); h.Write(data); h.Sum(nil)] *)
Definition Sum256 (data : list byte) : list byte :=
  let p := data ++ padding (Z.of_nat (length data)) in
  let d := blockGeneric (length p) init p in
  PutUint32 (h0 d) ++ PutUint32 (h1 d) ++ PutUint32 (h2 d) ++ PutUint32 (h3 d) ++
  PutUint32 (h4 d) ++ PutUint32 (h5 d) ++ PutUint32 (h6 d) ++ PutUint32 (h7 d).

(** ** encoding/base64 *)

(** [type Encoding struct { encode [64]byte; ...; padChar rune }] *)
Record Encoding : Type := {
  encode : string;
  padChar : option ascii
}.

Definition encodeStd : string :=
  "ABCDEFGHIJKLMNOPQRSTUVWXYZabcdefghijklmnopqrstuvwxyz0123456789+/".
Definition encodeURL : string :=
  "ABCDEFGHIJKLMNOPQRSTUVWXYZabcdefghijklmnopqrstuvwxyz0123456789-_".

(** [StdEncoding], [RawStdEncoding = StdEncoding.WithPadding(NoPadding)],
    [URLEncoding] and [RawURLEncoding]. *)
Definition StdEncoding : Encoding := {| encode := encodeStd; padChar := Some "="%char |}.
Definition RawStdEncoding : Encoding := {| encode := encodeStd; padChar := None |}.
Definition URLEncoding : Encoding := {| encode := encodeURL; padChar := Some "="%char |}.
Definition RawURLEncoding : Encoding := {| encode := encodeURL; padChar := None |}.

(** [enc.encode[v & 0x3F]] *)
Definition enc_at (enc : Encoding) (v : Z) : ascii :=
  nth (Z.to_nat (Z.land v 0x3F)) (list_ascii_of_string (encode enc)) "000"%char.

Definition pad (enc : Encoding) (n : nat) : list ascii :=
  match padChar enc with
  | Some c => repeat c n
  | None => []
  end.

(** [Encode]: three source bytes give four characters; one or two
    remaining bytes give two or three characters and the padding. *)
Fixpoint Encode (enc : Encoding) (src : list byte) : list ascii :=
  match src with
  | [] => []
  | [s0] =>
      let val := Z.shiftl (byteZ s0) 16 in
      [enc_at enc (Z.shiftr val 18); enc_at enc (Z.shiftr val 12)] ++ pad enc 2
  | [s0; s1] =>
      let val := Z.lor (Z.shiftl (byteZ s0) 16) (Z.shiftl (byteZ s1) 8) in
      [enc_at enc (Z.shiftr val 18); enc_at enc (Z.shiftr val 12);
       enc_at enc (Z.shiftr val 6)] ++ pad enc 1
  | s0 :: s1 :: s2 :: rest =>
      let val := Z.lor (Z.lor (Z.shiftl (byteZ s0) 16) (Z.shiftl (byteZ s1) 8)) (byteZ s2) in
      enc_at enc (Z.shiftr val 18) :: enc_at enc (Z.shiftr val 12) ::
      enc_at enc (Z.shiftr val 6) :: enc_at enc val :: Encode enc rest
  end.

Definition EncodeToString (enc : Encoding) (src : list byte) : string :=
  string_of_list_ascii (Encode enc src).

(** ** generateMessageID *)

(** The field of [pb.Message] the function reads. *)
Record Message : Type := { Data : list byte }.

Definition generateMessageID (msg : Message) : string :=
  let sum := Sum256 (Data msg) in
  EncodeToString RawStdEncoding sum.

Definition bytes_of_string (s : string) : list byte :=
  map byte_of_ascii (list_ascii_of_string s).

Definition hex_digit (n : Z) : ascii :=
  nth (Z.to_nat n) (list_ascii_of_string "0123456789abcdef") "0"%char.

Definition hex (bs : list byte) : string :=
  string_of_list_ascii
    (flat_map (fun b => [hex_digit (byteZ b / 16); hex_digit (byteZ b mod 16)]) bs).

Local Open Scope string_scope.

Example Sum256_empty :
  hex (Sum256 []) = "e3b0c44298fc1c149afbf4c8996fb92427ae41e4649b934ca495991b7852b855".
Proof. vm_compute. reflexivity. Qed.

Example Sum256_abc :
  hex (Sum256 (bytes_of_string "abc"))
  = "ba7816bf8f01cfea414140de5dae2223b00361a396177a9cb410ff61f20015ad".
Proof. vm_compute. reflexivity. Qed.

Example Sum256_two_blocks :
  hex (Sum256 (repeat "a"%byte 56))
  = "b35439a4ac6f0948b6d6f9e3c6af0f5f590ce20f1bde7090ef7970686ec6738a".
Proof. vm_compute. reflexivity. Qed.

Example generateMessageID_empty :
  generateMessageID {| Data := [] |} = "47DEQpj8HBSa+/TImW+5JCeuQeRkm5NMpJWZG3hSuFU".
Proof. vm_compute. reflexivity. Qed.

Example generateMessageID_abc :
  generateMessageID {| Data := bytes_of_string "abc" |}
  = "ungWv48Bz+pBQUDeXa4iI7ADYaOWF3qctBD/YfIAFa0".
Proof. vm_compute. reflexivity. Qed.

Example RawURLEncoding_empty :
  EncodeToString RawURLEncoding (Sum256 [])
  = "47DEQpj8HBSa-_TImW-5JCeuQeRkm5NMpJWZG3hSuFU".
Proof. vm_compute. reflexivity. Qed.

Local Close Scope string_scope.

(** The translation between the two alphabets: they differ in the last two
    characters only. *)
Definition url_to_std (c : ascii) : ascii :=
  if Ascii.eqb c "-" then "+"%char
  else if Ascii.eqb c "_" then "/"%char
  else c.

(** [EncodedLen] of an encoding without padding. *)
Definition RawEncodedLen (n : nat) : nat := ((n * 8 + 5) / 6)%nat.

(** ** Properties *)

Lemma list_ind3 {A : Type} (P : list A -> Prop) :
  P [] -> (forall a, P [a]) -> (forall a b, P [a; b]) ->
  (forall a b c l, P l -> P (a :: b :: c :: l)) ->
  forall l, P l.
Proof.
  intros H0 H1 H2 H3 l.
  enough (P l /\ (forall a, P (a :: l)) /\ (forall a b, P (a :: b :: l))) by tauto.
  induction l as [|x l (IH0 & IH1 & IH2)].
  - auto.
  - split; [apply IH1|]. split; [intros a; apply IH2|].
    intros a b. apply H3, IH0.
Qed.

Lemma PutUint32_length (v : Z) : length (PutUint32 v) = 4%nat.
Proof. reflexivity. Qed.

Lemma Sum256_length (data : list byte) : length (Sum256 data) = 32%nat.
Proof.
  unfold Sum256. rewrite !length_app, !PutUint32_length. reflexivity.
Qed.

Lemma Encode_raw_length (enc : Encoding) (src : list byte) :
  padChar enc = None ->
  length (Encode enc src) = RawEncodedLen (length src).
Proof.
  intros Hpad. induction src as [|a|a b|a b c l IH] using list_ind3.
  - reflexivity.
  - cbn. unfold pad. rewrite Hpad. reflexivity.
  - cbn. unfold pad. rewrite Hpad. reflexivity.
  - cbn [Encode length]. rewrite IH. unfold RawEncodedLen.
    replace (S (S (S (length l))) * 8 + 5)%nat with ((length l * 8 + 5) + 4 * 6)%nat by lia.
    rewrite Nat.div_add by lia. lia.
Qed.

Lemma length_string_of_list_ascii (l : list ascii) :
  String.length (string_of_list_ascii l) = length l.
Proof. induction l as [|c l IH]; cbn; [reflexivity | by rewrite IH]. Qed.

Lemma enc_index_bound (v : Z) : (Z.to_nat (Z.land v 0x3F) < 64)%nat.
Proof.
  change 0x3F with (Z.ones 6). rewrite Z.land_ones by lia.
  pose proof (Z.mod_pos_bound v (2 ^ 6)). lia.
Qed.

Lemma enc_at_in (enc : Encoding) (v : Z) :
  String.length (encode enc) = 64%nat ->
  In (enc_at enc v) (list_ascii_of_string (encode enc)).
Proof.
  intros Hlen. unfold enc_at. apply nth_In.
  rewrite <- (length_string_of_list_ascii (list_ascii_of_string (encode enc))),
    string_of_list_ascii_of_string, Hlen.
  apply enc_index_bound.
Qed.

Lemma Encode_raw_alphabet (enc : Encoding) (src : list byte) :
  padChar enc = None -> String.length (encode enc) = 64%nat ->
  Forall (fun c => In c (list_ascii_of_string (encode enc))) (Encode enc src).
Proof.
  intros Hpad Hlen.
  induction src as [|a|a b|a b c l IH] using list_ind3; cbn [Encode].
  - constructor.
  - unfold pad. rewrite Hpad. cbn. repeat constructor; by apply enc_at_in.
  - unfold pad. rewrite Hpad. cbn. repeat constructor; by apply enc_at_in.
  - repeat (constructor; [by apply enc_at_in|]). exact IH.
Qed.

Lemma enc_at_url_to_std (v : Z) :
  enc_at RawStdEncoding v = url_to_std (enc_at RawURLEncoding v).
Proof.
  unfold enc_at. pose proof (enc_index_bound v) as Hb.
  destruct (Z.to_nat (Z.land v 63)) as [|i]; [reflexivity|].
  do 63 (destruct i as [|i]; [reflexivity|]). lia.
Qed.

Lemma Encode_url_to_std (src : list byte) :
  Encode RawStdEncoding src = map url_to_std (Encode RawURLEncoding src).
Proof.
  induction src as [|a|a b|a b c l IH] using list_ind3; cbn [Encode].
  - reflexivity.
  - change (pad RawStdEncoding 2) with (@nil ascii).
    change (pad RawURLEncoding 2) with (@nil ascii).
    cbn [app map]. by rewrite !enc_at_url_to_std.
  - change (pad RawStdEncoding 1) with (@nil ascii).
    change (pad RawURLEncoding 1) with (@nil ascii).
    cbn [app map]. by rewrite !enc_at_url_to_std.
  - cbn [map]. by rewrite IH, !enc_at_url_to_std.
Qed.

(** C4, as the code has it: [generateMessageID] returns the SHA-256 hash of
    the payload in base64 with the standard alphabet (ending in [+] and [/])
    and without padding: 43 characters, all of the standard alphabet, the
    base64url text with [-] and [_] replaced by [+] and [/]; two messages
    with the same payload, such as a published message and the same message
    received back, get the same id. *)
Theorem generateMessageID_raw_std (msg : Message) :
  generateMessageID msg = EncodeToString RawStdEncoding (Sum256 (Data msg)) /\
  String.length (generateMessageID msg) = 43%nat /\
  Forall (fun c => In c (list_ascii_of_string encodeStd))
         (list_ascii_of_string (generateMessageID msg)) /\
  list_ascii_of_string (generateMessageID msg) =
    map url_to_std
      (list_ascii_of_string (EncodeToString RawURLEncoding (Sum256 (Data msg)))) /\
  (forall msg' : Message, Data msg' = Data msg ->
     generateMessageID msg' = generateMessageID msg).
Proof.
  unfold generateMessageID, EncodeToString.
  split; [reflexivity|]. split; [|split; [|split]].
  - rewrite length_string_of_list_ascii, Encode_raw_length, Sum256_length by reflexivity.
    reflexivity.
  - rewrite list_ascii_of_string_of_list_ascii.
    by apply (Encode_raw_alphabet RawStdEncoding).
  - rewrite !list_ascii_of_string_of_list_ascii. apply Encode_url_to_std.
  - intros msg' Hdata. by rewrite Hdata.
Qed.

Lemma generateMessageID_raw_std_witness :
  let msg := {| Data := [] |} in
  generateMessageID msg = EncodeToString RawStdEncoding (Sum256 (Data msg)) /\
  String.length (generateMessageID msg) = 43%nat /\
  Forall (fun c => In c (list_ascii_of_string encodeStd))
         (list_ascii_of_string (generateMessageID msg)) /\
  list_ascii_of_string (generateMessageID msg) =
    map url_to_std
      (list_ascii_of_string (EncodeToString RawURLEncoding (Sum256 (Data msg)))) /\
  (forall msg' : Message, Data msg' = Data msg ->
     generateMessageID msg' = generateMessageID msg).
Proof. exact (generateMessageID_raw_std {| Data := [] |}). Defined.

(** C4 as stated fails: the id of the empty payload is not its base64url
    text. *)
Lemma generateMessageID_not_base64url :
  ~ (forall msg : Message,
       generateMessageID msg = EncodeToString RawURLEncoding (Sum256 (Data msg))).
Proof.
  intros H. specialize (H {| Data := [] |}).
  vm_compute in H. discriminate H.
Qed.

End MessageID.

(* ===================================================================== *)
(** * The connection manager: backoff loops *)
(* ===================================================================== *)

Module Backoff.

Local Open Scope Z_scope.

(** [const maxSleepBackoff = 30] *)
Definition maxSleepBackoff : Z := 30.

(** [func min(a, b int) int].  The loops below call it on the double of a
    sleep time that stays between 1 and 30 ([backoff_bounds]), far from the
    ends of Go's [int]. *)
Definition min (a b : Z) : Z := if a <? b then a else b.

(** [peer.AddrInfo] *)
Record AddrInfo : Type := { ID : PeerID; Addrs : list string }.

(** What a backoff loop does, with the total time slept so far (in
    seconds) when it does it: a call of [c.host.Connect] and whether it
    returned a nil error, or a [time.Sleep]. *)
Inductive event : Type :=
  | Connect (clock : Z) (peer : PeerID) (ok : bool)
  | Sleep (clock : Z) (seconds : Z).

(** The clock readings of the connect attempts on [peer]. *)
Fixpoint attempts (peer : PeerID) (tr : list event) : list Z :=
  match tr with
  | [] => []
  | Connect t p _ :: tr' =>
      if bool_decide (p = peer) then t :: attempts peer tr' else attempts peer tr'
  | Sleep _ _ :: tr' => attempts peer tr'
  end.

(** The durations of the sleeps. *)
Fixpoint sleeps (tr : list event) : list Z :=
  match tr with
  | [] => []
  | Connect _ _ _ :: tr' => sleeps tr'
  | Sleep _ s :: tr' => s :: sleeps tr'
  end.

(** ** The reconnection task of [handleDisconnected]

    [connect n] tells whether the [n]-th call of [c.host.Connect] of the
    task succeeds.  The result is the trace and whether the goroutine has
    returned within [fuel] iterations. *)
Fixpoint reconnectLoop (fuel : nat) (connect : nat -> bool) (addr : AddrInfo)
    (n : nat) (clock sleepTimeSeconds : Z) : list event * bool :=
  match fuel with
  | O => ([], false)
  | S fuel' =>
      if connect n then ([Connect clock (ID addr) true], true)
      else
        let '(tr, returned) :=
          reconnectLoop fuel' connect addr (S n)
            (clock + sleepTimeSeconds) (min maxSleepBackoff (sleepTimeSeconds * 2)) in
        (Connect clock (ID addr) false :: Sleep clock sleepTimeSeconds :: tr, returned)
  end.

Definition reconnect (fuel : nat) (connect : nat -> bool) (addr : AddrInfo)
    : list event * bool :=
  reconnectLoop fuel connect addr 0 0 1.

(** ** [connectInitialPeers]

    [connect cycle peer done] tells whether the call of [c.host.Connect] for
    [peer] in the given cycle returns a nil error, [done] being whether the
    context it is given is cancelled by then.  Every other use of [ctx] in
    the function would show here; there is none. *)
Section InitialPeers.

Variable connect : nat -> PeerID -> bool -> bool.
Variable ctxDone : nat -> bool.
Variable initialPeers : gmap string AddrInfo.

(** [for peer, addr := range c.initialPeers { ... }]: the events, and the
    keys put into [newlyConnectedPeers]. *)
Definition connectAll (cycle : nat) (clock : Z) : list event * list PeerID :=
  let peers := (map_to_list initialPeers).*1 in
  (map (fun peer => Connect clock peer (connect cycle peer (ctxDone cycle))) peers,
   filter (fun peer => connect cycle peer (ctxDone cycle) = true) peers).

(** [for peer := range newlyConnectedPeers { delete(peersToConnect, peer) }] *)
Definition deleteAll (newlyConnectedPeers : list PeerID)
    (peersToConnect : gmap string AddrInfo) : gmap string AddrInfo :=
  foldr delete peersToConnect newlyConnectedPeers.

(** [for len(peersToConnect) > 0 { ... }] *)
Fixpoint connectInitialPeersLoop (fuel : nat) (peersToConnect : gmap string AddrInfo)
    (cycle : nat) (clock sleepTimeSeconds : Z) : list event * bool :=
  match fuel with
  | O => ([], false)
  | S fuel' =>
      if (0 <? size peersToConnect)%nat then
        let '(evs, newlyConnectedPeers) := connectAll cycle clock in
        let '(tr, returned) :=
          connectInitialPeersLoop fuel' (deleteAll newlyConnectedPeers peersToConnect)
            (S cycle) (clock + sleepTimeSeconds)
            (min maxSleepBackoff (sleepTimeSeconds * 2)) in
        (evs ++ Sleep clock sleepTimeSeconds :: tr, returned)
      else ([], true)
  end.

Definition connectInitialPeers (fuel : nat) : list event * bool :=
  connectInitialPeersLoop fuel initialPeers 0 0 1.

(** The peers still pending at the loop test before cycle [n]: those whose
    connect failed in every earlier cycle. *)
Fixpoint pendingAt (n : nat) : gmap string AddrInfo :=
  match n with
  | O => initialPeers
  | S n' =>
      filter (fun kv : string * AddrInfo => connect n' kv.1 (ctxDone n') = false)
             (pendingAt n')
  end.

End InitialPeers.

(** ** The schedule *)

(** The [n]-th sleep: 1 second, then [min(maxSleepBackoff, 2 * previous)]. *)
Fixpoint backoff (n : nat) : Z :=
  match n with
  | O => 1
  | S n' => min maxSleepBackoff (backoff n' * 2)
  end.

(** The time slept before the [n]-th attempt. *)
Fixpoint attemptTime (n : nat) : Z :=
  match n with
  | O => 0
  | S n' => attemptTime n' + backoff n'
  end.

(** ** Properties of the schedule *)

Lemma backoff_bounds (n : nat) : 1 <= backoff n <= 30.
Proof.
  induction n as [|n IH]; cbn [backoff]; [lia|].
  unfold min, maxSleepBackoff. destruct (30 <? backoff n * 2) eqn:E; lia.
Qed.

Lemma backoff_capped (n : nat) : backoff (5 + n) = 30.
Proof.
  induction n as [|n IH]; [reflexivity|].
  replace (5 + S n)%nat with (S (5 + n)) by lia.
  cbn [backoff]. rewrite IH. reflexivity.
Qed.

Lemma attempts_app (peer : PeerID) (tr1 tr2 : list event) :
  attempts peer (tr1 ++ tr2) = attempts peer tr1 ++ attempts peer tr2.
Proof.
  induction tr1 as [|[t p ok|t s] tr1 IH]; cbn [attempts app]; [reflexivity| |exact IH].
  case_bool_decide; [by rewrite IH | exact IH].
Qed.

Lemma sleeps_app (tr1 tr2 : list event) :
  sleeps (tr1 ++ tr2) = sleeps tr1 ++ sleeps tr2.
Proof.
  induction tr1 as [|[t p ok|t s] tr1 IH]; cbn [sleeps app]; [reflexivity|exact IH|].
  by rewrite IH.
Qed.

(** The trace of the reconnection task follows the schedule, whatever the
    host answers. *)
Lemma reconnectLoop_schedule (fuel : nat) (connect : nat -> bool) (addr : AddrInfo)
    (k : nat) :
  let tr := (reconnectLoop fuel connect addr k (attemptTime k) (backoff k)).1 in
  sleeps tr = map backoff (seq k (length (sleeps tr))) /\
  attempts (ID addr) tr = map attemptTime (seq k (length (attempts (ID addr) tr))).
Proof.
  revert k. induction fuel as [|fuel IH]; intros k; cbn [reconnectLoop].
  - split; reflexivity.
  - destruct (connect k).
    + cbn [fst sleeps attempts]. rewrite bool_decide_eq_true_2 by reflexivity.
      split; reflexivity.
    + specialize (IH (S k)). cbn [attemptTime backoff] in IH.
      destruct (reconnectLoop fuel connect addr (S k) _ _) as [tr returned].
      cbn [fst] in *. cbn [sleeps attempts].
      rewrite bool_decide_eq_true_2 by reflexivity.
      destruct IH as [IHs IHa]. cbn [length seq map].
      split; f_equal; assumption.
Qed.

(** An unreachable peer: [fuel] attempts, [fuel] sleeps, and the task has
    not returned. *)
Lemma reconnectLoop_unreachable (fuel : nat) (addr : AddrInfo) (k : nat) :
  let r := reconnectLoop fuel (fun _ => false) addr k (attemptTime k) (backoff k) in
  attempts (ID addr) r.1 = map attemptTime (seq k fuel) /\
  sleeps r.1 = map backoff (seq k fuel) /\
  r.2 = false.
Proof.
  revert k. induction fuel as [|fuel IH]; intros k; cbn [reconnectLoop].
  - repeat split.
  - specialize (IH (S k)). cbn [attemptTime backoff] in IH.
    destruct (reconnectLoop fuel _ addr (S k) _ _) as [tr returned].
    cbn [fst snd] in *. cbn [sleeps attempts seq map].
    rewrite bool_decide_eq_true_2 by reflexivity.
    destruct IH as (IHa & IHs & IHr).
    repeat split; [f_equal; exact IHa | f_equal; exact IHs | exact IHr].
Qed.

Section InitialPeersProofs.

Variable connect : nat -> PeerID -> bool -> bool.
Variable ctxDone : nat -> bool.
Variable initialPeers : gmap string AddrInfo.

Lemma deleteAll_lookup (l : list PeerID) (m : gmap string AddrInfo) (p : PeerID) :
  deleteAll l m !! p = if decide (p ∈ l) then None else m !! p.
Proof.
  induction l as [|q l IH]; cbn [deleteAll foldr].
  - case_decide as H; [by apply elem_of_nil in H | reflexivity].
  - fold (deleteAll l m). destruct (decide (q = p)) as [->|Hne].
    + rewrite lookup_delete_eq. rewrite decide_True by left. reflexivity.
    + rewrite lookup_delete_ne by exact Hne. rewrite IH.
      destruct (decide (p ∈ l)) as [Hin|Hnin].
      * rewrite decide_True by (by right). reflexivity.
      * rewrite decide_False; [reflexivity|].
        intros [Heq|Hin]%elem_of_cons; [by apply Hne | by apply Hnin].
Qed.

Lemma pendingAt_subseteq (n : nat) (p : PeerID) (a : AddrInfo) :
  pendingAt connect ctxDone initialPeers n !! p = Some a -> initialPeers !! p = Some a.
Proof.
  induction n as [|n IH]; cbn [pendingAt]; [done|].
  rewrite map_lookup_filter_Some. intros [H _]. by apply IH.
Qed.

(** One cycle removes from the pending set exactly the configured peers whose
    connect succeeded. *)
Lemma deleteAll_pendingAt (n : nat) (clock : Z) :
  deleteAll (connectAll connect ctxDone initialPeers n clock).2
            (pendingAt connect ctxDone initialPeers n)
  = pendingAt connect ctxDone initialPeers (S n).
Proof.
  apply map_eq. intros p. rewrite deleteAll_lookup. cbn [connectAll snd pendingAt].
  apply option_eq. intros a. rewrite map_lookup_filter_Some. cbn [fst].
  case_decide as Hin.
  - apply list_elem_of_filter in Hin as [Hok _].
    split; [done|]. intros [_ Hfail]. congruence.
  - split.
    + intros Hp. split; [exact Hp|].
      destruct (connect n p (ctxDone n)) eqn:Hc; [|reflexivity].
      exfalso. apply Hin. apply list_elem_of_filter. split; [exact Hc|].
      apply list_elem_of_fmap. exists (p, a). split; [reflexivity|].
      apply elem_of_map_to_list. by apply (pendingAt_subseteq n).
    + by intros [Hp _].
Qed.

Lemma attempts_connectAll (n : nat) (clock : Z) (p : PeerID) :
  attempts p (connectAll connect ctxDone initialPeers n clock).1 =
  if decide (p ∈ dom initialPeers) then [clock] else [].
Proof.
  cbn [connectAll fst].
  assert (Hnd : NoDup (map_to_list initialPeers).*1) by apply NoDup_fst_map_to_list.
  assert (Hin : p ∈ dom initialPeers <-> p ∈ (map_to_list initialPeers).*1).
  { rewrite elem_of_dom. split.
    - intros [a Ha]. apply list_elem_of_fmap. exists (p, a).
      split; [reflexivity | by apply elem_of_map_to_list].
    - intros ([q a] & -> & Ha)%list_elem_of_fmap.
      exists a. by apply elem_of_map_to_list. }
  revert Hnd Hin. generalize ((map_to_list initialPeers).*1). intros l Hnd Hin.
  assert (Hgen : attempts p (map (fun peer => Connect clock peer (connect n peer (ctxDone n))) l)
                 = if decide (p ∈ l) then [clock] else []).
  { clear Hin. induction Hnd as [|q l Hq Hnd IH]; cbn [map attempts].
    - case_decide as H; [by apply elem_of_nil in H | reflexivity].
    - rewrite IH. case_bool_decide as Hqp.
      + subst q. rewrite decide_False by exact Hq. rewrite decide_True by left. reflexivity.
      + destruct (decide (p ∈ l)) as [Hin|Hnin].
        * rewrite decide_True by (by right). reflexivity.
        * rewrite decide_False; [reflexivity|].
          intros [Heq|Hin]%elem_of_cons; [by apply Hqp | by apply Hnin]. }
  rewrite Hgen.
  destruct (decide (p ∈ dom initialPeers)) as [Hd|Hd].
  - rewrite decide_True by (by apply Hin). reflexivity.
  - rewrite decide_False; [reflexivity|]. intros Hl. by apply Hd, Hin.
Qed.

Lemma sleeps_connectAll (n : nat) (clock : Z) :
  sleeps (connectAll connect ctxDone initialPeers n clock).1 = [].
Proof.
  cbn [connectAll fst]. induction ((map_to_list initialPeers).*1) as [|q l IH];
    [reflexivity | exact IH].
Qed.

(** The loop from cycle [n] on: it follows the schedule, attempts every
    configured peer once per cycle, and returns exactly when the pending set
    is empty at one of its tests. *)
Lemma connectInitialPeersLoop_spec (fuel n : nat) :
  let r := connectInitialPeersLoop connect ctxDone initialPeers fuel
             (pendingAt connect ctxDone initialPeers n) n (attemptTime n) (backoff n) in
  let cycles := length (sleeps r.1) in
  sleeps r.1 = map backoff (seq n cycles) /\
  (forall p, attempts p r.1 =
             if decide (p ∈ dom initialPeers) then map attemptTime (seq n cycles) else []) /\
  (cycles <= fuel)%nat /\
  (forall k, (k < cycles)%nat ->
     pendingAt connect ctxDone initialPeers (n + k) <> ∅) /\
  (r.2 = true <->
   (cycles < fuel)%nat /\ pendingAt connect ctxDone initialPeers (n + cycles) = ∅) /\
  (r.2 = false -> cycles = fuel).
Proof.
  revert n. induction fuel as [|fuel IH]; intros n; cbn [connectInitialPeersLoop].
  - cbn. split; [reflexivity|]. split; [intros p; by case_decide|].
    split; [lia|]. split; [intros k Hk; lia|].
    split; [split; [discriminate | lia] | reflexivity].
  - destruct (0 <? size (pendingAt connect ctxDone initialPeers n))%nat eqn:Hsz.
    + apply Nat.ltb_lt in Hsz.
      assert (Hne : pendingAt connect ctxDone initialPeers n <> ∅).
      { intros He. rewrite He, map_size_empty in Hsz. lia. }
      pose proof (deleteAll_pendingAt n (attemptTime n)) as Hdel.
      pose proof (fun p => attempts_connectAll n (attemptTime n) p) as Hatt.
      pose proof (sleeps_connectAll n (attemptTime n)) as Hsl.
      destruct (connectAll connect ctxDone initialPeers n (attemptTime n)) as [evs newly].
      cbn [fst snd] in Hdel, Hatt, Hsl. rewrite Hdel.
      specialize (IH (S n)). cbn [attemptTime backoff] in IH.
      destruct (connectInitialPeersLoop connect ctxDone initialPeers fuel _ (S n) _ _)
        as [tr returned].
      cbn [fst snd] in *. cbn zeta in IH.
      destruct IH as (IHs & IHa & IHc & IHp & IHr & IHf).
      rewrite sleeps_app, Hsl. cbn [app sleeps length seq map].
      split; [f_equal; exact IHs|].
      split.
      { intros p. rewrite attempts_app, Hatt. cbn [attempts]. rewrite IHa.
        by case_decide. }
      split; [lia|].
      split.
      { intros [|k] Hk; [by rewrite Nat.add_0_r|].
        replace (n + S k)%nat with (S n + k)%nat by lia. apply IHp. lia. }
      rewrite IHr. replace (n + S (length (sleeps tr)))%nat
        with (S n + length (sleeps tr))%nat by lia.
      split; [split; intros [H1 H2]; (split; [lia | exact H2])|].
      intros Hf. f_equal. by apply IHf.
    + apply Nat.ltb_ge in Hsz.
      assert (He : pendingAt connect ctxDone initialPeers n = ∅).
      { apply map_size_empty_iff. lia. }
      cbn. split; [reflexivity|]. split; [intros p; by case_decide|].
      split; [lia|]. split; [intros k Hk; lia|].
      rewrite Nat.add_0_r.
      split; [split; [intros _; split; [lia | exact He] | reflexivity] | discriminate].
Qed.

Lemma connectInitialPeers_returned (fuel : nat) :
  (connectInitialPeers connect ctxDone initialPeers fuel).2 = true ->
  exists n, (n < fuel)%nat /\ pendingAt connect ctxDone initialPeers n = ∅.
Proof.
  intros Hret.
  pose proof (connectInitialPeersLoop_spec fuel 0) as H. cbn zeta in H.
  destruct H as (_ & _ & _ & _ & Hr & _). cbn [Nat.add] in Hr.
  apply Hr in Hret as [Hlt He]. eauto.
Qed.

Lemma pendingAt_step (n : nat) (p : PeerID) :
  pendingAt connect ctxDone initialPeers (S n) !! p =
  if connect n p (ctxDone n) then None
  else pendingAt connect ctxDone initialPeers n !! p.
Proof.
  cbn [pendingAt]. apply option_eq. intros a. rewrite map_lookup_filter_Some. cbn [fst].
  destruct (connect n p (ctxDone n)).
  - split; [intros [_ H]; discriminate H | discriminate].
  - split; [by intros [H _] | by intros H].
Qed.

(** The context reaches the loop through the answers of [Connect] only. *)
Lemma connectInitialPeersLoop_ctx (ctxDone' : nat -> bool) (fuel : nat)
    (peersToConnect : gmap string AddrInfo) (n : nat) (clock sleepTimeSeconds : Z) :
  (forall k p, connect k p (ctxDone' k) = connect k p (ctxDone k)) ->
  connectInitialPeersLoop connect ctxDone' initialPeers fuel peersToConnect n
    clock sleepTimeSeconds
  = connectInitialPeersLoop connect ctxDone initialPeers fuel peersToConnect n
      clock sleepTimeSeconds.
Proof.
  intros Hsame. revert peersToConnect n clock sleepTimeSeconds.
  induction fuel as [|fuel IH]; intros m n clock sl; cbn [connectInitialPeersLoop];
    [reflexivity|].
  destruct (0 <? size m)%nat; [|reflexivity].
  assert (Hall : connectAll connect ctxDone' initialPeers n clock
                 = connectAll connect ctxDone initialPeers n clock).
  { unfold connectAll. f_equal.
    - apply map_ext. intros q. by rewrite Hsame.
    - apply list_filter_iff. intros q. by rewrite Hsame. }
  rewrite Hall. destruct (connectAll connect ctxDone initialPeers n clock) as [evs newly].
  by rewrite IH.
Qed.

End InitialPeersProofs.

Definition seedAddr : AddrInfo :=
  {| ID := "QmSeed"; Addrs := ["/ip4/10.0.0.1/tcp/8888"%string] |}.

(** Scenario S1 for the reconnection task: the seed is reachable at the
    eighth attempt. *)
Example scenario_S1_reconnect :
  let r := reconnect 20 (fun n => (7 <=? n)%nat) seedAddr in
  attempts "QmSeed" r.1 = [0; 1; 3; 7; 15; 31; 61; 91] /\
  sleeps r.1 = [1; 2; 4; 8; 16; 30; 30] /\ r.2 = true.
Proof. vm_compute. repeat split. Qed.

(** An unreachable seed stays pending at every loop test. *)
Lemma pendingAt_unreachable_seed (connect : nat -> PeerID -> bool -> bool)
    (ctxDone : nat -> bool) (initialPeers : gmap string AddrInfo)
    (seed : PeerID) (addr : AddrInfo) (n : nat) :
  initialPeers !! seed = Some addr ->
  (forall k, connect k seed (ctxDone k) = false) ->
  pendingAt connect ctxDone initialPeers n !! seed = Some addr.
Proof.
  intros Hseed Hfail. induction n as [|n IH]; [exact Hseed|].
  by rewrite pendingAt_step, Hfail.
Qed.

(** The initial-peers loop with a seed that never connects: it does not
    return, and with [fuel] iterations it makes [fuel] cycles, attempting the
    seed at the times of the schedule and sleeping after each. *)
Lemma connectInitialPeers_unreachable_seed (connect : nat -> PeerID -> bool -> bool)
    (ctxDone : nat -> bool) (initialPeers : gmap string AddrInfo)
    (seed : PeerID) (addr : AddrInfo) (fuel : nat) :
  initialPeers !! seed = Some addr ->
  (forall k, connect k seed (ctxDone k) = false) ->
  let r := connectInitialPeers connect ctxDone initialPeers fuel in
  r.2 = false /\
  sleeps r.1 = map backoff (seq 0 fuel) /\
  attempts seed r.1 = map attemptTime (seq 0 fuel).
Proof.
  intros Hseed Hfail r.
  pose proof (connectInitialPeersLoop_spec connect ctxDone initialPeers fuel 0) as H.
  cbn zeta in H.
  change (connectInitialPeersLoop connect ctxDone initialPeers fuel
            (pendingAt connect ctxDone initialPeers 0) 0 (attemptTime 0) (backoff 0))
    with r in H.
  destruct H as (Hs & Ha & _ & _ & Hr & Hf). cbn [Nat.add] in Hr.
  assert (Hret : r.2 = false).
  { destruct (r.2) eqn:E; [|reflexivity]. exfalso.
    destruct (proj1 Hr eq_refl) as [_ He].
    pose proof (pendingAt_unreachable_seed connect ctxDone initialPeers seed addr
                  (length (sleeps r.1)) Hseed Hfail) as Hp.
    rewrite He, lookup_empty in Hp. discriminate. }
  specialize (Hf Hret). specialize (Ha seed).
  rewrite decide_True in Ha by (apply elem_of_dom; eauto).
  rewrite Hf in Hs, Ha. by repeat split.
Qed.

(** C5: in the reconnection task and in the initial-peers loop the first
    sleep is 1 second and every later one is [min(30, 2 * previous)],
    whatever the host answers, and a loop that has not returned has gone
    through all its iterations; the [n]-th connect attempt on a peer comes
    after [attemptTime n] seconds of sleep.  For an unreachable seed neither
    loop returns, and both attempt it at 0, 1, 3, 7, 15, 31, 61 seconds and
    then every 30 seconds, without end. *)
Theorem backoff_schedule :
  (forall (fuel : nat) (connect : nat -> bool) (addr : AddrInfo),
     let tr := (reconnect fuel connect addr).1 in
     sleeps tr = map backoff (seq 0 (length (sleeps tr))) /\
     attempts (ID addr) tr = map attemptTime (seq 0 (length (attempts (ID addr) tr)))) /\
  (forall (fuel : nat) (addr : AddrInfo),
     let r := reconnect fuel (fun _ => false) addr in
     attempts (ID addr) r.1 = map attemptTime (seq 0 fuel) /\
     sleeps r.1 = map backoff (seq 0 fuel) /\
     r.2 = false) /\
  (forall (fuel : nat) (connect : nat -> PeerID -> bool -> bool) (ctxDone : nat -> bool)
          (initialPeers : gmap string AddrInfo),
     let r := connectInitialPeers connect ctxDone initialPeers fuel in
     let cycles := length (sleeps r.1) in
     sleeps r.1 = map backoff (seq 0 cycles) /\
     (forall p : PeerID,
        attempts p r.1 =
        if decide (p ∈ dom initialPeers) then map attemptTime (seq 0 cycles) else []) /\
     (cycles <= fuel)%nat /\
     (r.2 = false -> cycles = fuel)) /\
  (forall (fuel : nat) (connect : nat -> PeerID -> bool -> bool) (ctxDone : nat -> bool)
          (initialPeers : gmap string AddrInfo) (seed : PeerID) (addr : AddrInfo),
     initialPeers !! seed = Some addr ->
     (forall k, connect k seed (ctxDone k) = false) ->
     let r := connectInitialPeers connect ctxDone initialPeers fuel in
     attempts seed r.1 = map attemptTime (seq 0 fuel) /\
     sleeps r.1 = map backoff (seq 0 fuel) /\
     r.2 = false) /\
  backoff 0 = 1 /\
  (forall n : nat, backoff (S n) = min maxSleepBackoff (backoff n * 2)) /\
  (forall n : nat, attemptTime (S n) = attemptTime n + backoff n) /\
  map backoff (seq 0 7) = [1; 2; 4; 8; 16; 30; 30] /\
  map attemptTime (seq 0 8) = [0; 1; 3; 7; 15; 31; 61; 91] /\
  (forall n : nat, attemptTime (S (5 + n)) = attemptTime (5 + n) + 30).
Proof.
  split; [|split; [|split; [|split]]].
  - intros fuel connect addr. apply (reconnectLoop_schedule fuel connect addr 0).
  - intros fuel addr. apply (reconnectLoop_unreachable fuel addr 0).
  - intros fuel connect ctxDone initialPeers.
    pose proof (connectInitialPeersLoop_spec connect ctxDone initialPeers fuel 0) as H.
    cbn zeta in H. destruct H as (Hs & Ha & Hc & _ & _ & Hf). by repeat split.
  - intros fuel connect ctxDone initialPeers seed addr Hseed Hfail.
    destruct (connectInitialPeers_unreachable_seed connect ctxDone initialPeers seed addr
                fuel Hseed Hfail) as (Hr & Hs & Ha).
    by repeat split.
  - split; [reflexivity|]. split; [reflexivity|]. split; [reflexivity|].
    split; [reflexivity|]. split; [reflexivity|].
    intros n. cbn [attemptTime]. by rewrite backoff_capped.
Qed.

(** Scenario S1 for the initial-peers loop: a seed that never connects and a
    second peer that connects at once; seven cycles in seven iterations. *)
Example scenario_S1_initial :
  let r := connectInitialPeers (fun _ p _ => bool_decide (p = "QmOther"%string))
             (fun _ => false)
             {[ "QmSeed"%string := seedAddr;
                "QmOther"%string := {| ID := "QmOther"; Addrs := [] |} ]} 7 in
  attempts "QmSeed" r.1 = [0; 1; 3; 7; 15; 31; 61] /\
  attempts "QmOther" r.1 = [0; 1; 3; 7; 15; 31; 61] /\
  sleeps r.1 = [1; 2; 4; 8; 16; 30; 30] /\ r.2 = false.
Proof. vm_compute. repeat split. Qed.

(** C9, as the code has it: [connectInitialPeers] returns exactly when its
    pending set is empty at one of the loop tests, the first such test; each
    cycle attempts every configured initial peer once and removes the peers
    whose connect succeeded from the pending set; the context is only handed
    to [Connect], so cancelling it ends the loop only through the answers of
    [Connect]. *)
Theorem connectInitialPeers_returns_iff (connect : nat -> PeerID -> bool -> bool)
    (ctxDone : nat -> bool) (initialPeers : gmap string AddrInfo) (fuel : nat) :
  let r := connectInitialPeers connect ctxDone initialPeers fuel in
  let cycles := length (sleeps r.1) in
  (r.2 = true <->
   exists n, (n < fuel)%nat /\ pendingAt connect ctxDone initialPeers n = ∅) /\
  (r.2 = true -> pendingAt connect ctxDone initialPeers cycles = ∅) /\
  (forall k, (k < cycles)%nat -> pendingAt connect ctxDone initialPeers k <> ∅) /\
  (forall p : PeerID,
     attempts p r.1 =
     if decide (p ∈ dom initialPeers) then map attemptTime (seq 0 cycles) else []) /\
  pendingAt connect ctxDone initialPeers 0 = initialPeers /\
  (forall (n : nat) (p : PeerID),
     pendingAt connect ctxDone initialPeers (S n) !! p =
     if connect n p (ctxDone n) then None
     else pendingAt connect ctxDone initialPeers n !! p) /\
  (forall ctxDone' : nat -> bool,
     (forall k p, connect k p (ctxDone' k) = connect k p (ctxDone k)) ->
     connectInitialPeers connect ctxDone' initialPeers fuel = r).
Proof.
  intros r cycles.
  pose proof (connectInitialPeersLoop_spec connect ctxDone initialPeers fuel 0) as H.
  cbn zeta in H.
  change (connectInitialPeersLoop connect ctxDone initialPeers fuel
            (pendingAt connect ctxDone initialPeers 0) 0 (attemptTime 0) (backoff 0))
    with r in H.
  change (length (sleeps r.1)) with cycles in H.
  destruct H as (Hs & Ha & Hc & Hp & Hr & Hf). cbn [Nat.add] in Hp, Hr.
  split; [|split; [|split; [|split; [|split; [|split]]]]].
  - rewrite Hr. split.
    + intros [Hlt He]. exists cycles. split; [exact Hlt | exact He].
    + intros (n & Hn & He). destruct (r.2) eqn:Hret.
      * by apply Hr.
      * exfalso. apply (Hp n); [|exact He]. rewrite (Hf eq_refl). exact Hn.
  - intros Hret. by apply Hr.
  - exact Hp.
  - exact Ha.
  - reflexivity.
  - apply pendingAt_step.
  - intros ctxDone' Hsame. by apply connectInitialPeersLoop_ctx.
Qed.

Lemma connectInitialPeers_returns_iff_witness :
  let connect := fun (n : nat) (_ : PeerID) (done : bool) => (2 <=? n)%nat && negb done in
  let ctxDone := fun _ : nat => false in
  let initialPeers : gmap string AddrInfo := {[ "QmSeed" := seedAddr ]} in
  let r := connectInitialPeers connect ctxDone initialPeers 5 in
  let cycles := length (sleeps r.1) in
  (r.2 = true <->
   exists n, (n < 5)%nat /\ pendingAt connect ctxDone initialPeers n = ∅) /\
  (r.2 = true -> pendingAt connect ctxDone initialPeers cycles = ∅) /\
  (forall k, (k < cycles)%nat -> pendingAt connect ctxDone initialPeers k <> ∅) /\
  (forall p : PeerID,
     attempts p r.1 =
     if decide (p ∈ dom initialPeers) then map attemptTime (seq 0 cycles) else []) /\
  pendingAt connect ctxDone initialPeers 0 = initialPeers /\
  (forall (n : nat) (p : PeerID),
     pendingAt connect ctxDone initialPeers (S n) !! p =
     if connect n p (ctxDone n) then None
     else pendingAt connect ctxDone initialPeers n !! p) /\
  (forall ctxDone' : nat -> bool,
     (forall k p, connect k p (ctxDone' k) = connect k p (ctxDone k)) ->
     connectInitialPeers connect ctxDone' initialPeers 5 = r).
Proof.
  exact (connectInitialPeers_returns_iff
           (fun (n : nat) (_ : PeerID) (done : bool) => (2 <=? n)%nat && negb done)
           (fun _ : nat => false) {[ "QmSeed" := seedAddr ]} 5).
Defined.

(** The run of the witness: three cycles, at 0, 1 and 3 seconds, and the
    loop returns after the sleep that follows the successful one. *)
Example connectInitialPeers_run :
  connectInitialPeers (fun (n : nat) (_ : PeerID) (done : bool) => (2 <=? n)%nat && negb done)
    (fun _ : nat => false) {[ "QmSeed" := seedAddr ]} 5
  = ([Connect 0 "QmSeed" false; Sleep 0 1; Connect 1 "QmSeed" false; Sleep 1 2;
      Connect 3 "QmSeed" true; Sleep 3 4], true).
Proof. vm_compute. reflexivity. Qed.

Lemma pendingAt_unreachable (ctxDone : nat -> bool) (initialPeers : gmap string AddrInfo)
    (n : nat) :
  pendingAt (fun _ _ _ => false) ctxDone initialPeers n = initialPeers.
Proof.
  induction n as [|n IH]; cbn [pendingAt]; [reflexivity|].
  rewrite IH. apply map_eq. intros p. apply option_eq. intros a.
  rewrite map_lookup_filter_Some. split; [by intros [H _] | by intros H].
Qed.

(** C9 as stated fails: with one seed that never connects and a context
    that is cancelled from the start, the loop does not return, whatever the
    number of iterations it is given. *)
Lemma connectInitialPeers_ignores_cancellation :
  ~ (forall (connect : nat -> PeerID -> bool -> bool) (ctxDone : nat -> bool)
            (initialPeers : gmap string AddrInfo),
       (exists k, ctxDone k = true) ->
       exists fuel, (connectInitialPeers connect ctxDone initialPeers fuel).2 = true).
Proof.
  intros H.
  destruct (H (fun _ _ _ => false) (fun _ => true) {[ "QmSeed" := seedAddr ]})
    as [fuel Hret]; [by exists 0%nat|].
  apply connectInitialPeers_returned in Hret as (n & _ & He).
  rewrite pendingAt_unreachable in He.
  by apply (map_non_empty_singleton (M := gmap string)) in He.
Qed.

End Backoff.

(* ===================================================================== *)
(** * The connection manager: peer connections *)
(* ===================================================================== *)

Module ConnManager.

Import Backoff.

(** A [PeerConnection] made by [NewPeerConnection]: the peer it serves and
    its number in the order of creation (its identity as a Go pointer). *)
Record PeerConnection : Type := { peerID : PeerID; serial : nat }.

#[global] Instance PeerConnection_eq_dec : EqDecision PeerConnection.
Proof. solve_decision. Defined.

(** [type peerConnectionContext struct { peer *PeerConnection; cancel ... }];
    calling [cancel] takes [peer] out of [running] below. *)
Record peerConnectionContext : Type := { peer : PeerConnection }.

(** The fields of [ConnectionManager] the handlers use, and what they have
    set off: the peer connections started and not cancelled, the number of
    connections created, the reconnection tasks started and the sends
    attempted on [signalPeerDisconnectChan]. *)
Record ConnectionManager : Type := {
  initialPeers : gmap string AddrInfo;
  connectedPeers : gmap string peerConnectionContext;
  running : list PeerConnection;
  created : nat;
  reconnecting : list AddrInfo;
  signalled : list PeerID
}.

Definition NewConnectionManager (initial : gmap string AddrInfo) : ConnectionManager :=
  {| initialPeers := initial; connectedPeers := ∅; running := []; created := 0;
     reconnecting := []; signalled := [] |}.

(** [handleConnected], for [pid = msg.conn.RemotePeer()]. *)
Definition handleConnected (c : ConnectionManager) (pid : PeerID) : ConnectionManager :=
  match connectedPeers c !! pid with
  | None =>
      let peerConn := {| peer := {| peerID := pid; serial := created c |} |} in
      {| initialPeers := initialPeers c;
         connectedPeers := <[pid := peerConn]> (connectedPeers c);
         running := peer peerConn :: running c;
         created := S (created c);
         reconnecting := reconnecting c;
         signalled := signalled c |}
  | Some _ => c
  end.

(** [peerConn.cancel()] *)
Definition cancel (peerConn : peerConnectionContext) (rs : list PeerConnection)
    : list PeerConnection :=
  filter (fun w => w <> peer peerConn) rs.

(** [handleDisconnected], for [pid = msg.conn.RemotePeer()]. *)
Definition handleDisconnected (c : ConnectionManager) (pid : PeerID) : ConnectionManager :=
  match connectedPeers c !! pid with
  | Some peerConn =>
      {| initialPeers := initialPeers c;
         connectedPeers := delete pid (connectedPeers c);
         running := cancel peerConn (running c);
         created := created c;
         reconnecting :=
           match initialPeers c !! pid with
           | Some addr => addr :: reconnecting c
           | None => reconnecting c
           end;
         signalled := pid :: signalled c |}
  | None => c
  end.

(** What the [select] of [managerLoop] receives. *)
Inductive message : Type :=
  | Connected (pid : PeerID)
  | Disconnected (pid : PeerID)
  | Done.

(** The [ctx.Done()] case: every tracked connection is cancelled and the map
    is replaced by an empty one. *)
Definition cancelAll (c : ConnectionManager) : ConnectionManager :=
  {| initialPeers := initialPeers c;
     connectedPeers := ∅;
     running := foldr cancel (running c) (map_to_list (connectedPeers c)).*2;
     created := created c;
     reconnecting := reconnecting c;
     signalled := signalled c |}.

Fixpoint managerLoop (msgs : list message) (c : ConnectionManager) : ConnectionManager :=
  match msgs with
  | [] => c
  | Connected pid :: msgs' => managerLoop msgs' (handleConnected c pid)
  | Disconnected pid :: msgs' => managerLoop msgs' (handleDisconnected c pid)
  | Done :: _ => cancelAll c
  end.

(** The running peer connections that serve [pid]. *)
Definition workersOf (pid : PeerID) (c : ConnectionManager) : list PeerConnection :=
  filter (fun w => peerID w = pid) (running c).

(** The invariant of the manager: the running connections are exactly the
    tracked ones, each under the id of its peer and each once, and all were
    created before. *)
Record tracked (c : ConnectionManager) : Prop := {
  tracked_running :
    forall w, w ∈ running c -> connectedPeers c !! peerID w = Some {| peer := w |};
  tracked_map :
    forall p pc, connectedPeers c !! p = Some pc ->
                 peerID (peer pc) = p /\ peer pc ∈ running c;
  tracked_NoDup : NoDup (running c);
  tracked_created : forall w, w ∈ running c -> serial w < created c
}.

(** ** Properties *)

Lemma tracked_New (initial : gmap string AddrInfo) :
  tracked (NewConnectionManager initial).
Proof.
  split; cbn.
  - intros w Hw. by apply elem_of_nil in Hw.
  - intros p pc Hp. by rewrite lookup_empty in Hp.
  - constructor.
  - intros w Hw. by apply elem_of_nil in Hw.
Qed.

Lemma tracked_handleConnected (c : ConnectionManager) (pid : PeerID) :
  tracked c -> tracked (handleConnected c pid).
Proof.
  intros [Hrun Hmap Hnd Hcr]. unfold handleConnected.
  destruct (connectedPeers c !! pid) as [pc|] eqn:Hpid; [by split|].
  split; cbn.
  - intros w [->|Hw]%elem_of_cons.
    + cbn. by rewrite lookup_insert_eq.
    + destruct (decide (peerID w = pid)) as [Heq|Hne].
      * apply Hrun in Hw. rewrite Heq, Hpid in Hw. discriminate.
      * rewrite lookup_insert_ne by done. by apply Hrun.
  - intros p pc. destruct (decide (pid = p)) as [->|Hne].
    + rewrite lookup_insert_eq. intros [= <-]. cbn. split; [reflexivity | left].
    + rewrite lookup_insert_ne by done. intros Hp.
      destruct (Hmap p pc Hp) as [H1 H2]. split; [exact H1 | by right].
  - constructor; [|exact Hnd]. intros Hin. apply Hcr in Hin. cbn in Hin. lia.
  - intros w [->|Hw]%elem_of_cons; [cbn; lia|]. apply Hcr in Hw. lia.
Qed.

Lemma tracked_handleDisconnected (c : ConnectionManager) (pid : PeerID) :
  tracked c -> tracked (handleDisconnected c pid).
Proof.
  intros [Hrun Hmap Hnd Hcr]. unfold handleDisconnected.
  destruct (connectedPeers c !! pid) as [pc|] eqn:Hpid; [|by split].
  destruct (Hmap pid pc Hpid) as [Hpc Hin].
  split; cbn; unfold cancel.
  - intros w [Hne Hw]%list_elem_of_filter.
    destruct (decide (peerID w = pid)) as [Heq|Hne'].
    + apply Hrun in Hw. rewrite Heq, Hpid in Hw. injection Hw as ->. by cbn in Hne.
    + rewrite lookup_delete_ne by done. by apply Hrun.
  - intros p pc'. destruct (decide (pid = p)) as [->|Hne].
    + by rewrite lookup_delete_eq.
    + rewrite lookup_delete_ne by done. intros Hp.
      destruct (Hmap p pc' Hp) as [H1 H2]. split; [exact H1|].
      apply list_elem_of_filter. split; [|exact H2].
      intros Heq. rewrite Heq in H1. congruence.
  - by apply NoDup_filter.
  - intros w [_ Hw]%list_elem_of_filter. by apply Hcr.
Qed.

Lemma elem_of_cancel_all (w : PeerConnection) (pcs : list peerConnectionContext)
    (rs : list PeerConnection) :
  w ∈ foldr cancel rs pcs <-> w ∈ rs /\ forall pc, pc ∈ pcs -> w <> peer pc.
Proof.
  induction pcs as [|pc pcs IH]; cbn [foldr].
  - split; [intros Hw; split; [exact Hw | by intros pc ?%elem_of_nil] | by intros [Hw _]].
  - unfold cancel at 1. rewrite list_elem_of_filter, IH. split.
    + intros (Hne & Hw & Hall). split; [exact Hw|].
      intros pc' [->|Hpc']%elem_of_cons; [exact Hne | by apply Hall].
    + intros (Hw & Hall). split; [apply Hall; left|].
      split; [exact Hw|]. intros pc' Hpc'. apply Hall. by right.
Qed.

Lemma cancelAll_running (c : ConnectionManager) :
  tracked c -> running (cancelAll c) = [].
Proof.
  intros [Hrun _ _ _]. cbn.
  destruct (foldr cancel (running c) (map_to_list (connectedPeers c)).*2) as [|w l] eqn:E;
    [reflexivity|].
  assert (Hw : w ∈ foldr cancel (running c) (map_to_list (connectedPeers c)).*2)
    by (rewrite E; left).
  apply elem_of_cancel_all in Hw as [Hw Hall]. exfalso.
  apply (Hall {| peer := w |}); [|reflexivity].
  apply list_elem_of_fmap. exists (peerID w, {| peer := w |}). split; [reflexivity|].
  apply elem_of_map_to_list. by apply Hrun.
Qed.

Lemma tracked_cancelAll (c : ConnectionManager) : tracked c -> tracked (cancelAll c).
Proof.
  intros Hc. pose proof (cancelAll_running c Hc) as Hr.
  split; rewrite ?Hr.
  - intros w Hw. by apply elem_of_nil in Hw.
  - intros p pc Hp. cbn in Hp. by rewrite lookup_empty in Hp.
  - constructor.
  - intros w Hw. by apply elem_of_nil in Hw.
Qed.

Lemma tracked_managerLoop (msgs : list message) (c : ConnectionManager) :
  tracked c -> tracked (managerLoop msgs c).
Proof.
  revert c. induction msgs as [|[pid|pid|] msgs IH]; intros c Hc; cbn [managerLoop].
  - exact Hc.
  - by apply IH, tracked_handleConnected.
  - by apply IH, tracked_handleDisconnected.
  - by apply tracked_cancelAll.
Qed.

Lemma NoDup_all_equal_length {A : Type} (l : list A) :
  NoDup l -> (forall x y, x ∈ l -> y ∈ l -> x = y) -> (length l <= 1)%nat.
Proof.
  intros Hnd Heq. destruct l as [|x [|y l]]; cbn; [lia | lia |].
  exfalso. apply NoDup_cons in Hnd as [Hx _]. apply Hx.
  rewrite (Heq x y); [left | left | right; left].
Qed.

(** In a state that satisfies the invariant a peer has at most one running
    connection, and has one exactly when it is tracked. *)
Lemma tracked_workersOf (c : ConnectionManager) (pid : PeerID) :
  tracked c ->
  (length (workersOf pid c) <= 1)%nat /\
  (length (workersOf pid c) = 1%nat <-> is_Some (connectedPeers c !! pid)).
Proof.
  intros [Hrun Hmap Hnd Hcr]. unfold workersOf.
  assert (Hle : (length (filter (fun w => peerID w = pid) (running c)) <= 1)%nat).
  { apply NoDup_all_equal_length; [by apply NoDup_filter|].
    intros x y [Hx Hxr]%list_elem_of_filter [Hy Hyr]%list_elem_of_filter.
    apply Hrun in Hxr, Hyr. rewrite Hx in Hxr. rewrite Hy in Hyr. congruence. }
  split; [exact Hle|]. split.
  - intros Hlen.
    destruct (filter (fun w => peerID w = pid) (running c)) as [|w l] eqn:E;
      [discriminate|].
    assert (Hw : w ∈ filter (fun w => peerID w = pid) (running c)) by (rewrite E; left).
    apply list_elem_of_filter in Hw as [Hp Hw]. apply Hrun in Hw. rewrite Hp in Hw. eauto.
  - intros [pc Hpc]. destruct (Hmap pid pc Hpc) as [Hp Hin].
    assert (Hw : peer pc ∈ filter (fun w => peerID w = pid) (running c))
      by (by apply list_elem_of_filter).
    destruct (filter (fun w => peerID w = pid) (running c)) as [|w l];
      [by apply elem_of_nil in Hw|]. cbn in *. lia.
Qed.

(** C6: in every state the manager loop reaches from a new manager, a peer
    id has at most one running peer connection, and has one exactly when it
    is in [connectedPeers]; [handleConnected] creates and starts a
    connection, and records it, only when the peer is not in the map, and
    otherwise changes nothing. *)
Theorem one_worker_per_peer (initial : gmap string AddrInfo) (msgs : list message)
    (pid : PeerID) :
  let c := managerLoop msgs (NewConnectionManager initial) in
  let w := {| peerID := pid; serial := created c |} in
  (length (workersOf pid c) <= 1)%nat /\
  (length (workersOf pid c) = 1%nat <-> is_Some (connectedPeers c !! pid)) /\
  (connectedPeers c !! pid = None ->
     connectedPeers (handleConnected c pid) = <[pid := {| peer := w |}]> (connectedPeers c) /\
     running (handleConnected c pid) = w :: running c /\
     workersOf pid (handleConnected c pid) = [w]) /\
  (is_Some (connectedPeers c !! pid) -> handleConnected c pid = c).
Proof.
  intros c w.
  assert (Hc : tracked c) by apply tracked_managerLoop, tracked_New.
  destruct (tracked_workersOf c pid Hc) as [Hle Hiff].
  split; [exact Hle|]. split; [exact Hiff|]. split.
  - intros Hnone.
    assert (Hnew : tracked (handleConnected c pid)) by by apply tracked_handleConnected.
    destruct (tracked_workersOf (handleConnected c pid) pid Hnew) as [Hle' _].
    assert (Hmap : connectedPeers (handleConnected c pid)
                   = <[pid := {| peer := w |}]> (connectedPeers c))
      by (unfold handleConnected; by rewrite Hnone).
    assert (Hrun : running (handleConnected c pid) = w :: running c)
      by (unfold handleConnected; by rewrite Hnone).
    split; [exact Hmap|]. split; [exact Hrun|].
    unfold workersOf in Hle' |- *. rewrite Hrun in Hle' |- *.
    rewrite filter_cons_True in Hle' |- * by reflexivity.
    destruct (filter (fun w0 => peerID w0 = pid) (running c));
      [reflexivity | cbn in Hle'; lia].
  - intros [pc Hpc]. unfold handleConnected. by rewrite Hpc.
Qed.

Definition seeds : gmap string AddrInfo := {[ "QmSeed" := seedAddr ]}.

(** A duplicate Connected event, a disconnect of a seed and a reconnect. *)
Example managerLoop_run :
  let c := managerLoop [Connected "QmSeed"; Connected "QmSeed"; Connected "QmOther";
                        Disconnected "QmSeed"; Connected "QmSeed"]
             (NewConnectionManager seeds) in
  running c = [ {| peerID := "QmSeed"; serial := 2 |};
                {| peerID := "QmOther"; serial := 1 |} ] /\
  reconnecting c = [seedAddr] /\ signalled c = ["QmSeed"].
Proof. vm_compute. repeat split. Qed.

Lemma one_worker_per_peer_witness :
  let c := managerLoop [Connected "QmSeed"; Disconnected "QmSeed"] (NewConnectionManager seeds) in
  let d := managerLoop [Connected "QmSeed"] (NewConnectionManager seeds) in
  (connectedPeers c !! "QmSeed" = None /\
   workersOf "QmSeed" (handleConnected c "QmSeed") = [{| peerID := "QmSeed"; serial := 1 |}]) /\
  (is_Some (connectedPeers d !! "QmSeed") /\ handleConnected d "QmSeed" = d).
Proof.
  split.
  - assert (H : connectedPeers
                  (managerLoop [Connected "QmSeed"; Disconnected "QmSeed"]
                     (NewConnectionManager seeds)) !! "QmSeed" = None)
      by (vm_compute; reflexivity).
    split; [exact H|].
    exact (proj2 (proj2 (proj1 (proj2 (proj2
             (one_worker_per_peer seeds [Connected "QmSeed"; Disconnected "QmSeed"] "QmSeed")))
             H))).
  - assert (H : is_Some (connectedPeers
                  (managerLoop [Connected "QmSeed"] (NewConnectionManager seeds)) !! "QmSeed"))
      by (vm_compute; eauto).
    split; [exact H|].
    exact (proj2 (proj2 (proj2
             (one_worker_per_peer seeds [Connected "QmSeed"] "QmSeed"))) H).
Defined.

End ConnManager.

(* ===================================================================== *)
(** * The per-peer handler (PeerHandler) *)
(* ===================================================================== *)

Module PeerHandler.

Local Open Scope Z_scope.

(** [type NodeUpdate struct] *)
Record NodeUpdate : Type := {
  NodeHeight : Z;
  InterestStartHeight : Z;
  InterestNumBlocks : Z
}.

(** ** [nodeUpdateLoop] *)

(** The locals of the loop: [var value NodeUpdate; hasValue := false]. *)
Record buffer : Type := { value : NodeUpdate; hasValue : bool }.

Definition start : buffer :=
  {| value := {| NodeHeight := 0; InterestStartHeight := 0; InterestNumBlocks := 0 |};
     hasValue := false |}.

(** The case a [select] of the loop takes. *)
Inductive selected : Type :=
  | RecvNodeUpdate (v : NodeUpdate)   (* value = <-h.nodeUpdateChan *)
  | SendInternal                      (* h.internalNodeUpdateChan <- value *)
  | CtxDone.                          (* <-ctx.Done() *)

(** The loop along a sequence of taken cases: the locals at the end, the
    values sent on [internalNodeUpdateChan] and whether the function has
    returned; [None] when the sequence takes the send case while
    [hasValue] is false, where the [select] has no such case. *)
Fixpoint nodeUpdateLoop (evs : list selected) (b : buffer)
    : option (buffer * list NodeUpdate * bool) :=
  match evs with
  | [] => Some (b, [], false)
  | RecvNodeUpdate v :: evs' => nodeUpdateLoop evs' {| value := v; hasValue := true |}
  | SendInternal :: evs' =>
      if hasValue b then
        match nodeUpdateLoop evs' {| value := value b; hasValue := false |} with
        | Some (b', out, returned) => Some (b', value b :: out, returned)
        | None => None
        end
      else None
  | CtxDone :: _ => Some (b, [], true)
  end.

(** The updates held by the loop and not yet handed over. *)
Definition buffered (b : buffer) : list NodeUpdate :=
  if hasValue b then [value b] else [].

(** The updates that arrive up to the return of the loop. *)
Fixpoint arrivals (evs : list selected) : list NodeUpdate :=
  match evs with
  | [] => []
  | RecvNodeUpdate v :: evs' => v :: arrivals evs'
  | SendInternal :: evs' => arrivals evs'
  | CtxDone :: _ => []
  end.

(** Last value wins: the updates whose arrival is directly followed by a
    hand-over, up to the return of the loop; an update followed by another
    arrival is dropped. *)
Fixpoint handedOver (evs : list selected) : list NodeUpdate :=
  match evs with
  | [] => []
  | RecvNodeUpdate v :: evs' =>
      match evs' with
      | SendInternal :: _ => v :: handedOver evs'
      | _ => handedOver evs'
      end
  | SendInternal :: evs' => handedOver evs'
  | CtxDone :: _ => []
  end.

(** The update waiting at the end: the last arrival, when nothing came
    after it. *)
Fixpoint waiting (evs : list selected) : list NodeUpdate :=
  match evs with
  | [] => []
  | RecvNodeUpdate v :: evs' =>
      match evs' with
      | [] | CtxDone :: _ => [v]
      | _ => waiting evs'
      end
  | SendInternal :: evs' => waiting evs'
  | CtxDone :: _ => []
  end.

(** ** [peerHandlerCycle] and [peerHandlerLoop] *)

Record BlockTopology : Type := { BlockID : Z; Height : Z; Previous : Z }.

(** [type PeerError struct { id peer.ID; err error }], the error by its
    message. *)
Record PeerError : Type := { id : PeerID; err : string }.

(** [type PeerHasBlock struct] *)
Record PeerHasBlock : Type := { PeerID_ : PeerID; Block : BlockTopology }.

Record BlockDownloadRequest : Type := { Topology : BlockTopology }.

(** [type PeerHandler struct]: the peer and the last node update. *)
Record PeerHandler : Type := {
  peerID : PeerID;
  lastNodeUpdate : NodeUpdate
}.

(** What the handler does on its channels and its RPC client. *)
Inductive action : Type :=
  | SendErr (e : PeerError)                 (* h.errChan <- e *)
  | SendHasBlock (m : PeerHasBlock)         (* h.peerHasBlockChan <- m *)
  | StartDownload (req : BlockDownloadRequest).  (* h.requestDownload(ctx, req) *)

(** The result of [h.client.CallContext(..., "GetTopologyAtHeight", ...)]:
    an error, or the topologies of the response. *)
Definition rpcResult : Type := string + list BlockTopology.

(** The loop over [resp.BlockTopology]: [sendable] is the number of sends
    that go through before [ctx.Done()] is taken ([None]: all of them). *)
Definition sendTopology (h : PeerHandler) (bs : list BlockTopology)
    (sendable : option nat) : list action :=
  let msgs := map (fun b => SendHasBlock {| PeerID_ := peerID h; Block := b |}) bs in
  match sendable with
  | Some n => firstn n msgs
  | None => msgs
  end.

(** [peerHandlerCycle]: the returned error, and the sends. *)
Definition peerHandlerCycle (h : PeerHandler) (resp : rpcResult) (sendable : option nat)
    : option string * list action :=
  match resp with
  | inl e => (Some e, [])
  | inr bs => (None, sendTopology h bs sendable)
  end.

(** The closure [doPeerCycle] of [peerHandlerLoop]: on an error it returns;
    the send on [h.errChan] is commented out in the source. *)
Definition doPeerCycle (h : PeerHandler) (resp : rpcResult) (sendable : option nat)
    : list action :=
  let '(e, acts) := peerHandlerCycle h resp sendable in
  match e with
  | Some _ => acts
  | None => acts
  end.

(** The case a [select] of [peerHandlerLoop] takes. *)
Inductive polled : Type :=
  | NextPollTime (resp : rpcResult) (sendable : option nat)
  | InternalNodeUpdate (v : NodeUpdate)
  | DownloadRequest (req : BlockDownloadRequest)
  | LoopDone.

Fixpoint peerHandlerLoop (evs : list polled) (h : PeerHandler) : PeerHandler * list action :=
  match evs with
  | [] => (h, [])
  | NextPollTime resp sendable :: evs' =>
      let acts := doPeerCycle h resp sendable in
      let '(h', acts') := peerHandlerLoop evs' h in (h', acts ++ acts')
  | InternalNodeUpdate v :: evs' =>
      peerHandlerLoop evs' {| peerID := peerID h; lastNodeUpdate := v |}
  | DownloadRequest req :: evs' =>
      let '(h', acts') := peerHandlerLoop evs' h in (h', StartDownload req :: acts')
  | LoopDone :: _ => (h, [])
  end.

(** The [PeerError]s posted on the shared error channel. *)
Fixpoint posted (acts : list action) : list PeerError :=
  match acts with
  | [] => []
  | SendErr e :: acts' => e :: posted acts'
  | _ :: acts' => posted acts'
  end.

(** ** Properties of [nodeUpdateLoop] *)

Lemma nodeUpdateLoop_from (evs : list selected) (b0 b : buffer) (out : list NodeUpdate)
    (returned : bool) :
  nodeUpdateLoop evs b0 = Some (b, out, returned) ->
  out = match evs with SendInternal :: _ => buffered b0 | _ => [] end ++ handedOver evs /\
  buffered b = match evs with [] | CtxDone :: _ => buffered b0 | _ => waiting evs end.
Proof.
  revert b0 b out returned.
  induction evs as [|[v| |] evs IH]; intros b0 b out returned; cbn [nodeUpdateLoop].
  - intros [= <- <- <-]. by split.
  - intros H. apply IH in H as [Hout Hbuf]. cbn [app handedOver waiting].
    unfold buffered in Hout, Hbuf. cbn [hasValue value] in Hout, Hbuf.
    destruct evs as [|[w| |] evs']; cbn [app] in Hout; by split.
  - destruct (hasValue b0) eqn:Hv; [|discriminate].
    destruct (nodeUpdateLoop evs _) as [[[b' out'] ret']|] eqn:Hrun; [|discriminate].
    intros [= <- <- <-]. apply IH in Hrun as [Hout Hbuf].
    unfold buffered in Hout, Hbuf |- *. cbn [hasValue value] in Hout, Hbuf.
    rewrite Hv. cbn [app handedOver waiting].
    split.
    + f_equal. rewrite Hout. by destruct evs as [|[w| |] evs'].
    + rewrite Hbuf. by destruct evs as [|[w| |] evs'].
  - intros [= <- <- <-]. by split.
Qed.

Lemma handedOver_sublist (evs : list selected) : sublist (handedOver evs) (arrivals evs).
Proof.
  induction evs as [|[v| |] evs IH]; cbn [handedOver arrivals].
  - constructor.
  - destruct evs as [|[w| |] evs']; try (by apply sublist_cons).
    by apply sublist_skip.
  - exact IH.
  - constructor.
Qed.

(** A hand-over gives the consumer the latest arrival. *)
Lemma nodeUpdateLoop_send_latest (pre : list selected) (b0 b : buffer)
    (out : list NodeUpdate) :
  nodeUpdateLoop (pre ++ [SendInternal]) b0 = Some (b, out, false) ->
  exists v, last out = Some v /\ last (buffered b0 ++ arrivals pre) = Some v /\
            buffered b = [].
Proof.
  revert b0 b out.
  induction pre as [|[v| |] pre IH]; intros b0 b out; cbn [app nodeUpdateLoop arrivals].
  - unfold buffered. destruct (hasValue b0); [|discriminate].
    intros [= <- <-]. exists (value b0). by rewrite app_nil_r.
  - intros H. apply IH in H as (w & Hout & Hlast & Hb). exists w.
    split; [exact Hout|]. split; [|exact Hb].
    unfold buffered in Hlast |- *. cbn [hasValue value app] in Hlast.
    destruct (hasValue b0); cbn [app]; [|exact Hlast].
    by rewrite last_cons, Hlast.
  - destruct (hasValue b0) eqn:Hv; [|discriminate].
    destruct (nodeUpdateLoop (pre ++ [SendInternal]) _) as [[[b' out'] ret']|] eqn:Hrun;
      [|discriminate].
    intros [= <- <- ->]. apply IH in Hrun as (w & Hout & Hlast & Hb). exists w.
    unfold buffered in Hlast |- *. cbn [hasValue app] in Hlast. rewrite Hv. cbn [app].
    by rewrite !last_cons, Hout, Hlast.
  - discriminate.
Qed.

Definition updateA : NodeUpdate :=
  {| NodeHeight := 100; InterestStartHeight := 101; InterestNumBlocks := 64 |}.
Definition updateB : NodeUpdate :=
  {| NodeHeight := 164; InterestStartHeight := 165; InterestNumBlocks := 64 |}.
Definition updateC : NodeUpdate :=
  {| NodeHeight := 228; InterestStartHeight := 229; InterestNumBlocks := 64 |}.

(** Scenario S5: three updates while the consumer is busy; it gets the last
    one only. *)
Example scenario_S5 :
  nodeUpdateLoop
    [RecvNodeUpdate updateA; RecvNodeUpdate updateB; RecvNodeUpdate updateC; SendInternal]
    start
  = Some ({| value := updateC; hasValue := false |}, [updateC], false).
Proof. reflexivity. Qed.

(** C7: along every run of [nodeUpdateLoop] at most one update is buffered;
    an arriving update replaces the buffered one, so the buffer holds the
    last arrival until it is handed over; the consumer is sent exactly the
    updates whose arrival is directly followed by a hand-over, a
    subsequence of the arrivals; and every hand-over gives it the most
    recent arrival. *)
Theorem nodeUpdateLoop_last_value_wins :
  (forall (evs : list selected) (b : buffer) (out : list NodeUpdate) (returned : bool),
     nodeUpdateLoop evs start = Some (b, out, returned) ->
     (length (buffered b) <= 1)%nat /\
     buffered b = waiting evs /\
     out = handedOver evs /\
     sublist out (arrivals evs)) /\
  (forall (pre : list selected) (b : buffer) (out : list NodeUpdate),
     nodeUpdateLoop (pre ++ [SendInternal]) start = Some (b, out, false) ->
     exists v, last out = Some v /\ last (arrivals pre) = Some v /\ buffered b = []) /\
  (forall (b : buffer) (v : NodeUpdate) (evs : list selected),
     nodeUpdateLoop (RecvNodeUpdate v :: evs) b
     = nodeUpdateLoop evs {| value := v; hasValue := true |}).
Proof.
  split; [|split].
  - intros evs b out returned Hrun.
    apply nodeUpdateLoop_from in Hrun as [Hout Hbuf].
    assert (Ho : out = handedOver evs).
    { rewrite Hout. by destruct evs as [|[w| |] evs']. }
    split; [unfold buffered; destruct (hasValue b); cbn; lia|].
    split; [rewrite Hbuf; by destruct evs as [|[w| |] evs']|].
    split; [exact Ho|]. rewrite Ho. apply handedOver_sublist.
  - intros pre b out Hrun. by apply nodeUpdateLoop_send_latest in Hrun.
  - reflexivity.
Qed.

Lemma nodeUpdateLoop_last_value_wins_witness :
  let evs := [RecvNodeUpdate updateA; RecvNodeUpdate updateB; RecvNodeUpdate updateC;
              SendInternal] in
  let b := {| value := updateC; hasValue := false |} in
  (length (buffered b) <= 1)%nat /\
  buffered b = waiting evs /\
  [updateC] = handedOver evs /\
  sublist [updateC] (arrivals evs).
Proof.
  exact (proj1 nodeUpdateLoop_last_value_wins
           [RecvNodeUpdate updateA; RecvNodeUpdate updateB; RecvNodeUpdate updateC;
            SendInternal]
           {| value := updateC; hasValue := false |} [updateC] false eq_refl).
Defined.

(** ** Properties of [peerHandlerLoop] *)

Lemma posted_app (a1 a2 : list action) : posted (a1 ++ a2) = posted a1 ++ posted a2.
Proof.
  induction a1 as [|[e|m|r] a1 IH]; cbn [posted app]; [reflexivity| |exact IH|exact IH].
  by rewrite IH.
Qed.

Lemma posted_sendTopology (h : PeerHandler) (bs : list BlockTopology)
    (sendable : option nat) :
  posted (sendTopology h bs sendable) = [].
Proof.
  unfold sendTopology.
  assert (H : forall n l, posted (firstn n (map
                (fun b => SendHasBlock {| PeerID_ := peerID h; Block := b |}) l)) = []).
  { intros n l. revert n. induction l as [|b l IH]; intros [|n]; cbn; try reflexivity.
    apply IH. }
  destruct sendable as [n|]; [apply H|].
  rewrite <- (firstn_all (map _ bs)). apply H.
Qed.

Lemma posted_doPeerCycle (h : PeerHandler) (resp : rpcResult) (sendable : option nat) :
  posted (doPeerCycle h resp sendable) = [].
Proof.
  unfold doPeerCycle, peerHandlerCycle.
  destruct resp as [e|bs]; [reflexivity | apply posted_sendTopology].
Qed.

(** C8 does not hold of the code: when [peerHandlerCycle] returns an error,
    [doPeerCycle] returns without a send on [errChan], and no run of
    [peerHandlerLoop] posts a [PeerError]. *)
Theorem peerHandlerLoop_posts_no_error :
  (forall (h : PeerHandler) (e : string) (sendable : option nat),
     (peerHandlerCycle h (inl e) sendable).1 = Some e /\
     doPeerCycle h (inl e) sendable = []) /\
  (forall (evs : list polled) (h : PeerHandler),
     posted (peerHandlerLoop evs h).2 = []).
Proof.
  split; [by intros h e sendable|].
  induction evs as [|[resp sendable|v|req|] evs IH]; intros h; cbn [peerHandlerLoop].
  - reflexivity.
  - specialize (IH h). destruct (peerHandlerLoop evs h) as [h' acts'].
    cbn [snd] in *. by rewrite posted_app, posted_doPeerCycle, IH.
  - apply IH.
  - specialize (IH h). destruct (peerHandlerLoop evs h) as [h' acts'].
    cbn [snd posted] in *. exact IH.
  - reflexivity.
Qed.

End PeerHandler.

(* ===================================================================== *)
(** * More on the error score engine *)
(* ===================================================================== *)

Module ErrorScoreProps.

Import ErrorScore.

Local Open Scope Z_scope.

(** The position of a sentinel in the switch of [getScoreForError]. *)
Definition rank (s : sentinel) : Z :=
  match s with
  | ErrTransactionApplication => 0
  | ErrBlockApplication => 1
  | ErrDeserialization => 2
  | ErrBlockIrreversibility => 3
  | ErrPeerRPC => 4
  | ErrPeerRPCTimeout => 5
  | ErrChainIDMismatch => 6
  | ErrChainNotConnected => 7
  | ErrCheckpointMismatch => 8
  | ErrLocalRPC => 9
  | ErrLocalRPCTimeout => 10
  | ErrSerialization => 11
  | ErrProcessRequestTimeout => 12
  end.

Lemma errors_Is_In (e : error) (s : sentinel) :
  errors_Is e s = true <-> In (Sentinel s) e.
Proof.
  unfold errors_Is. rewrite existsb_exists. split.
  - intros ([s'|msg] & Hin & Hl); cbn in Hl; [|discriminate].
    apply bool_decide_eq_true in Hl. by subst.
  - intros Hin. exists (Sentinel s). split; [exact Hin|].
    cbn. by apply bool_decide_eq_true.
Qed.

Lemma errors_Is_not_In (e : error) (s : sentinel) :
  errors_Is e s = false <-> ~ In (Sentinel s) e.
Proof.
  rewrite <- errors_Is_In. destruct (errors_Is e s); split; congruence.
Qed.

Ltac absurd_sentinel :=
  match goal with
  | Hf : errors_Is ?e ?s = false, Hin : In (Sentinel ?s) ?e |- _ =>
      exfalso; apply errors_Is_not_In in Hf; exact (Hf Hin)
  end.

(** X1: [getScoreForError] gives an error the weight of the sentinel of its
    chain that comes first in the switch, wherever the sentinel sits in the
    chain and whatever other sentinels the chain wraps; an error that wraps
    no sentinel gets [UnknownErrorScore]. *)
Theorem getScoreForError_first_in_switch (opts : PeerErrorHandlerOptions) (e : error) :
  (forall s : sentinel,
     In (Sentinel s) e ->
     (forall s', In (Sentinel s') e -> rank s <= rank s') ->
     getScoreForError opts e = weight opts s) /\
  ((forall s : sentinel, ~ In (Sentinel s) e) ->
   getScoreForError opts e = UnknownErrorScore opts).
Proof.
  split.
  - intros s Hin Hmin. unfold getScoreForError.
    repeat match goal with
    | |- context [errors_Is e ?t] =>
        destruct (errors_Is e t) eqn:?;
        [ match goal with
          | H : errors_Is e t = true |- _ =>
              apply errors_Is_In in H; apply Hmin in H;
              destruct s; cbn in H; try lia; try reflexivity; absurd_sentinel
          end | ]
    end.
    destruct s; absurd_sentinel.
  - intros Hnone. unfold getScoreForError.
    repeat match goal with
    | |- context [errors_Is e ?t] =>
        destruct (errors_Is e t) eqn:?;
        [ match goal with
          | H : errors_Is e t = true |- _ =>
              apply errors_Is_In in H; exfalso; exact (Hnone _ H)
          end | ]
    end.
    reflexivity.
Qed.

Lemma getScoreForError_first_in_switch_witness :
  getScoreForError example_opts
    [Opaque "rpc"; Sentinel ErrChainIDMismatch; Sentinel ErrPeerRPC]
  = weight example_opts ErrPeerRPC.
Proof.
  refine (proj1 (getScoreForError_first_in_switch example_opts
            [Opaque "rpc"; Sentinel ErrChainIDMismatch; Sentinel ErrPeerRPC])
            ErrPeerRPC _ _).
  - cbn. tauto.
  - intros s' [H|[H|[H|[]]]]; try discriminate H; injection H as <-; cbn; lia.
Defined.

Section Engine.

Variable float_decay : Z -> Z -> Z -> Z.
Variable opts : PeerErrorHandlerOptions.

Local Abbreviation decay := (decayErrorScore float_decay opts).
Local Abbreviation report := (handleError float_decay opts).
Local Abbreviation query := (handleCanConnect float_decay opts).
Local Abbreviation run := (Start float_decay opts).

Lemma query_lookup (now : Z) (pid q : PeerID) (m : gmap string errorScoreRecord) :
  (query now pid m).2 !! q =
  if decide (q = pid) then decay now <$> m !! pid else m !! q.
Proof.
  unfold handleCanConnect. destruct (m !! pid) as [r|] eqn:Hr; cbn [snd].
  - case_decide as Hq.
    + subst q. by rewrite lookup_insert_eq.
    + by rewrite lookup_insert_ne.
  - case_decide as Hq; [subst q; by rewrite Hr | reflexivity].
Qed.

Lemma report_lookup (now : Z) (peerErr : PeerError) (q : PeerID)
    (m : gmap string errorScoreRecord) :
  (report now peerErr m).1 !! q =
  if decide (q = id peerErr)
  then Some match m !! id peerErr with
            | Some record =>
                {| lastUpdate := now;
                   score := uint64_add (score (decay now record))
                                       (getScoreForError opts (err peerErr)) |}
            | None => {| lastUpdate := now; score := getScoreForError opts (err peerErr) |}
            end
  else m !! q.
Proof.
  rewrite handleError_map. case_decide as Hq.
  - subst q. apply recordError_lookup.
  - by apply recordError_other.
Qed.

Lemma report_signals (now : Z) (peerErr : PeerError) (m : gmap string errorScoreRecord) :
  (report now peerErr m).2 =
  match (report now peerErr m).1 !! id peerErr with
  | Some record =>
      if ErrorScoreThreshold opts <=? score record then [id peerErr] else []
  | None => []
  end.
Proof.
  rewrite handleError_map. unfold handleError.
  by destruct (recordError float_decay opts now peerErr m !! id peerErr).
Qed.

Lemma report_signals_cases (now : Z) (peerErr : PeerError)
    (m : gmap string errorScoreRecord) :
  (report now peerErr m).2 = [] \/ (report now peerErr m).2 = [id peerErr].
Proof.
  rewrite report_signals. destruct (_ !! _) as [r|]; [|by left].
  destruct (_ <=? _); [by right | by left].
Qed.

(** The requests that concern a peer; the end of the loop concerns all. *)
Definition concerns (p : PeerID) (r : request) : bool :=
  match r with
  | ReqError _ peerErr => bool_decide (id peerErr = p)
  | ReqCanConnect _ pid => bool_decide (pid = p)
  | ReqDone => true
  end.

Definition mentions (p : PeerID) (o : output) : bool :=
  match o with
  | Reply pid _ => bool_decide (pid = p)
  | Disconnect pid => bool_decide (pid = p)
  end.

Lemma run_isolated (p : PeerID) (rs : list request)
    (m1 m2 : gmap string errorScoreRecord) :
  m1 !! p = m2 !! p ->
  (run rs m1).1 !! p = (run (List.filter (concerns p) rs) m2).1 !! p /\
  List.filter (mentions p) (run rs m1).2 = (run (List.filter (concerns p) rs) m2).2.
Proof.
  revert m1 m2. induction rs as [|[now peerErr|now pid|] rs IH]; intros m1 m2 Hm;
    cbn [Start List.filter concerns].
  - by split.
  - cbn [serve].
    pose proof (report_signals now peerErr m1) as Hs1.
    pose proof (report_signals_cases now peerErr m1) as Hc1.
    pose proof (fun q => report_lookup now peerErr q m1) as Hl1.
    destruct (report now peerErr m1) as [n1 ds1]. cbn [fst snd] in Hs1, Hl1, Hc1.
    case_bool_decide as Hp.
    + cbn [Start serve].
      pose proof (report_signals now peerErr m2) as Hs2.
      pose proof (fun q => report_lookup now peerErr q m2) as Hl2.
      destruct (report now peerErr m2) as [n2 ds2]. cbn [fst snd] in Hs2, Hl2.
      assert (Hn : n1 !! p = n2 !! p).
      { rewrite Hl1, Hl2. rewrite !decide_True by done. by rewrite Hp, Hm. }
      assert (Hd : ds2 = ds1).
      { rewrite Hs1, Hs2. rewrite Hp. by rewrite Hn. }
      clear Hs1 Hs2. subst ds2.
      specialize (IH n1 n2 Hn).
      destruct (run rs n1) as [k1 o1], (run (List.filter (concerns p) rs) n2) as [k2 o2].
      cbn [fst snd] in *. destruct IH as [IH1 IH2]. split; [exact IH1|].
      rewrite List.filter_app, IH2. f_equal.
      destruct Hc1 as [->| ->]; [reflexivity|].
      cbn. by rewrite bool_decide_eq_true_2.
    + assert (Hn : n1 !! p = m2 !! p).
      { rewrite Hl1. rewrite decide_False by done. exact Hm. }
      specialize (IH n1 m2 Hn).
      destruct (run rs n1) as [k1 o1], (run (List.filter (concerns p) rs) m2) as [k2 o2].
      cbn [fst snd] in *. destruct IH as [IH1 IH2]. split; [exact IH1|].
      rewrite List.filter_app, IH2.
      destruct Hc1 as [->| ->]; [reflexivity|].
      cbn. by rewrite bool_decide_eq_false_2.
  - cbn [serve].
    pose proof (fun q => query_lookup now pid q m1) as Hl1.
    assert (Hb1 : (query now pid m1).1 =
                  match m1 !! pid with
                  | Some r => score (decay now r) <? ErrorScoreThreshold opts
                  | None => true
                  end) by (unfold handleCanConnect; by destruct (m1 !! pid)).
    destruct (query now pid m1) as [b1 n1]. cbn [fst snd] in Hb1, Hl1.
    case_bool_decide as Hp.
    + cbn [Start serve].
      pose proof (fun q => query_lookup now pid q m2) as Hl2.
      assert (Hb2 : (query now pid m2).1 =
                    match m2 !! pid with
                    | Some r => score (decay now r) <? ErrorScoreThreshold opts
                    | None => true
                    end) by (unfold handleCanConnect; by destruct (m2 !! pid)).
      destruct (query now pid m2) as [b2 n2]. cbn [fst snd] in Hb2, Hl2.
      assert (Hn : n1 !! p = n2 !! p).
      { rewrite Hl1, Hl2. rewrite !decide_True by done. by rewrite Hp, Hm. }
      assert (Hb : b1 = b2) by (rewrite Hb1, Hb2, Hp, Hm; reflexivity).
      specialize (IH n1 n2 Hn).
      destruct (run rs n1) as [k1 o1], (run (List.filter (concerns p) rs) n2) as [k2 o2].
      cbn [fst snd] in *. destruct IH as [IH1 IH2]. split; [exact IH1|].
      cbn [app List.filter mentions]. rewrite bool_decide_eq_true_2 by exact Hp.
      by rewrite IH2, Hb.
    + assert (Hn : n1 !! p = m2 !! p).
      { rewrite Hl1. rewrite decide_False by done. exact Hm. }
      specialize (IH n1 m2 Hn).
      destruct (run rs n1) as [k1 o1], (run (List.filter (concerns p) rs) m2) as [k2 o2].
      cbn [fst snd] in *. destruct IH as [IH1 IH2]. split; [exact IH1|].
      cbn [app List.filter mentions]. rewrite bool_decide_eq_false_2 by exact Hp.
      exact IH2.
  - by split.
Qed.

(** X2: peers do not interfere: the record the loop of [Start] ends with for a
    peer, and the replies and disconnect signals it sends about that peer,
    are those of the loop run on the requests about that peer alone. *)
Theorem Start_peer_isolated (p : PeerID) (rs : list request)
    (m : gmap string errorScoreRecord) :
  (run rs m).1 !! p = (run (List.filter (concerns p) rs) m).1 !! p /\
  List.filter (mentions p) (run rs m).2 = (run (List.filter (concerns p) rs) m).2.
Proof. by apply run_isolated. Qed.

(** X3: a report whose weight reaches the threshold (a [uint64], so not
    negative) disconnects the peer, whether the peer is new or has a record,
    as long as the sum with the decayed score does not pass 2^64 - 1. *)
Theorem handleError_instant_disconnect (now : Z) (peerErr : PeerError)
    (m : gmap string errorScoreRecord) :
  0 <= ErrorScoreThreshold opts <= getScoreForError opts (err peerErr) ->
  match m !! id peerErr with
  | Some record =>
      0 <= score (decay now record) /\
      score (decay now record) + getScoreForError opts (err peerErr) < 2 ^ 64
  | None => True
  end ->
  (report now peerErr m).2 = [id peerErr].
Proof.
  intros Hw Hrec. rewrite report_signals, report_lookup.
  rewrite decide_True by reflexivity.
  destruct (m !! id peerErr) as [record|]; cbn [score].
  - destruct Hrec as [H0 Hlt]. unfold uint64_add, uint64_modulus.
    rewrite Z.mod_small by lia.
    destruct (_ <=? _) eqn:E; [reflexivity|]. apply Z.leb_gt in E. lia.
  - destruct (_ <=? _) eqn:E; [reflexivity|]. apply Z.leb_gt in E. lia.
Qed.

(** The peers queried before the loop ends, and the peers replied to. *)
Fixpoint queried (rs : list request) : list PeerID :=
  match rs with
  | [] => []
  | ReqError _ _ :: rs' => queried rs'
  | ReqCanConnect _ pid :: rs' => pid :: queried rs'
  | ReqDone :: _ => []
  end.

Fixpoint reported (rs : list request) : list PeerID :=
  match rs with
  | [] => []
  | ReqError _ peerErr :: rs' => id peerErr :: reported rs'
  | ReqCanConnect _ _ :: rs' => reported rs'
  | ReqDone :: _ => []
  end.

Fixpoint replied (out : list output) : list PeerID :=
  match out with
  | [] => []
  | Reply pid _ :: out' => pid :: replied out'
  | Disconnect _ :: out' => replied out'
  end.

Fixpoint disconnected (out : list output) : list PeerID :=
  match out with
  | [] => []
  | Reply _ _ :: out' => disconnected out'
  | Disconnect pid :: out' => pid :: disconnected out'
  end.

(** X4: the loop of [Start] answers every can-connect request it receives
    before its context is done, once and in the order received, and the
    peers it signals for disconnection are peers reported, in order, at most
    once per report. *)
Theorem Start_replies (rs : list request) (m : gmap string errorScoreRecord) :
  replied (run rs m).2 = queried rs /\
  sublist (disconnected (run rs m).2) (reported rs).
Proof.
  revert m. induction rs as [|[now peerErr|now pid|] rs IH]; intros m; cbn [Start].
  - split; [reflexivity | constructor].
  - cbn [serve queried reported].
    pose proof (report_signals now peerErr m) as Hs.
    destruct (report now peerErr m) as [n ds]. cbn [fst snd] in Hs.
    specialize (IH n). destruct (run rs n) as [k o]. cbn [snd] in *.
    destruct IH as [IH1 IH2]. rewrite Hs.
    destruct (n !! id peerErr) as [r|]; [destruct (_ <=? _)|]; cbn;
      (split; [exact IH1|]); try (by apply sublist_skip); by apply sublist_cons.
  - cbn [serve queried reported].
    destruct (query now pid m) as [b n].
    specialize (IH n). destruct (run rs n) as [k o]. cbn [snd] in *.
    destruct IH as [IH1 IH2]. cbn. split; [by rewrite IH1 | exact IH2].
  - split; [reflexivity | constructor].
Qed.

(** X5: records are never removed: a query leaves the set of tracked peers as
    it is, a report adds the reported peer, and so the set only grows along
    the loop of [Start]. *)
Theorem Start_never_forgets (rs : list request) (m : gmap string errorScoreRecord) :
  dom m ⊆ dom (run rs m).1 /\
  (forall now pid, dom (query now pid m).2 = dom m) /\
  (forall now peerErr, dom (report now peerErr m).1 = {[ id peerErr ]} ∪ dom m).
Proof.
  assert (Hq : forall now pid k, dom (query now pid k).2 = dom k).
  { intros now pid k. apply set_eq. intros q. rewrite !elem_of_dom, query_lookup.
    case_decide as Hd; [subst q; by rewrite fmap_is_Some | reflexivity]. }
  assert (Hr : forall now peerErr k, dom (report now peerErr k).1 = {[ id peerErr ]} ∪ dom k).
  { intros now peerErr k. apply set_eq. intros q.
    rewrite elem_of_union, elem_of_singleton, !elem_of_dom, report_lookup.
    case_decide as Hd; [split; eauto | split; [by right | by intros [?|?]]]. }
  split; [|split; [intros now pid; apply Hq | intros now peerErr; apply Hr]].
  revert m. induction rs as [|[now peerErr|now pid|] rs IH]; intros m; cbn [Start];
    try reflexivity.
  - cbn [serve]. specialize (Hr now peerErr m).
    destruct (report now peerErr m) as [n ds]. cbn [fst] in Hr.
    specialize (IH n). destruct (run rs n) as [k o]. cbn [fst] in *.
    etrans; [|exact IH]. rewrite Hr. apply union_subseteq_r.
  - cbn [serve]. specialize (Hq now pid m).
    destruct (query now pid m) as [b n]. cbn [snd] in Hq.
    specialize (IH n). destruct (run rs n) as [k o]. cbn [fst] in *.
    by rewrite <- Hq.
Qed.

(** ** The connection gater *)

(** [InterceptPeerDial] and [InterceptSecured] call [CanConnect] with
    [context.Background()], which is never done; the other three methods
    answer [true] without looking at their arguments. *)
Definition background (s : scheduling) : scheduling :=
  {| taken := taken s; selectAt := selectAt s; replyAt := replyAt s;
     doneAt := None; pick := pick s |}.

Definition InterceptPeerDial (s : scheduling) (now : Z) (pid : PeerID)
    (m : gmap string errorScoreRecord) : option bool :=
  CanConnect float_decay opts (background s) now pid m.

Definition InterceptSecured (s : scheduling) (now : Z) (direction : bool) (pid : PeerID)
    (m : gmap string errorScoreRecord) : option bool :=
  CanConnect float_decay opts (background s) now pid m.

(** X6: the gate on dialling and on secured connections returns, as soon as
    the handler loop takes the request, the verdict of the handler: [true]
    for a peer without record, the comparison of the decayed score with the
    threshold otherwise; the order of events and the choice of the [select]
    do not matter; if the loop never takes the request it does not return. *)
Theorem Intercept_verdict (s : scheduling) (now : Z) (direction : bool) (pid : PeerID)
    (m : gmap string errorScoreRecord) :
  InterceptSecured s now direction pid m = InterceptPeerDial s now pid m /\
  InterceptPeerDial s now pid m =
    if taken s then
      Some match m !! pid with
           | Some record => score (decay now record) <? ErrorScoreThreshold opts
           | None => true
           end
    else None.
Proof.
  split; [reflexivity|].
  unfold InterceptPeerDial, CanConnect, replyReady, doneReady, fireAt, background.
  cbn [taken selectAt replyAt doneAt pick].
  destruct (taken s); [|reflexivity].
  rewrite (leb_correct (replyAt s)) by lia.
  unfold handleCanConnect. by destruct (m !! pid).
Qed.

End Engine.

Lemma handleError_instant_disconnect_witness :
  (handleError halving_decay example_opts 60000000000 chain_error one_report).2
  = ["QmPeer"%string].
Proof.
  refine (handleError_instant_disconnect halving_decay example_opts 60000000000
            chain_error one_report _ _).
  - vm_compute. split; discriminate.
  - vm_compute. split; [discriminate | reflexivity].
Defined.

(** A decay that yields a [uint64] whatever it is given. *)
Definition clamped_decay (halflife score elapsed : Z) : Z :=
  halving_decay halflife score elapsed mod 2 ^ 64.

Lemma example_opts_uint64 (e : error) : 0 <= getScoreForError example_opts e < 2 ^ 64.
Proof.
  unfold getScoreForError. repeat (destruct (errors_Is e _); [cbn; lia|]). cbn. lia.
Qed.

(** X7: scores stay [uint64] values: from the empty table of
    [NewPeerErrorHandler], when the decayed score is a [uint64], as the
    conversion of the floating-point expression is, and the configured
    weights are [uint64] values, every score the loop of [Start] holds after
    any sequence of requests lies between 0 and 2^64 - 1: the sum of a
    report wraps around instead of leaving the range. *)
Theorem Start_scores_in_range (float_decay : Z -> Z -> Z -> Z)
    (opts : PeerErrorHandlerOptions) (rs : list request) :
  (forall h s e, 0 <= float_decay h s e < 2 ^ 64) ->
  (forall e, 0 <= getScoreForError opts e < 2 ^ 64) ->
  forall p record,
    (Start float_decay opts rs NewPeerErrorHandler).1 !! p = Some record ->
    0 <= score record < 2 ^ 64.
Proof.
  intros Hfd Hw. apply (Start_uint64 float_decay opts rs NewPeerErrorHandler Hfd Hw).
  intros p r H. unfold NewPeerErrorHandler in H. by rewrite lookup_empty in H.
Qed.

Lemma Start_scores_in_range_witness :
  exists record,
    (Start clamped_decay example_opts
       [ReqError 0 example_error; ReqCanConnect 60000000000 "QmPeer"]
       NewPeerErrorHandler).1 !! "QmPeer"%string = Some record /\
    0 <= score record < 2 ^ 64.
Proof.
  eexists. split; [vm_compute; reflexivity|].
  apply (Start_scores_in_range clamped_decay example_opts
           [ReqError 0 example_error; ReqCanConnect 60000000000 "QmPeer"]
           (fun h s e => Z.mod_pos_bound (halving_decay h s e) (2 ^ 64) eq_refl)
           example_opts_uint64 "QmPeer"%string).
  vm_compute. reflexivity.
Defined.

End ErrorScoreProps.

(* ===================================================================== *)
(** * More on message ids and seeds *)
(* ===================================================================== *)

Module MessageIDProps.

Import MessageID.

Local Open Scope Z_scope.

Lemma byteZ_bound (b : byte) : 0 <= byteZ b < 256.
Proof.
  unfold byteZ. pose proof (Byte.to_N_bounded b). lia.
Qed.

Lemma byteZ_inj (a b : byte) : byteZ a = byteZ b -> a = b.
Proof.
  unfold byteZ. intros H. apply N2Z.inj in H.
  pose proof (Byte.of_to_N a) as Ha. rewrite H, Byte.of_to_N in Ha. congruence.
Qed.

Lemma land_shiftl_small (y x n : Z) :
  0 <= n -> 0 <= x < 2 ^ n -> Z.land (Z.shiftl y n) x = 0.
Proof.
  intros Hn Hx. apply Z.bits_inj'. intros m Hm.
  rewrite Z.land_spec, Z.bits_0.
  destruct (Z.lt_ge_cases m n) as [Hlt|Hge].
  - rewrite Z.shiftl_spec_low by lia. reflexivity.
  - destruct (Z.eq_dec x 0) as [->|Hx0]; [by rewrite Z.bits_0, andb_false_r|].
    rewrite (Z.bits_above_log2 x m); [apply andb_false_r | lia |].
    apply Z.lt_le_trans with n; [|lia]. apply Z.log2_lt_pow2; lia.
Qed.

Lemma lor_shiftl_add (y x n : Z) :
  0 <= n -> 0 <= x < 2 ^ n -> Z.lor (Z.shiftl y n) x = y * 2 ^ n + x.
Proof.
  intros Hn Hx. rewrite <- (Z.shiftl_mul_pow2 y n) by lia.
  rewrite <- Z.add_lor_land, land_shiftl_small by assumption. lia.
Qed.

(** The 24-bit group of [Encode] as a number. *)
Lemma group3 (a b c : byte) :
  Z.lor (Z.lor (Z.shiftl (byteZ a) 16) (Z.shiftl (byteZ b) 8)) (byteZ c)
  = byteZ a * 65536 + byteZ b * 256 + byteZ c.
Proof.
  pose proof (byteZ_bound a). pose proof (byteZ_bound b). pose proof (byteZ_bound c).
  replace (Z.shiftl (byteZ a) 16) with (Z.shiftl (Z.shiftl (byteZ a) 8) 8)
    by (rewrite Z.shiftl_shiftl by lia; reflexivity).
  rewrite <- Z.shiftl_lor.
  rewrite (lor_shiftl_add (byteZ a) (byteZ b) 8) by lia.
  rewrite lor_shiftl_add by lia. lia.
Qed.

Lemma group2 (a b : byte) :
  Z.lor (Z.shiftl (byteZ a) 16) (Z.shiftl (byteZ b) 8)
  = byteZ a * 65536 + byteZ b * 256.
Proof.
  pose proof (byteZ_bound a). pose proof (byteZ_bound b).
  rewrite (Z.shiftl_mul_pow2 (byteZ b)) by lia.
  rewrite lor_shiftl_add by lia. lia.
Qed.

Lemma sextet (v k : Z) : 0 <= k -> Z.land (Z.shiftr v k) 63 = (v / 2 ^ k) mod 64.
Proof.
  intros Hk. rewrite Z.shiftr_div_pow2 by lia.
  change 63 with (Z.ones 6). rewrite Z.land_ones by lia. reflexivity.
Qed.

Lemma encodeStd_NoDup : NoDup (list_ascii_of_string encodeStd).
Proof. apply (bool_decide_unpack _). vm_compute. exact I. Qed.

(** Two characters of the standard alphabet are equal only for equal 6-bit
    values. *)
Lemma enc_at_inj (v w : Z) :
  enc_at RawStdEncoding v = enc_at RawStdEncoding w -> Z.land v 63 = Z.land w 63.
Proof.
  unfold enc_at. intros H.
  pose proof (enc_index_bound v) as Hv. pose proof (enc_index_bound w) as Hw.
  assert (Hi : Z.to_nat (Z.land v 63) = Z.to_nat (Z.land w 63)).
  { change (encode RawStdEncoding) with encodeStd in H.
    destruct (lookup_lt_is_Some_2 (list_ascii_of_string encodeStd)
                (Z.to_nat (Z.land v 63)) Hv) as [x Hx].
    destruct (lookup_lt_is_Some_2 (list_ascii_of_string encodeStd)
                (Z.to_nat (Z.land w 63)) Hw) as [y Hy].
    rewrite !nth_lookup, Hx, Hy in H. cbn in H. subst y.
    exact (proj1 (NoDup_alt _) encodeStd_NoDup _ _ _ Hx Hy). }
  clear H. change 63 with (Z.ones 6) in *. rewrite !Z.land_ones in * by lia.
  assert (0 <= v mod 2 ^ 6 < 2 ^ 6) by (apply Z.mod_pos_bound; lia).
  assert (0 <= w mod 2 ^ 6 < 2 ^ 6) by (apply Z.mod_pos_bound; lia).
  lia.
Qed.

(** [Encode] without padding loses nothing: two byte strings of the same
    length with the same text are equal. *)
Lemma Encode_raw_inj (l1 l2 : list byte) :
  length l1 = length l2 ->
  Encode RawStdEncoding l1 = Encode RawStdEncoding l2 -> l1 = l2.
Proof.
  revert l2. induction l1 as [|a|a b|a b c l1 IH] using list_ind3; intros l2 Hlen.
  - destruct l2; [reflexivity | discriminate].
  - destruct l2 as [|a' [|? ?]]; try discriminate. cbn [Encode].
    change (pad RawStdEncoding 2) with (@nil ascii). cbn [app].
    intros [= H0 H1]. apply enc_at_inj in H0, H1.
    rewrite !sextet in * by lia. rewrite !Z.shiftl_mul_pow2 in * by lia.
    pose proof (byteZ_bound a) as Ba. pose proof (byteZ_bound a') as Ba'.
    f_equal. apply byteZ_inj.
    revert H0 H1 Ba Ba'. generalize (byteZ a) (byteZ a'). intros x y.
    change (2 ^ 18) with 262144. change (2 ^ 12) with 4096. change (2 ^ 16) with 65536.
    intros H0 H1 Ba Ba'. Z.div_mod_to_equations. lia.
  - destruct l2 as [|a' [|b' [|? ?]]]; try discriminate. cbn [Encode].
    change (pad RawStdEncoding 1) with (@nil ascii). cbn [app].
    intros [= H0 H1 H2]. apply enc_at_inj in H0, H1, H2.
    rewrite !group2 in *. rewrite !sextet in * by lia.
    pose proof (byteZ_bound a) as Ba. pose proof (byteZ_bound a') as Ba'.
    pose proof (byteZ_bound b) as Bb. pose proof (byteZ_bound b') as Bb'.
    assert (byteZ a = byteZ a' /\ byteZ b = byteZ b') as [Ha Hb].
    { revert H0 H1 H2 Ba Ba' Bb Bb'.
      generalize (byteZ a) (byteZ a') (byteZ b) (byteZ b').
      intros x y z t.
      change (2 ^ 18) with 262144. change (2 ^ 12) with 4096. change (2 ^ 6) with 64.
      intros H0 H1 H2 Ba Ba' Bb Bb'. Z.div_mod_to_equations. lia. }
    apply byteZ_inj in Ha, Hb. by subst.
  - destruct l2 as [|a' [|b' [|c' l2]]]; try discriminate. cbn [Encode].
    intros [= H0 H1 H2 H3 Hrest]. apply enc_at_inj in H0, H1, H2, H3.
    rewrite !group3 in *. rewrite !sextet in * by lia.
    change 63 with (Z.ones 6) in H3. rewrite !Z.land_ones in H3 by lia.
    pose proof (byteZ_bound a) as Ba. pose proof (byteZ_bound a') as Ba'.
    pose proof (byteZ_bound b) as Bb. pose proof (byteZ_bound b') as Bb'.
    pose proof (byteZ_bound c) as Bc. pose proof (byteZ_bound c') as Bc'.
    assert (byteZ a = byteZ a' /\ byteZ b = byteZ b' /\ byteZ c = byteZ c')
      as (Ha & Hb & Hc).
    { revert H0 H1 H2 H3 Ba Ba' Bb Bb' Bc Bc'.
      generalize (byteZ a) (byteZ a') (byteZ b) (byteZ b') (byteZ c) (byteZ c').
      intros x y z t u w.
      change (2 ^ 18) with 262144. change (2 ^ 12) with 4096. change (2 ^ 6) with 64.
      intros H0 H1 H2 H3 Ba Ba' Bb Bb' Bc Bc'. Z.div_mod_to_equations. lia. }
    apply byteZ_inj in Ha, Hb, Hc. subst.
    f_equal. f_equal. f_equal. apply IH; [by injection Hlen | exact Hrest].
Qed.

Lemma string_of_list_ascii_inj (l1 l2 : list ascii) :
  string_of_list_ascii l1 = string_of_list_ascii l2 -> l1 = l2.
Proof.
  intros H. rewrite <- (list_ascii_of_string_of_list_ascii l1),
    <- (list_ascii_of_string_of_list_ascii l2). by rewrite H.
Qed.

(** X8: the message id determines the digest: two messages have the same id
    exactly when their payloads have the same SHA-256 hash, so the base64
    text adds no collisions of its own. *)
Theorem generateMessageID_same_id (m1 m2 : Message) :
  generateMessageID m1 = generateMessageID m2 <->
  Sum256 (Data m1) = Sum256 (Data m2).
Proof.
  unfold generateMessageID, EncodeToString. split.
  - intros H. apply string_of_list_ascii_inj in H.
    apply Encode_raw_inj in H; [exact H|]. by rewrite !Sum256_length.
  - by intros ->.
Qed.

(** ** [seedStringToInt64] *)

(** [binary.BigEndian.Uint64(b)], which reads [b[0..7]]. *)
Definition Uint64 (b : list byte) : Z :=
  fold_left (fun acc x => acc * 256 + byteZ x) (firstn 8 b) 0.

(** The conversion [int64(v)] of a [uint64]. *)
Definition int64 (v : Z) : Z := if v <? 2 ^ 63 then v else v - 2 ^ 64.

Definition seedStringToInt64 (seed : string) : Z :=
  let sum := Sum256 (bytes_of_string seed) in
  int64 (Uint64 (firstn 8 sum)).

Example seedStringToInt64_test1 :
  seedStringToInt64 "test1" = 1967807609550870936.
Proof. vm_compute. reflexivity. Qed.

Example seedStringToInt64_empty :
  seedStringToInt64 "" = -2039914840885289964.
Proof. vm_compute. reflexivity. Qed.

Lemma Uint64_eight (b0 b1 b2 b3 b4 b5 b6 b7 : byte) (rest : list byte) :
  Uint64 (b0 :: b1 :: b2 :: b3 :: b4 :: b5 :: b6 :: b7 :: rest) =
  ((((((byteZ b0 * 256 + byteZ b1) * 256 + byteZ b2) * 256 + byteZ b3) * 256
      + byteZ b4) * 256 + byteZ b5) * 256 + byteZ b6) * 256 + byteZ b7.
Proof.
  unfold Uint64. cbn -[byteZ Z.mul Z.add].
  change (take 0 rest) with (@nil byte). cbn [fold_left]. lia.
Qed.

(** X9: the seed of the key generator is the first eight bytes of the SHA-256
    hash of the seed string read as a big-endian two's complement number: it
    lies in the range of [int64], it is negative exactly when the first byte
    of the hash is 128 or more, and modulo 2^64 it is the big-endian value of
    those bytes. *)
Theorem seedStringToInt64_range (seed : string) :
  let sum := Sum256 (bytes_of_string seed) in
  - 2 ^ 63 <= seedStringToInt64 seed < 2 ^ 63 /\
  (seedStringToInt64 seed < 0 <-> 128 <= byteZ (nth 0 sum x00)) /\
  seedStringToInt64 seed mod 2 ^ 64 = Uint64 sum.
Proof.
  intros sum. unfold seedStringToInt64. fold sum.
  replace (Uint64 (firstn 8 sum)) with (Uint64 sum)
    by (unfold Uint64; by rewrite firstn_firstn).
  pose proof (Sum256_length (bytes_of_string seed)) as Hlen. fold sum in Hlen.
  destruct sum as [|b0 [|b1 [|b2 [|b3 [|b4 [|b5 [|b6 [|b7 rest]]]]]]]];
    try discriminate Hlen.
  cbn [nth]. rewrite (Uint64_eight b0 b1 b2 b3 b4 b5 b6 b7 rest).
  pose proof (byteZ_bound b0). pose proof (byteZ_bound b1).
  pose proof (byteZ_bound b2). pose proof (byteZ_bound b3).
  pose proof (byteZ_bound b4). pose proof (byteZ_bound b5).
  pose proof (byteZ_bound b6). pose proof (byteZ_bound b7).
  set (v := ((((((byteZ b0 * 256 + byteZ b1) * 256 + byteZ b2) * 256 + byteZ b3) * 256
      + byteZ b4) * 256 + byteZ b5) * 256 + byteZ b6) * 256 + byteZ b7).
  assert (Hv : 0 <= v < 2 ^ 64) by (subst v; lia).
  assert (Hs : v < 2 ^ 63 <-> byteZ b0 < 128) by (subst v; lia).
  unfold int64. destruct (v <? 2 ^ 63) eqn:E.
  - apply Z.ltb_lt in E. split; [lia|]. split; [lia|]. apply Z.mod_small. lia.
  - apply Z.ltb_ge in E. split; [lia|]. split; [lia|].
    replace (v - 2 ^ 64) with (v + (-1) * 2 ^ 64) by lia.
    rewrite Z.mod_add by lia. apply Z.mod_small. lia.
Qed.

End MessageIDProps.

(* ===================================================================== *)
(** * More on the backoff loops *)
(* ===================================================================== *)

Module BackoffProps.

Import Backoff.

Local Open Scope Z_scope.

Lemma reconnectLoop_first_success (connect : nat -> bool) (addr : AddrInfo)
    (d j fuel : nat) :
  (forall i, (j <= i < j + d)%nat -> connect i = false) ->
  connect (j + d)%nat = true ->
  (d < fuel)%nat ->
  let r := reconnectLoop fuel connect addr j (attemptTime j) (backoff j) in
  r.2 = true /\
  attempts (ID addr) r.1 = map attemptTime (seq j (S d)) /\
  sleeps r.1 = map backoff (seq j d) /\
  last r.1 = Some (Connect (attemptTime (j + d)) (ID addr) true).
Proof.
  revert j fuel. induction d as [|d IH]; intros j fuel Hfail Hok Hfuel;
    (destruct fuel as [|fuel]; [lia|]); cbn [reconnectLoop].
  - rewrite Nat.add_0_r in Hok. rewrite Hok. cbn [fst snd attempts sleeps seq map].
    rewrite bool_decide_eq_true_2 by reflexivity. rewrite Nat.add_0_r. by repeat split.
  - rewrite (Hfail j) by lia.
    specialize (IH (S j) fuel). cbn [attemptTime backoff] in IH.
    replace (j + S d)%nat with (S j + d)%nat in * by lia.
    destruct IH as (IHr & IHa & IHs & IHl); [intros i Hi; apply Hfail; lia | exact Hok | lia |].
    destruct (reconnectLoop fuel connect addr (S j) _ _) as [tr returned].
    cbn [fst snd] in *. cbn [attempts sleeps].
    rewrite bool_decide_eq_true_2 by reflexivity.
    split; [exact IHr|]. split; [cbn [seq map]; f_equal; exact IHa|].
    split; [cbn [seq map]; f_equal; exact IHs|].
    destruct tr as [|ev tr]; [discriminate IHl|]. exact IHl.
Qed.

(** X10: the reconnection task stops at the first successful [Connect]: when
    the attempts before the [k]-th fail and the [k]-th succeeds, the task
    returns, having made exactly [k + 1] attempts at the times of the
    schedule and slept [k] times; its last action is the successful
    attempt. *)
Theorem reconnect_first_success (connect : nat -> bool) (addr : AddrInfo) (k fuel : nat) :
  (forall i, (i < k)%nat -> connect i = false) ->
  connect k = true ->
  (k < fuel)%nat ->
  let r := reconnect fuel connect addr in
  r.2 = true /\
  attempts (ID addr) r.1 = map attemptTime (seq 0 (S k)) /\
  sleeps r.1 = map backoff (seq 0 k) /\
  last r.1 = Some (Connect (attemptTime k) (ID addr) true).
Proof.
  intros Hfail Hok Hfuel.
  apply (reconnectLoop_first_success connect addr k 0 fuel);
    [intros i Hi; apply Hfail; lia | exact Hok | exact Hfuel].
Qed.

Lemma reconnect_first_success_witness :
  let r := reconnect 5 (fun n => (2 <=? n)%nat) seedAddr in
  r.2 = true /\
  attempts (ID seedAddr) r.1 = map attemptTime (seq 0 3) /\
  sleeps r.1 = map backoff (seq 0 2) /\
  last r.1 = Some (Connect (attemptTime 2) (ID seedAddr) true).
Proof.
  apply (reconnect_first_success (fun n => (2 <=? n)%nat) seedAddr 2 5).
  - intros i Hi. apply Nat.leb_gt. lia.
  - reflexivity.
  - lia.
Defined.

Lemma attemptTime_bounds (n : nat) : Z.of_nat n <= attemptTime n <= 30 * Z.of_nat n.
Proof.
  induction n as [|n IH]; [cbn; lia|].
  cbn [attemptTime]. pose proof (backoff_bounds n). lia.
Qed.

Lemma backoff_step (n : nat) : backoff n <= backoff (S n).
Proof.
  pose proof (backoff_bounds n) as Hb. cbn [backoff]. unfold min, maxSleepBackoff.
  destruct (30 <? backoff n * 2) eqn:E; lia.
Qed.

Lemma map_seq_lookup {A : Type} (f : nat -> A) (j c i : nat) (x : A) :
  map f (seq j c) !! i = Some x -> x = f (j + i)%nat /\ (i < c)%nat.
Proof.
  revert j i. induction c as [|c IH]; intros j i; cbn [seq map]; [by destruct i|].
  destruct i as [|i]; cbn.
  - intros [= <-]. rewrite Nat.add_0_r. split; [reflexivity | lia].
  - intros H. apply IH in H as [-> Hi]. split; [f_equal; lia | lia].
Qed.

(** What a trace that follows the schedule looks like. *)
Lemma schedule_paced (c : nat) (l : list Z) :
  l = map backoff (seq 0 c) ->
  (forall i s, l !! i = Some s -> 1 <= s <= maxSleepBackoff) /\
  (forall i s s', l !! i = Some s -> l !! S i = Some s' -> s <= s').
Proof.
  intros ->. split.
  - intros i s [-> _]%map_seq_lookup. apply backoff_bounds.
  - intros i s s' [-> _]%map_seq_lookup [-> _]%map_seq_lookup. apply backoff_step.
Qed.

Lemma schedule_timely (c : nat) (l : list Z) :
  l = map attemptTime (seq 0 c) \/ l = [] ->
  forall n t, l !! n = Some t -> Z.of_nat n <= t <= maxSleepBackoff * Z.of_nat n.
Proof.
  intros [->| ->] n t; [|by destruct n].
  intros [-> _]%map_seq_lookup. apply attemptTime_bounds.
Qed.

Lemma reconnectLoop_counts (fuel : nat) (connect : nat -> bool) (addr : AddrInfo)
    (n : nat) (clock sleepTimeSeconds : Z) :
  let r := reconnectLoop fuel connect addr n clock sleepTimeSeconds in
  length (attempts (ID addr) r.1)
  = (if r.2 then S (length (sleeps r.1)) else length (sleeps r.1)) /\
  (r.2 = false -> length (sleeps r.1) = fuel).
Proof.
  revert n clock sleepTimeSeconds.
  induction fuel as [|fuel IH]; intros n clock sl; cbn [reconnectLoop]; [by split|].
  destruct (connect n).
  - cbn [fst snd attempts sleeps]. rewrite bool_decide_eq_true_2 by reflexivity.
    split; [reflexivity | discriminate].
  - specialize (IH (S n) (clock + sl) (min maxSleepBackoff (sl * 2))).
    destruct (reconnectLoop fuel connect addr (S n) _ _) as [tr returned].
    cbn [fst snd] in *. cbn [sleeps attempts].
    rewrite bool_decide_eq_true_2 by reflexivity. cbn [length].
    destruct IH as [IHa IHf]. split.
    + rewrite IHa. by destruct returned.
    + intros Hr. by rewrite (IHf Hr).
Qed.

(** X11: in the traces of both loops, whatever the host answers, every sleep
    lasts between one second and [maxSleepBackoff] seconds and no sleep is
    shorter than the one before it, so that the [n]-th attempt on a peer
    comes after between [n] and [30 n] seconds of sleep.  A loop that has
    not returned after [fuel] iterations has slept [fuel] times, and the
    reconnection task sleeps after every attempt but the successful one. *)
Theorem sleeps_monotone_bounded :
  (forall (fuel : nat) (connect : nat -> bool) (addr : AddrInfo),
     let r := reconnect fuel connect addr in
     (r.2 = false -> length (sleeps r.1) = fuel) /\
     length (attempts (ID addr) r.1)
     = (if r.2 then S (length (sleeps r.1)) else length (sleeps r.1)) /\
     (forall i s, sleeps r.1 !! i = Some s -> 1 <= s <= maxSleepBackoff) /\
     (forall i s s', sleeps r.1 !! i = Some s -> sleeps r.1 !! S i = Some s' -> s <= s') /\
     (forall n t, attempts (ID addr) r.1 !! n = Some t ->
        Z.of_nat n <= t <= maxSleepBackoff * Z.of_nat n)) /\
  (forall (fuel : nat) (connect : nat -> PeerID -> bool -> bool) (ctxDone : nat -> bool)
          (initialPeers : gmap string AddrInfo),
     let r := connectInitialPeers connect ctxDone initialPeers fuel in
     (r.2 = false -> length (sleeps r.1) = fuel) /\
     (forall i s, sleeps r.1 !! i = Some s -> 1 <= s <= maxSleepBackoff) /\
     (forall i s s', sleeps r.1 !! i = Some s -> sleeps r.1 !! S i = Some s' -> s <= s') /\
     (forall p n t, attempts p r.1 !! n = Some t ->
        Z.of_nat n <= t <= maxSleepBackoff * Z.of_nat n)).
Proof.
  split.
  - intros fuel connect addr r.
    destruct (reconnectLoop_schedule fuel connect addr 0) as [Hs Ha].
    fold (reconnect fuel connect addr) in Hs, Ha. fold r in Hs, Ha.
    destruct (schedule_paced _ _ Hs) as [Hb Hm].
    destruct (reconnectLoop_counts fuel connect addr 0 0 1) as [Hc Hf].
    split; [exact Hf|]. split; [exact Hc|].
    split; [exact Hb|]. split; [exact Hm|].
    apply (schedule_timely _ _ (or_introl Ha)).
  - intros fuel connect ctxDone initialPeers r.
    pose proof (connectInitialPeersLoop_spec connect ctxDone initialPeers fuel 0) as H.
    cbn zeta in H.
    change (connectInitialPeersLoop connect ctxDone initialPeers fuel
              (pendingAt connect ctxDone initialPeers 0) 0 (attemptTime 0) (backoff 0))
      with r in H.
    destruct H as (Hs & Ha & _ & _ & _ & Hf).
    destruct (schedule_paced _ _ Hs) as [Hb Hm].
    split; [exact Hf|]. split; [exact Hb|]. split; [exact Hm|].
    intros p. apply (schedule_timely (length (sleeps r.1))).
    rewrite (Ha p). case_decide; [by left | by right].
Qed.

Section InitialPeers.

Variable connect : nat -> PeerID -> bool -> bool.
Variable ctxDone : nat -> bool.
Variable initialPeers : gmap string AddrInfo.

Local Abbreviation pending := (pendingAt connect ctxDone initialPeers).

(** A peer is pending at the test before cycle [n] exactly when it is
    configured and none of its connects in the earlier cycles succeeded. *)
Lemma pendingAt_lookup (n : nat) (p : PeerID) (a : AddrInfo) :
  pending n !! p = Some a <->
  initialPeers !! p = Some a /\ forall j, (j < n)%nat -> connect j p (ctxDone j) = false.
Proof.
  induction n as [|n IH].
  - cbn [pendingAt]. split; [intros H; split; [exact H | intros j Hj; lia] | by intros [H _]].
  - rewrite pendingAt_step. destruct (connect n p (ctxDone n)) eqn:Hc.
    + split; [discriminate|]. intros [_ H]. rewrite H in Hc by lia. discriminate.
    + rewrite IH. split; intros [Hi Hf]; (split; [exact Hi|]).
      * intros j Hj. destruct (decide (j = n)) as [->|Hne]; [exact Hc | apply Hf; lia].
      * intros j Hj. apply Hf. lia.
Qed.

Lemma pendingAt_empty (n : nat) :
  pending n = ∅ <->
  forall p, p ∈ dom initialPeers -> exists k, (k < n)%nat /\ connect k p (ctxDone k) = true.
Proof.
  split.
  - intros He p [a Ha]%elem_of_dom.
    assert (Hnone : pending n !! p = None) by (by rewrite He, lookup_empty).
    clear He. induction n as [|n IH].
    + cbn [pendingAt] in Hnone. congruence.
    + rewrite pendingAt_step in Hnone.
      destruct (connect n p (ctxDone n)) eqn:Hc.
      * exists n. split; [lia | exact Hc].
      * destruct (IH Hnone) as (k & Hk & Hok). exists k. split; [lia | exact Hok].
  - intros Hall. apply map_eq. intros p. rewrite lookup_empty.
    destruct (pending n !! p) as [a|] eqn:Hp; [|reflexivity].
    apply pendingAt_lookup in Hp as [Hi Hf].
    destruct (Hall p) as (k & Hk & Hok); [apply elem_of_dom; eauto|].
    rewrite Hf in Hok by exact Hk. discriminate.
Qed.

(** X12: [connectInitialPeers] returns at the first loop test by which every
    configured peer has had a successful [Connect] in some earlier cycle:
    the successes need not fall into the same cycle, and a peer that
    connected once no longer keeps the loop going, although it is attempted
    again in every later cycle and may fail then.  Until the loop returns
    some configured peer has failed in every cycle so far, and every
    configured peer, connected or not, is attempted once per cycle; a loop
    that has not returned has gone through all its iterations. *)
Theorem connectInitialPeers_until_each_connected (fuel : nat) :
  let r := connectInitialPeers connect ctxDone initialPeers fuel in
  let cycles := length (sleeps r.1) in
  (r.2 = true <->
   (cycles < fuel)%nat /\
   forall p, p ∈ dom initialPeers ->
     exists k, (k < cycles)%nat /\ connect k p (ctxDone k) = true) /\
  (forall k, (k < cycles)%nat ->
     exists p, p ∈ dom initialPeers /\
       forall j, (j < k)%nat -> connect j p (ctxDone j) = false) /\
  (r.2 = false -> cycles = fuel) /\
  (forall p, p ∈ dom initialPeers -> attempts p r.1 = map attemptTime (seq 0 cycles)).
Proof.
  intros r cycles.
  pose proof (connectInitialPeersLoop_spec connect ctxDone initialPeers fuel 0) as H.
  cbn zeta in H.
  change (connectInitialPeersLoop connect ctxDone initialPeers fuel
            (pendingAt connect ctxDone initialPeers 0) 0 (attemptTime 0) (backoff 0))
    with r in H.
  change (length (sleeps r.1)) with cycles in H.
  destruct H as (_ & Ha & _ & Hp & Hr & Hf). cbn [Nat.add] in Hp, Hr.
  split; [|split; [|split]].
  - rewrite Hr, pendingAt_empty. reflexivity.
  - intros k Hk. destruct (map_choose _ (Hp k Hk)) as (p & a & Hpa).
    apply pendingAt_lookup in Hpa as [Hi Hfail].
    exists p. split; [apply elem_of_dom; eauto | exact Hfail].
  - exact Hf.
  - intros p Hd. rewrite (Ha p). by rewrite decide_True.
Qed.

End InitialPeers.

(** Two peers that connect in different cycles, the first failing again
    afterwards: the loop returns after the second cycle, and both were
    attempted in both cycles. *)
Example connectInitialPeers_staggered :
  connectInitialPeers
    (fun n p _ => if decide (p = "QmA"%string) then (n =? 0)%nat else (n =? 1)%nat)
    (fun _ => false)
    {[ "QmA"%string := {| ID := "QmA"; Addrs := [] |};
       "QmB"%string := {| ID := "QmB"; Addrs := [] |} ]} 5
  = ([Connect 0 "QmA" true; Connect 0 "QmB" false; Sleep 0 1;
      Connect 1 "QmA" false; Connect 1 "QmB" true; Sleep 1 2], true).
Proof. vm_compute. reflexivity. Qed.

(** X13: without configured peers [connectInitialPeers] returns at once: no
    attempt, no sleep; with peers that all connect in the first cycle it
    makes that one cycle, sleeps one second and returns. *)
Theorem connectInitialPeers_prompt (connect : nat -> PeerID -> bool -> bool)
    (ctxDone : nat -> bool) (initialPeers : gmap string AddrInfo) (fuel : nat) :
  connectInitialPeers connect ctxDone ∅ (S fuel) = ([], true) /\
  (initialPeers <> ∅ ->
   (forall p, p ∈ dom initialPeers -> connect 0%nat p (ctxDone 0%nat) = true) ->
   let r := connectInitialPeers connect ctxDone initialPeers (S (S fuel)) in
   r.2 = true /\ sleeps r.1 = [1] /\
   forall p, attempts p r.1 = if decide (p ∈ dom initialPeers) then [0] else []).
Proof.
  split; [reflexivity|].
  intros Hne Hall r.
  pose proof (connectInitialPeersLoop_spec connect ctxDone initialPeers (S (S fuel)) 0) as H.
  cbn zeta in H.
  change (connectInitialPeersLoop connect ctxDone initialPeers (S (S fuel))
            (pendingAt connect ctxDone initialPeers 0) 0 (attemptTime 0) (backoff 0))
    with r in H.
  destruct H as (Hs & Ha & Hc & Hp & Hr & Hf). cbn [Nat.add] in Hp, Hr.
  assert (H1 : pendingAt connect ctxDone initialPeers 1 = ∅).
  { apply map_eq. intros p. rewrite lookup_empty, pendingAt_step.
    destruct (connect 0%nat p (ctxDone 0%nat)) eqn:Hc0; [reflexivity|].
    cbn [pendingAt]. destruct (initialPeers !! p) as [a|] eqn:Hp0; [|reflexivity].
    rewrite Hall in Hc0; [discriminate|]. apply elem_of_dom. eauto. }
  assert (Hcycles : length (sleeps r.1) = 1%nat).
  { destruct (length (sleeps r.1)) as [|[|c]] eqn:Hlen.
    - destruct (r.2) eqn:Hret.
      + destruct (proj1 Hr eq_refl) as [_ He]. by destruct Hne.
      + specialize (Hf eq_refl). lia.
    - reflexivity.
    - exfalso. apply (Hp 1%nat); [lia | exact H1]. }
  rewrite Hcycles in *. split; [apply Hr; split; [lia | exact H1]|].
  split; [exact Hs|]. exact Ha.
Qed.

Lemma connectInitialPeers_prompt_witness :
  let r := connectInitialPeers (fun _ _ _ => true) (fun _ => false)
             {[ "QmSeed" := seedAddr ]} 2 in
  r.2 = true /\ sleeps r.1 = [1] /\
  forall p, attempts p r.1 =
            if decide (p ∈ dom ({[ "QmSeed" := seedAddr ]} : gmap string AddrInfo))
            then [0] else [].
Proof.
  refine (proj2 (connectInitialPeers_prompt (fun _ _ _ => true) (fun _ => false)
                   {[ "QmSeed" := seedAddr ]} 0) _ _).
  - apply (map_non_empty_singleton (M := gmap string)).
  - reflexivity.
Defined.

End BackoffProps.

(* ===================================================================== *)
(** * More on the connection manager *)
(* ===================================================================== *)

Module ConnManagerProps.

Import Backoff ConnManager.

Lemma cancel_absent (pc : peerConnectionContext) (rs : list PeerConnection) :
  peer pc ∉ rs -> cancel pc rs = rs.
Proof.
  intros Hnin. unfold cancel. induction rs as [|w rs IH]; [reflexivity|].
  rewrite filter_cons_True.
  - f_equal. apply IH. intros Hin. apply Hnin. by right.
  - intros ->. apply Hnin. left.
Qed.

Lemma cancel_present (pc : peerConnectionContext) (rs : list PeerConnection) :
  NoDup rs -> peer pc ∈ rs -> S (length (cancel pc rs)) = length rs.
Proof.
  intros Hnd Hin. induction Hnd as [|w rs Hw Hnd IH]; [by apply elem_of_nil in Hin|].
  destruct (decide (w = peer pc)) as [->|Hne].
  - unfold cancel. rewrite filter_cons_False by (intros H; by apply H).
    fold (cancel pc rs). by rewrite cancel_absent.
  - unfold cancel. rewrite filter_cons_True by exact Hne. fold (cancel pc rs).
    cbn [length]. f_equal. apply IH.
    apply elem_of_cons in Hin as [Heq|Hin]; [by destruct Hne | exact Hin].
Qed.

(** X14: a Disconnected event for a peer that is not tracked changes nothing:
    no reconnection task is started and no disconnect is signalled; hence
    handling the same disconnect twice is the same as handling it once. *)
Theorem handleDisconnected_untracked (c : ConnectionManager) (pid : PeerID) :
  (connectedPeers c !! pid = None -> handleDisconnected c pid = c) /\
  handleDisconnected (handleDisconnected c pid) pid = handleDisconnected c pid.
Proof.
  assert (H : forall d, connectedPeers d !! pid = None -> handleDisconnected d pid = d).
  { intros d Hd. unfold handleDisconnected. by rewrite Hd. }
  split; [apply H|].
  apply H. unfold handleDisconnected.
  destruct (connectedPeers c !! pid) as [pc|] eqn:Hpc; cbn; [|exact Hpc].
  apply lookup_delete_eq.
Qed.

Lemma handleDisconnected_untracked_witness :
  handleDisconnected (NewConnectionManager seeds) "QmSeed"
  = NewConnectionManager seeds.
Proof.
  refine (proj1 (handleDisconnected_untracked (NewConnectionManager seeds) "QmSeed") _).
  reflexivity.
Defined.

(** X15: a connect followed by the disconnect of the same, so far untracked,
    peer leaves the tracked peers and the running connections as they were:
    the connection that was started is the one that is cancelled; what
    remains is one more connection created and one more disconnect signal,
    and a reconnection task if the peer is an initial peer. *)
Theorem connect_then_disconnect (c : ConnectionManager) (pid : PeerID) :
  tracked c ->
  connectedPeers c !! pid = None ->
  let c' := handleDisconnected (handleConnected c pid) pid in
  connectedPeers c' = connectedPeers c /\
  running c' = running c /\
  created c' = S (created c) /\
  signalled c' = pid :: signalled c /\
  reconnecting c' =
    match initialPeers c !! pid with
    | Some addr => addr :: reconnecting c
    | None => reconnecting c
    end.
Proof.
  intros [Hrun Hmap Hnd Hcr] Hnone. unfold handleConnected. rewrite Hnone.
  unfold handleDisconnected. cbn [connectedPeers]. rewrite lookup_insert_eq.
  cbn [connectedPeers running created signalled reconnecting initialPeers peer].
  split; [rewrite delete_insert_eq; by apply delete_id|].
  split; [|by repeat split].
  unfold cancel. cbn [peer].
  rewrite filter_cons_False by (intros H; by apply H).
  apply (cancel_absent {| peer := {| peerID := pid; serial := created c |} |}).
  cbn [peer]. intros Hin. apply Hcr in Hin. cbn in Hin. lia.
Qed.

Lemma connect_then_disconnect_witness :
  let c := managerLoop [Connected "QmOther"] (NewConnectionManager seeds) in
  let c' := handleDisconnected (handleConnected c "QmSeed") "QmSeed" in
  connectedPeers c' = connectedPeers c /\
  running c' = running c /\
  created c' = S (created c) /\
  signalled c' = "QmSeed"%string :: signalled c /\
  reconnecting c' =
    match initialPeers c !! "QmSeed" with
    | Some addr => addr :: reconnecting c
    | None => reconnecting c
    end.
Proof.
  refine (connect_then_disconnect
            (managerLoop [Connected "QmOther"] (NewConnectionManager seeds)) "QmSeed" _ _).
  - apply tracked_managerLoop, tracked_New.
  - vm_compute. reflexivity.
Defined.

(** The books of the manager: every connection created is running or was
    cancelled by a disconnect that was signalled, and every reconnection task
    is for an initial peer whose disconnect was signalled. *)
Record accounted (initial : gmap string AddrInfo) (c : ConnectionManager) : Prop := {
  accounted_initial : initialPeers c = initial;
  accounted_created : created c = length (running c) + length (signalled c);
  accounted_reconnecting :
    forall addr, addr ∈ reconnecting c ->
                 exists pid, pid ∈ signalled c /\ initial !! pid = Some addr;
  accounted_length : length (reconnecting c) <= length (signalled c)
}.

Lemma accounted_handleConnected initial c pid :
  accounted initial c -> accounted initial (handleConnected c pid).
Proof.
  intros [Hi Hc Hr Hl]. unfold handleConnected.
  destruct (connectedPeers c !! pid); [by split|].
  split; cbn; [exact Hi | lia | exact Hr | exact Hl].
Qed.

Lemma accounted_handleDisconnected initial c pid :
  tracked c -> accounted initial c -> accounted initial (handleDisconnected c pid).
Proof.
  intros [Hrun Hmap Hnd Hcr] [Hi Hc Hr Hl]. unfold handleDisconnected.
  destruct (connectedPeers c !! pid) as [pc|] eqn:Hpc; [|by split].
  destruct (Hmap pid pc Hpc) as [_ Hin].
  pose proof (cancel_present pc (running c) Hnd Hin) as Hlen.
  split; cbn.
  - exact Hi.
  - lia.
  - rewrite Hi. intros addr Haddr.
    destruct (initial !! pid) as [a|] eqn:Ha.
    + apply elem_of_cons in Haddr as [->|Haddr].
      * exists pid. split; [left | exact Ha].
      * destruct (Hr addr Haddr) as (q & Hq & Hqa). exists q. split; [by right | exact Hqa].
    + destruct (Hr addr Haddr) as (q & Hq & Hqa). exists q. split; [by right | exact Hqa].
  - destruct (initialPeers c !! pid); cbn; lia.
Qed.

Lemma accounted_managerLoop initial msgs c :
  Done ∉ msgs -> tracked c -> accounted initial c ->
  accounted initial (managerLoop msgs c).
Proof.
  revert c. induction msgs as [|[pid|pid|] msgs IH]; intros c Hnd Ht Ha; cbn [managerLoop].
  - exact Ha.
  - apply IH; [set_solver | by apply tracked_handleConnected
               | by apply accounted_handleConnected].
  - apply IH; [set_solver | by apply tracked_handleDisconnected
               | by apply accounted_handleDisconnected].
  - exfalso. apply Hnd. left.
Qed.

(** X16: as long as the context is not done, the number of peer connections
    the manager has created is the number still running plus the number of
    disconnects it has signalled; reconnection tasks are started only for
    initial peers, one at most per signalled disconnect; and the configured
    initial peers never change. *)
Theorem manager_accounting (initial : gmap string AddrInfo) (msgs : list message) :
  Done ∉ msgs ->
  let c := managerLoop msgs (NewConnectionManager initial) in
  initialPeers c = initial /\
  created c = length (running c) + length (signalled c) /\
  (forall addr, addr ∈ reconnecting c ->
     exists pid, pid ∈ signalled c /\ initial !! pid = Some addr) /\
  length (reconnecting c) <= length (signalled c).
Proof.
  intros Hnd c.
  assert (Ha : accounted initial c).
  { apply accounted_managerLoop; [exact Hnd | apply tracked_New |].
    split; cbn; [reflexivity | reflexivity | | lia].
    intros addr Haddr. by apply elem_of_nil in Haddr. }
  destruct Ha as [Hi Hc Hr Hl]. by repeat split.
Qed.

Lemma manager_accounting_witness :
  let c := managerLoop [Connected "QmSeed"; Connected "QmOther"; Disconnected "QmSeed"]
             (NewConnectionManager seeds) in
  initialPeers c = seeds /\
  created c = length (running c) + length (signalled c) /\
  (forall addr, addr ∈ reconnecting c ->
     exists pid, pid ∈ signalled c /\ seeds !! pid = Some addr) /\
  length (reconnecting c) <= length (signalled c).
Proof.
  refine (manager_accounting seeds
            [Connected "QmSeed"; Connected "QmOther"; Disconnected "QmSeed"] _).
  intros H. repeat (apply elem_of_cons in H as [H|H]; [discriminate H|]).
  by apply elem_of_nil in H.
Defined.

(** X17: when the context is done the manager cancels every running
    connection and forgets every tracked peer, and handles nothing that
    arrives afterwards. *)
Theorem managerLoop_done (initial : gmap string AddrInfo) (msgs rest : list message) :
  let c := managerLoop (msgs ++ Done :: rest) (NewConnectionManager initial) in
  connectedPeers c = ∅ /\
  running c = [] /\
  c = managerLoop (msgs ++ [Done]) (NewConnectionManager initial).
Proof.
  cbn zeta.
  assert (H : forall c0, tracked c0 ->
            connectedPeers (managerLoop (msgs ++ Done :: rest) c0) = ∅ /\
            running (managerLoop (msgs ++ Done :: rest) c0) = [] /\
            managerLoop (msgs ++ Done :: rest) c0 = managerLoop (msgs ++ [Done]) c0).
  { induction msgs as [|[pid|pid|] msgs IH]; intros c0 Ht; cbn [app managerLoop].
    - split; [reflexivity|]. split; [by apply cancelAll_running | reflexivity].
    - by apply IH, tracked_handleConnected.
    - by apply IH, tracked_handleDisconnected.
    - split; [reflexivity|]. split; [by apply cancelAll_running | reflexivity]. }
  apply H, tracked_New.
Qed.

End ConnManagerProps.

(* ===================================================================== *)
(** * Construction and start of the connection manager *)
(* ===================================================================== *)

Module ConnManagerSetup.

Import Backoff ConnManager.

Section Construction.

(** [multiaddr.NewMultiaddr]: the multiaddress, or [None] for a nil result
    with an error. *)
Variable NewMultiaddr : string -> option string.

(** [peer.AddrInfoFromP2pAddr], applied to a possibly nil multiaddress: the
    address info, or [None] for a nil result with an error. *)
Variable AddrInfoFromP2pAddr : option string -> option AddrInfo.

(** The loop over [initialPeers] of [NewConnectionManager].  Both errors are
    only logged, and [connectionManager.initialPeers[addr.ID] = *addr]
    follows in any case: with a nil [addr] it panics ([None]). *)
Fixpoint addInitialPeers (peers : list string) (m : gmap string AddrInfo)
    : option (gmap string AddrInfo) :=
  match peers with
  | [] => Some m
  | peerStr :: peers' =>
      let ma := NewMultiaddr peerStr in
      match AddrInfoFromP2pAddr ma with
      | Some addr => addInitialPeers peers' (<[ID addr := addr]> m)
      | None => None
      end
  end.

(** [NewConnectionManager]: [registered] tells whether [server.Register]
    returned a nil error; otherwise the constructor panics. *)
Definition NewConnectionManager (registered : bool) (initialPeers : list string)
    : option ConnectionManager :=
  if registered then
    match addInitialPeers initialPeers ∅ with
    | Some m => Some (ConnManager.NewConnectionManager m)
    | None => None
    end
  else None.

Definition parse (peerStr : string) : option AddrInfo :=
  AddrInfoFromP2pAddr (NewMultiaddr peerStr).

Lemma addInitialPeers_Some (peers : list string) (m : gmap string AddrInfo) :
  Forall (fun s => is_Some (parse s)) peers ->
  exists addrs, mapM parse peers = Some addrs /\
    addInitialPeers peers m = Some (foldl (fun k a => <[ID a := a]> k) m addrs).
Proof.
  intros Hall. revert m. induction Hall as [|s peers [a Ha] Hall IH]; intros m.
  - exists []. by split.
  - destruct (IH (<[ID a := a]> m)) as (addrs & Hm & Hadd).
    exists (a :: addrs). cbn [addInitialPeers]. fold (parse s). rewrite Ha. split.
    + cbn. rewrite Ha. cbn. rewrite Hm. reflexivity.
    + exact Hadd.
Qed.

Lemma addInitialPeers_None (peers : list string) (m : gmap string AddrInfo) :
  ~ Forall (fun s => is_Some (parse s)) peers -> addInitialPeers peers m = None.
Proof.
  revert m. induction peers as [|s peers IH]; intros m Hnot.
  - destruct Hnot. constructor.
  - cbn [addInitialPeers]. fold (parse s). destruct (parse s) as [a|] eqn:Ha; [|reflexivity].
    apply IH. intros Hall. apply Hnot. constructor; [by rewrite Ha | exact Hall].
Qed.

Lemma foldl_insert_lookup (addrs : list AddrInfo) (m : gmap string AddrInfo) (pid : PeerID) :
  foldl (fun k a => <[ID a := a]> k) m addrs !! pid =
  match last (filter (fun a => ID a = pid) addrs) with
  | Some a => Some a
  | None => m !! pid
  end.
Proof.
  revert m. induction addrs as [|a addrs IH]; intros m; [reflexivity|].
  cbn [foldl]. rewrite IH. destruct (decide (ID a = pid)) as [Heq|Hne].
  - rewrite filter_cons_True by exact Heq. rewrite last_cons.
    destruct (last (filter _ addrs)); [reflexivity|].
    by rewrite <- Heq, lookup_insert_eq.
  - rewrite filter_cons_False by exact Hne.
    destruct (last (filter _ addrs)); [reflexivity|].
    by rewrite lookup_insert_ne.
Qed.

(** X18: [NewConnectionManager] yields a manager exactly when the RPC service
    registers and every configured address converts to an address info; an
    address that does not convert is logged and then makes the constructor
    panic.  The manager it yields tracks no peer and maps each peer id to the
    last configured address with that id. *)
Theorem NewConnectionManager_initialPeers (registered : bool) (peers : list string) :
  (is_Some (NewConnectionManager registered peers) <->
   registered = true /\ Forall (fun s => is_Some (parse s)) peers) /\
  (forall c, NewConnectionManager registered peers = Some c ->
     exists addrs, mapM parse peers = Some addrs /\
       connectedPeers c = ∅ /\ running c = [] /\
       forall pid, initialPeers c !! pid = last (filter (fun a => ID a = pid) addrs)).
Proof.
  unfold NewConnectionManager. split.
  - destruct registered; [|split; [by intros [? ?] | by intros [? _]]].
    destruct (decide (Forall (fun s => is_Some (parse s)) peers)) as [Hall|Hnot].
    + destruct (addInitialPeers_Some peers ∅ Hall) as (addrs & _ & ->).
      split; [by intros _ | intros _; eauto].
    + rewrite (addInitialPeers_None peers ∅ Hnot).
      split; [by intros [? ?] | by intros [_ ?]].
  - intros c Hc. destruct registered; [|discriminate].
    destruct (decide (Forall (fun s => is_Some (parse s)) peers)) as [Hall|Hnot].
    + destruct (addInitialPeers_Some peers ∅ Hall) as (addrs & Hm & Hadd).
      rewrite Hadd in Hc. injection Hc as <-. exists addrs.
      split; [exact Hm|]. split; [reflexivity|]. split; [reflexivity|].
      intros pid. cbn [initialPeers ConnManager.NewConnectionManager].
      rewrite foldl_insert_lookup, lookup_empty. by destruct (last _).
    + rewrite (addInitialPeers_None peers ∅ Hnot) in Hc. discriminate.
Qed.

End Construction.

(** An example of the two library functions: an address is a peer id
    followed by [@] and a location; anything without [@] is refused. *)
Fixpoint split_at (s : string) (acc : string) : option (string * string) :=
  match s with
  | EmptyString => None
  | String c s' =>
      if Ascii.eqb c "@" then Some (acc, s')
      else split_at s' (acc ++ String c EmptyString)
  end.

Definition example_NewMultiaddr (s : string) : option string :=
  match split_at s "" with
  | Some _ => Some s
  | None => None
  end.

Definition example_AddrInfoFromP2pAddr (ma : option string) : option AddrInfo :=
  match ma with
  | Some s =>
      match split_at s "" with
      | Some (pid, loc) => Some {| ID := pid; Addrs := [loc] |}
      | None => None
      end
  | None => None
  end.

(** The second address of a peer replaces the first; a bad address makes the
    constructor panic. *)
Example NewConnectionManager_run :
  (initialPeers <$>
     NewConnectionManager example_NewMultiaddr example_AddrInfoFromP2pAddr true
       ["QmA@10.0.0.1"; "QmB@10.0.0.2"; "QmA@10.0.0.3"]%string)
  = Some {[ "QmA"%string := {| ID := "QmA"; Addrs := ["10.0.0.3"%string] |};
            "QmB"%string := {| ID := "QmB"; Addrs := ["10.0.0.2"%string] |} ]} /\
  NewConnectionManager example_NewMultiaddr example_AddrInfoFromP2pAddr true
    ["QmA@10.0.0.1"; "10.0.0.2"]%string = None.
Proof. split; vm_compute; reflexivity. Qed.

Lemma NewConnectionManager_initialPeers_witness :
  is_Some (NewConnectionManager example_NewMultiaddr example_AddrInfoFromP2pAddr true
             ["QmA@10.0.0.1"; "QmA@10.0.0.3"]%string).
Proof.
  refine (proj2 (proj1 (NewConnectionManager_initialPeers example_NewMultiaddr
            example_AddrInfoFromP2pAddr true ["QmA@10.0.0.1"; "QmA@10.0.0.3"]%string)) _).
  split; [reflexivity|]. repeat constructor; vm_compute; eauto.
Defined.

(** ** [Start] *)

(** The goroutine of [Start] sends a Connected message on the unbuffered
    [peerConnectedChan] for every peer of the host that has a connection, and
    only then starts [connectInitialPeers] and [managerLoop].  [managerLoop]
    is the only receiver of that channel, so the first send has no receiver
    and blocks. *)
Inductive started : Type :=
  | Launched                  (* both goroutines were started *)
  | BlockedOn (pid : PeerID). (* the send for this peer never completes *)

(** [for _, peer := range c.host.Network().Peers()], with
    [conns peer = len(c.host.Network().ConnsToPeer(peer))]. *)
Fixpoint Start (peers : list PeerID) (conns : PeerID -> nat) : started :=
  match peers with
  | [] => Launched
  | peer :: peers' =>
      if (0 <? conns peer)%nat then BlockedOn peer else Start peers' conns
  end.

(** X19: [Start] gets as far as starting [managerLoop] and
    [connectInitialPeers] exactly when no peer of the host has a connection
    at that time; otherwise its goroutine blocks on the message for the
    first peer that has one, and neither loop is started. *)
Theorem Start_launches_iff (peers : list PeerID) (conns : PeerID -> nat) :
  (Start peers conns = Launched <-> forall p, p ∈ peers -> conns p = 0%nat) /\
  (forall pid, Start peers conns = BlockedOn pid ->
     exists pre post, peers = pre ++ pid :: post /\ (0 < conns pid)%nat /\
                      forall p, p ∈ pre -> conns p = 0%nat).
Proof.
  induction peers as [|q peers [IH1 IH2]]; cbn [Start].
  - split; [split; [by intros _ p ?%elem_of_nil | reflexivity] | discriminate].
  - destruct (0 <? conns q)%nat eqn:E.
    + apply Nat.ltb_lt in E. split.
      * split; [discriminate|]. intros H. specialize (H q ltac:(left)). lia.
      * intros pid [= <-]. exists [], peers. split; [reflexivity|]. split; [exact E|].
        by intros p ?%elem_of_nil.
    + apply Nat.ltb_ge in E. split.
      * rewrite IH1. split.
        -- intros H p [->|Hp]%elem_of_cons; [lia | by apply H].
        -- intros H p Hp. apply H. by right.
      * intros pid Hb. destruct (IH2 pid Hb) as (pre & post & -> & Hc & Hpre).
        exists (q :: pre), post. split; [reflexivity|]. split; [exact Hc|].
        intros p [->|Hp]%elem_of_cons; [lia | by apply Hpre].
Qed.

End ConnManagerSetup.

(* ===================================================================== *)
(** * More on the peer handler *)
(* ===================================================================== *)

Module PeerHandlerProps.

Import PeerHandler.

(** The messages sent on [peerHasBlockChan]. *)
Fixpoint announced (acts : list action) : list PeerHasBlock :=
  match acts with
  | [] => []
  | SendHasBlock m :: acts' => m :: announced acts'
  | _ :: acts' => announced acts'
  end.

(** The downloads started by [requestDownload]. *)
Fixpoint downloads (acts : list action) : list BlockDownloadRequest :=
  match acts with
  | [] => []
  | StartDownload req :: acts' => req :: downloads acts'
  | _ :: acts' => downloads acts'
  end.

(** The requests received on [downloadRequestChan] before the loop
    returns. *)
Fixpoint requested (evs : list polled) : list BlockDownloadRequest :=
  match evs with
  | [] => []
  | DownloadRequest req :: evs' => req :: requested evs'
  | LoopDone :: _ => []
  | _ :: evs' => requested evs'
  end.

(** The node updates received on [internalNodeUpdateChan] before the loop
    returns. *)
Fixpoint updates (evs : list polled) : list NodeUpdate :=
  match evs with
  | [] => []
  | InternalNodeUpdate v :: evs' => v :: updates evs'
  | LoopDone :: _ => []
  | _ :: evs' => updates evs'
  end.

(** The topologies of the successful polls before the loop returns, each cut
    at the number of sends that went through. *)
Fixpoint answered (evs : list polled) : list BlockTopology :=
  match evs with
  | [] => []
  | NextPollTime (inr bs) (Some n) :: evs' => firstn n bs ++ answered evs'
  | NextPollTime (inr bs) None :: evs' => bs ++ answered evs'
  | LoopDone :: _ => []
  | _ :: evs' => answered evs'
  end.

Lemma announced_app (a1 a2 : list action) :
  announced (a1 ++ a2) = announced a1 ++ announced a2.
Proof.
  induction a1 as [|[e|m|r] a1 IH]; cbn [announced app]; [reflexivity|exact IH| |exact IH].
  by rewrite IH.
Qed.

Lemma downloads_app (a1 a2 : list action) :
  downloads (a1 ++ a2) = downloads a1 ++ downloads a2.
Proof.
  induction a1 as [|[e|m|r] a1 IH]; cbn [downloads app]; [reflexivity|exact IH|exact IH|].
  by rewrite IH.
Qed.

Lemma announced_map (pid : PeerID) (bs : list BlockTopology) :
  announced (map (fun b => SendHasBlock {| PeerID_ := pid; Block := b |}) bs)
  = map (fun b => {| PeerID_ := pid; Block := b |}) bs.
Proof. induction bs as [|b bs IH]; [reflexivity|]. cbn. by rewrite IH. Qed.

Lemma downloads_map (pid : PeerID) (bs : list BlockTopology) :
  downloads (map (fun b => SendHasBlock {| PeerID_ := pid; Block := b |}) bs) = [].
Proof. induction bs as [|b bs IH]; [reflexivity|]. exact IH. Qed.

Lemma doPeerCycle_announced (h : PeerHandler) (resp : rpcResult) (sendable : option nat) :
  announced (doPeerCycle h resp sendable)
  = map (fun b => {| PeerID_ := peerID h; Block := b |})
        (answered [NextPollTime resp sendable]) /\
  downloads (doPeerCycle h resp sendable) = [].
Proof.
  unfold doPeerCycle, peerHandlerCycle, sendTopology.
  destruct resp as [e|bs]; [by split|]. cbn [answered].
  destruct sendable as [n|]; rewrite app_nil_r.
  - rewrite firstn_map, announced_map, downloads_map. by split.
  - rewrite announced_map, downloads_map. by split.
Qed.

(** X20: along every run of [peerHandlerLoop] the handler keeps its peer id
    and ends with the last node update it received (its own when none came);
    it starts exactly one download per request received, in the order of the
    requests; and what it sends on [peerHasBlockChan] are the topologies of
    the successful polls, in order and each under the handler's own peer id.
    Nothing that arrives after the context is done has an effect. *)
Theorem peerHandlerLoop_channels (evs : list polled) (h : PeerHandler) :
  peerID (peerHandlerLoop evs h).1 = peerID h /\
  lastNodeUpdate (peerHandlerLoop evs h).1 = default (lastNodeUpdate h) (last (updates evs)) /\
  downloads (peerHandlerLoop evs h).2 = requested evs /\
  announced (peerHandlerLoop evs h).2
  = map (fun b => {| PeerID_ := peerID h; Block := b |}) (answered evs).
Proof.
  revert h. induction evs as [|[resp sendable|v|req|] evs IH]; intros h;
    cbn [peerHandlerLoop].
  - by repeat split.
  - destruct (IH h) as (Hid & Hup & Hdl & Han).
    destruct (peerHandlerLoop evs h) as [h' acts']. cbn [fst snd] in *.
    destruct (doPeerCycle_announced h resp sendable) as [Ha Hd].
    split; [exact Hid|]. split; [exact Hup|].
    split.
    + by rewrite downloads_app, Hd, Hdl.
    + rewrite announced_app, Ha, Han, <- map_app. f_equal.
      cbn [answered]. destruct resp as [e|bs]; [reflexivity|].
      destruct sendable; by rewrite app_nil_r.
  - destruct (IH {| peerID := peerID h; lastNodeUpdate := v |}) as (Hid & Hup & Hdl & Han).
    cbn [peerID lastNodeUpdate] in *. split; [exact Hid|]. split; [|by split].
    rewrite Hup. cbn [updates]. rewrite last_cons. by destruct (last (updates evs)).
  - destruct (IH h) as (Hid & Hup & Hdl & Han).
    destruct (peerHandlerLoop evs h) as [h' acts']. cbn [fst snd] in *.
    split; [exact Hid|]. split; [exact Hup|]. cbn [downloads announced requested answered].
    split; [by rewrite Hdl | exact Han].
  - by repeat split.
Qed.

End PeerHandlerProps.

(* ===================================================================== *)
(** * The RPC layer: [GetTopologyAtHeight] and the peer RPC service *)
(* ===================================================================== *)

Module KoinosRPC.

Local Open Scope Z_scope.

Section Topology.

(** [types.Multihash] and its zero value. *)
Variable Multihash : Type.
Variable zeroMultihash : Multihash.

(** [types.BlockTopology] *)
Record BlockTopology : Type := {
  ID : Multihash;
  Height : Z;
  Previous : Multihash
}.

(** [util.BlockTopologyCmp], the comparable form of a topology used as a map
    key, and [util.BlockTopologyToCmp]. *)
Context {BlockTopologyCmp : Type} `{Countable BlockTopologyCmp}.
Variable BlockTopologyToCmp : BlockTopology -> BlockTopologyCmp.

(** An opaque value, by what [Unbox] followed by [GetNative] gives: an error
    or the native value. *)
Definition Opaque (A : Type) : Type := (string + A)%type.

Record ActiveBlockData : Type := { PreviousBlock : Multihash }.
Record Block : Type := { ActiveData : Opaque ActiveBlockData }.

(** [types.BlockItem] *)
Record BlockItem : Type := {
  BlockID : Multihash;
  BlockHeight : Z;
  Block_ : Opaque Block
}.

(** [types.GetForkHeadsResponse] *)
Record GetForkHeadsResponse : Type := {
  ForkHeads : list BlockTopology;
  LastIrreversibleBlock : BlockTopology
}.

(** The two calls [GetTopologyAtHeight] makes: [k.GetForkHeads(ctx)], and
    [k.GetBlocksByHeight(ctx, &head.ID, height, numBlocks)] by its block
    items. *)
Variable GetForkHeads : string + GetForkHeadsResponse.
Variable GetBlocksByHeight : Multihash -> Z -> Z -> string + list BlockItem.

(** The topology extracted from a block item: the block is unboxed unless
    its height is zero. *)
Definition topologyOf (blockItem : BlockItem) : string + BlockTopology :=
  if BlockHeight blockItem =? 0 then
    inr {| ID := BlockID blockItem; Height := BlockHeight blockItem;
           Previous := zeroMultihash |}
  else
    match Block_ blockItem with
    | inl e => inl e
    | inr block =>
        match ActiveData block with
        | inl e => inl e
        | inr active =>
            inr {| ID := BlockID blockItem; Height := BlockHeight blockItem;
                   Previous := PreviousBlock active |}
        end
    end.

(** [topologySet] and [topologySlice]. *)
Definition collection : Type := (gset BlockTopologyCmp * list BlockTopology)%type.

(** The loop over [blocks.BlockItems]. *)
Fixpoint addItems (items : list BlockItem) (st : collection) : string + collection :=
  match items with
  | [] => inr st
  | blockItem :: items' =>
      match topologyOf blockItem with
      | inl e => inl e
      | inr topology =>
          let cmp := BlockTopologyToCmp topology in
          if decide (cmp ∈ st.1) then addItems items' st
          else addItems items' ({[cmp]} ∪ st.1, st.2 ++ [topology])
      end
  end.

(** The loop over [forkHeads.ForkHeads]. *)
Fixpoint forHeads (heads : list BlockTopology) (height numBlocks : Z) (st : collection)
    : string + collection :=
  match heads with
  | [] => inr st
  | head :: heads' =>
      match GetBlocksByHeight (ID head) height numBlocks with
      | inl e => inl e
      | inr blocks =>
          match addItems blocks st with
          | inl e => inl e
          | inr st' => forHeads heads' height numBlocks st'
          end
      end
  end.

(** [GetTopologyAtHeight]: an error, or the fork heads and the slice. *)
Definition GetTopologyAtHeight (height numBlocks : Z)
    : string + (GetForkHeadsResponse * list BlockTopology) :=
  match GetForkHeads with
  | inl e => inl e
  | inr forkHeads =>
      if numBlocks =? 0 then inr (forkHeads, [])
      else
        match forHeads (ForkHeads forkHeads) height numBlocks (∅, []) with
        | inl e => inl e
        | inr st => inr (forkHeads, st.2)
        end
  end.

(** The topologies of all items, in order and with repetitions. *)
Fixpoint topologies (items : list BlockItem) : string + list BlockTopology :=
  match items with
  | [] => inr []
  | blockItem :: items' =>
      match topologyOf blockItem, topologies items' with
      | inr t, inr ts => inr (t :: ts)
      | inl e, _ => inl e
      | _, inl e => inl e
      end
  end.

(** The topologies of the items returned for every fork head. *)
Fixpoint collected (heads : list BlockTopology) (height numBlocks : Z)
    : string + list BlockTopology :=
  match heads with
  | [] => inr []
  | head :: heads' =>
      match GetBlocksByHeight (ID head) height numBlocks with
      | inl e => inl e
      | inr blocks =>
          match topologies blocks, collected heads' height numBlocks with
          | inr ts, inr ts' => inr (ts ++ ts')
          | inl e, _ => inl e
          | _, inl e => inl e
          end
      end
  end.

(** The set holds the keys of the slice, and no key occurs twice. *)
Definition consistent (st : collection) : Prop :=
  (forall c, c ∈ st.1 <-> c ∈ BlockTopologyToCmp <$> st.2) /\
  NoDup (BlockTopologyToCmp <$> st.2).

Lemma addItems_spec (items : list BlockItem) (st st' : collection) :
  addItems items st = inr st' ->
  consistent st ->
  consistent st' /\
  exists ts added,
    topologies items = inr ts /\ st'.2 = st.2 ++ added /\ sublist added ts /\
    forall t, t ∈ ts -> BlockTopologyToCmp t ∈ BlockTopologyToCmp <$> st'.2.
Proof.
  revert st. induction items as [|item items IH]; intros st; cbn [addItems topologies].
  - intros [= <-] Hc. split; [exact Hc|]. exists [], [].
    split; [reflexivity|]. split; [by rewrite app_nil_r|]. split; [constructor|].
    by intros t ?%elem_of_nil.
  - destruct (topologyOf item) as [e|t]; [discriminate|]. cbn zeta.
    destruct (decide (BlockTopologyToCmp t ∈ st.1)) as [Hin|Hnin]; intros Hrun Hc.
    + destruct (IH st Hrun Hc) as (Hc' & ts & added & -> & Hst & Hsub & Hall).
      split; [exact Hc'|]. exists (t :: ts), added.
      split; [reflexivity|]. split; [exact Hst|]. split; [by apply sublist_cons|].
      intros u [->|Hu]%elem_of_cons; [|by apply Hall].
      rewrite Hst, fmap_app. apply elem_of_app. left. by apply (proj1 Hc).
    + assert (Hc1 : consistent ({[BlockTopologyToCmp t]} ∪ st.1, st.2 ++ [t])).
      { destruct Hc as [Hset Hnd]. split; cbn [fst snd].
        - intros c. rewrite fmap_app, elem_of_app, elem_of_union, elem_of_singleton.
          cbn. rewrite list_elem_of_singleton, Hset. tauto.
        - rewrite fmap_app. apply NoDup_app. split; [exact Hnd|].
          split; [|apply NoDup_singleton].
          intros c Hc ->%list_elem_of_singleton. apply Hnin. by apply Hset. }
      destruct (IH _ Hrun Hc1) as (Hc' & ts & added & -> & Hst & Hsub & Hall).
      cbn [snd] in Hst. split; [exact Hc'|]. exists (t :: ts), (t :: added).
      split; [reflexivity|]. split; [by rewrite Hst, <- app_assoc|].
      split; [by apply sublist_skip|].
      intros u [->|Hu]%elem_of_cons; [|by apply Hall].
      rewrite Hst, !fmap_app. apply elem_of_app. left. apply elem_of_app. right.
      cbn. apply list_elem_of_singleton. reflexivity.
Qed.

Lemma forHeads_spec (heads : list BlockTopology) (height numBlocks : Z)
    (st st' : collection) :
  forHeads heads height numBlocks st = inr st' ->
  consistent st ->
  consistent st' /\
  exists ts added,
    collected heads height numBlocks = inr ts /\ st'.2 = st.2 ++ added /\
    sublist added ts /\
    forall t, t ∈ ts -> BlockTopologyToCmp t ∈ BlockTopologyToCmp <$> st'.2.
Proof.
  revert st. induction heads as [|head heads IH]; intros st; cbn [forHeads collected].
  - intros [= <-] Hc. split; [exact Hc|]. exists [], [].
    split; [reflexivity|]. split; [by rewrite app_nil_r|]. split; [constructor|].
    by intros t ?%elem_of_nil.
  - destruct (GetBlocksByHeight (ID head) height numBlocks) as [e|blocks]; [discriminate|].
    destruct (addItems blocks st) as [e|st1] eqn:Hadd; [discriminate|].
    intros Hrun Hc.
    destruct (addItems_spec _ _ _ Hadd Hc) as (Hc1 & ts1 & added1 & -> & Hst1 & Hsub1 & Hall1).
    destruct (IH st1 Hrun Hc1) as (Hc' & ts & added & -> & Hst & Hsub & Hall).
    split; [exact Hc'|]. exists (ts1 ++ ts), (added1 ++ added).
    split; [reflexivity|]. split; [by rewrite Hst, Hst1, <- app_assoc|].
    split; [by apply sublist_app|].
    intros t [Ht|Ht]%elem_of_app; [|by apply Hall].
    rewrite Hst, fmap_app. apply elem_of_app. left. by apply Hall1.
Qed.

(** X21: when [GetTopologyAtHeight] succeeds it returns the fork heads as
    [GetForkHeads] gave them; for zero blocks the slice is empty and the
    block store is not asked; otherwise every fork head was answered and
    every block item unboxed, and the slice is a subsequence of the
    topologies of all the items that holds every one of them exactly once,
    topologies being compared by their [BlockTopologyCmp]. *)
Theorem GetTopologyAtHeight_deduplicates (height numBlocks : Z)
    (forkHeads : GetForkHeadsResponse) (slice : list BlockTopology) :
  GetTopologyAtHeight height numBlocks = inr (forkHeads, slice) ->
  GetForkHeads = inr forkHeads /\
  NoDup (BlockTopologyToCmp <$> slice) /\
  (numBlocks = 0 -> slice = []) /\
  (numBlocks <> 0 ->
   exists ts, collected (ForkHeads forkHeads) height numBlocks = inr ts /\
     sublist slice ts /\
     forall t, t ∈ ts -> BlockTopologyToCmp t ∈ BlockTopologyToCmp <$> slice).
Proof.
  unfold GetTopologyAtHeight. destruct GetForkHeads as [e|fh]; [discriminate|].
  destruct (numBlocks =? 0) eqn:Hn.
  - intros [= <- <-]. apply Z.eqb_eq in Hn. split; [reflexivity|].
    split; [constructor|]. split; [reflexivity | by intros ?].
  - apply Z.eqb_neq in Hn.
    destruct (forHeads (ForkHeads fh) height numBlocks (∅, [])) as [e|st] eqn:Hrun;
      [discriminate|].
    intros [= <- <-].
    assert (Hc0 : consistent (∅, [])).
    { split; cbn [fst snd fmap list_fmap]; [|constructor].
      intros c. split; [by intros ?%elem_of_empty | by intros ?%elem_of_nil]. }
    destruct (forHeads_spec _ _ _ _ _ Hrun Hc0) as ([_ Hnd] & ts & added & Hts & Hst & Hsub & Hall).
    cbn [snd app] in Hst. split; [reflexivity|]. split; [exact Hnd|].
    split; [by intros ?|]. intros _. exists ts. rewrite Hst in *. by repeat split.
Qed.

End Topology.

Arguments ID {Multihash}.
Arguments Height {Multihash}.
Arguments Previous {Multihash}.
Arguments BlockID {Multihash}.
Arguments BlockHeight {Multihash}.
Arguments Block_ {Multihash}.
Arguments ForkHeads {Multihash}.

(** Two forks that share the block at height 1: multihashes by a number. *)
Definition cmpOf (t : BlockTopology Z) : Z * Z * Z := (ID t, Height t, Previous t).

Definition item (id height previous : Z) : BlockItem Z :=
  {| BlockID := id; BlockHeight := height;
     Block_ := inr {| ActiveData := inr {| PreviousBlock := previous |} |} |}.

Definition twoForks : GetForkHeadsResponse Z :=
  {| ForkHeads := [ {| ID := 21; Height := 2; Previous := 10 |};
                    {| ID := 22; Height := 2; Previous := 10 |} ];
     LastIrreversibleBlock := {| ID := 10; Height := 1; Previous := 1 |} |}.

Definition blockStore (head height numBlocks : Z) : string + list (BlockItem Z) :=
  if head =? 21 then inr [item 10 1 1; item 21 2 10]
  else if head =? 22 then inr [item 10 1 1; item 22 2 10]
  else inl "unknown head"%string.

Example GetTopologyAtHeight_run :
  GetTopologyAtHeight Z 0 cmpOf (inr twoForks) blockStore 1 2
  = inr (twoForks, [ {| ID := 10; Height := 1; Previous := 1 |};
                     {| ID := 21; Height := 2; Previous := 10 |};
                     {| ID := 22; Height := 2; Previous := 10 |} ]).
Proof. vm_compute. reflexivity. Qed.

Lemma GetTopologyAtHeight_deduplicates_witness :
  let slice := [ {| ID := 10; Height := 1; Previous := 1 |};
                 {| ID := 21; Height := 2; Previous := 10 |};
                 {| ID := 22; Height := 2; Previous := 10 |} ] in
  @inr string _ twoForks = inr twoForks /\
  NoDup (cmpOf <$> slice) /\
  (2 = 0 -> slice = []) /\
  (2 <> 0 ->
   exists ts, collected Z 0 blockStore (ForkHeads twoForks) 1 2 = inr ts /\
     sublist slice ts /\
     forall t, t ∈ ts -> cmpOf t ∈ cmpOf <$> slice).
Proof.
  apply (GetTopologyAtHeight_deduplicates Z 0 cmpOf (inr twoForks) blockStore 1 2 twoForks).
  vm_compute. reflexivity.
Defined.

End KoinosRPC.

(* ===================================================================== *)
(** * The peer RPC service: [GetBlocks] *)
(* ===================================================================== *)

Module PeerRPCService.

Section GetBlocks.

Variable Multihash : Type.
Variable BlockItem : Type.

(** [p.local.GetBlocksByHeight(ctx, id, height, numBlocks)], by its block
    items, and [proto.Marshal], which returns bytes and an error. *)
Variable GetBlocksByHeight : Multihash -> Z -> Z -> string + list BlockItem.
Variable Marshal : BlockItem -> list byte * option string.

Record GetBlocksRequest : Type := {
  HeadBlockID : Multihash;
  StartBlockHeight : Z;
  NumBlocks : Z
}.

(** [Blocks [][]byte]; a nil entry is the empty list. *)
Record GetBlocksResponse : Type := { Blocks : list (list byte) }.

(** [for i, block := range rpcResult.BlockItems], from index [i] on:
    [response.Blocks[i]] is assigned before the error is looked at. *)
Fixpoint marshalFrom (i : nat) (items : list BlockItem) (blocks : list (list byte))
    : list (list byte) * option string :=
  match items with
  | [] => (blocks, None)
  | block :: items' =>
      let blocks' := <[i := (Marshal block).1]> blocks in
      match (Marshal block).2 with
      | Some e => (blocks', Some e)
      | None => marshalFrom (S i) items' blocks'
      end
  end.

(** [GetBlocks]: the response after the call and the returned error. *)
Definition GetBlocks (request : GetBlocksRequest) (response : GetBlocksResponse)
    : GetBlocksResponse * option string :=
  match GetBlocksByHeight (HeadBlockID request) (StartBlockHeight request)
          (NumBlocks request) with
  | inl e => (response, Some e)
  | inr items =>
      let r := marshalFrom 0 items (replicate (length items) []) in
      ({| Blocks := r.1 |}, r.2)
  end.

Lemma marshalFrom_spec (items : list BlockItem) (done rest : list (list byte)) :
  (length items <= length rest)%nat ->
  exists k : nat,
    (k <= length items)%nat /\
    (marshalFrom (length done) items (done ++ rest)).1
      = done ++ ((fun b => (Marshal b).1) <$> take k items) ++ drop k rest /\
    Forall (fun b => (Marshal b).2 = None) (take (pred k) items) /\
    match (marshalFrom (length done) items (done ++ rest)).2 with
    | None => k = length items /\ Forall (fun b => (Marshal b).2 = None) items
    | Some e => exists block, items !! pred k = Some block /\ (0 < k)%nat /\
                              (Marshal block).2 = Some e
    end.
Proof.
  revert done rest. induction items as [|block items IH]; intros done rest Hlen.
  - exists 0%nat. cbn. split; [lia|]. split; [reflexivity|]. by repeat split.
  - destruct rest as [|r rest]; [cbn in Hlen; lia|]. cbn [length] in Hlen.
    cbn [marshalFrom].
    replace (<[length done := (Marshal block).1]> (done ++ r :: rest))
      with ((done ++ [(Marshal block).1]) ++ rest).
    2:{ rewrite <- (Nat.add_0_r (length done)), insert_app_r. cbn.
        by rewrite <- app_assoc. }
    destruct (Marshal block).2 as [e|] eqn:He.
    + exists 1%nat. cbn [fst snd take drop pred fmap list_fmap length].
      split; [lia|]. split; [by rewrite <- app_assoc|]. split; [constructor|].
      exists block. repeat split; [lia | exact He].
    + replace (S (length done)) with (length (done ++ [(Marshal block).1]))
        by (rewrite length_app; cbn; lia).
      destruct (IH (done ++ [(Marshal block).1]) rest ltac:(lia))
        as (k & Hk & Hblocks & Hpre & Herr).
      exists (S k). cbn [length take drop fmap list_fmap].
      split; [lia|]. split; [by rewrite Hblocks, <- app_assoc|].
      split.
      * destruct k as [|k]; [constructor|]. cbn [pred take] in *.
        constructor; [exact He | exact Hpre].
      * destruct (marshalFrom _ items _).2 as [e|].
        -- destruct Herr as (b & Hb & Hpos & Hbe). exists b.
           destruct k as [|k]; [lia|]. cbn [pred] in *. repeat split; [exact Hb | lia | exact Hbe].
        -- destruct Herr as [-> Hall]. split; [reflexivity|]. by constructor.
Qed.

(** X22: [GetBlocks] leaves the response alone when the local query fails.
    Otherwise [response.Blocks] has one entry per block item whatever
    happens next: the items are marshalled in order up to and including the
    first one [proto.Marshal] reports an error for, the entries after it
    stay nil, and that error is returned; without such an item every entry
    is the marshalled item and nil is returned. *)
Theorem GetBlocks_fills_prefix (request : GetBlocksRequest) (response : GetBlocksResponse) :
  match GetBlocksByHeight (HeadBlockID request) (StartBlockHeight request)
          (NumBlocks request) with
  | inl e => GetBlocks request response = (response, Some e)
  | inr items =>
      length (Blocks (GetBlocks request response).1) = length items /\
      exists k : nat,
        (k <= length items)%nat /\
        Blocks (GetBlocks request response).1
          = ((fun b => (Marshal b).1) <$> take k items) ++ replicate (length items - k) [] /\
        Forall (fun b => (Marshal b).2 = None) (take (pred k) items) /\
        match (GetBlocks request response).2 with
        | None => k = length items /\ Forall (fun b => (Marshal b).2 = None) items
        | Some e => exists block, items !! pred k = Some block /\ (0 < k)%nat /\
                                  (Marshal block).2 = Some e
        end
  end.
Proof.
  unfold GetBlocks.
  destruct (GetBlocksByHeight _ _ _) as [e|items]; [reflexivity|]. cbn [fst snd Blocks].
  destruct (marshalFrom_spec items [] (replicate (length items) [])) as (k & Hk & Hb & Hpre & Herr).
  { by rewrite length_replicate. }
  cbn [length app] in Hb, Herr. rewrite drop_replicate in Hb.
  split.
  - rewrite Hb, length_app, length_fmap, length_take, length_replicate. lia.
  - exists k. by repeat split.
Qed.

End GetBlocks.

End PeerRPCService.

(* ===================================================================== *)
(** * The earlier node: sequential [connectInitialPeers] *)
(* ===================================================================== *)

Module Node.

Section ConnectInitialPeers.

(** [n.ConnectToPeer(pid)] by its error ([None] for nil); the number is the
    count of earlier calls, as the outcome depends on the network at the
    time of the call. *)
Variable ConnectToPeer : nat -> string -> option string.

(** The loop of [connectInitialPeers] from the [calls]-th call on: the peers
    [ConnectToPeer] was called with, and the returned error. *)
Fixpoint connectFrom (calls : nat) (peers : list string) : list string * option string :=
  match peers with
  | [] => ([], None)
  | pid :: peers' =>
      if decide (pid = ""%string) then connectFrom calls peers'
      else
        match ConnectToPeer calls pid with
        | Some err => ([pid], Some err)
        | None =>
            let r := connectFrom (S calls) peers' in (pid :: r.1, r.2)
        end
  end.

Definition connectInitialPeers (InitialPeers : list string) : list string * option string :=
  connectFrom 0 InitialPeers.

Lemma connectFrom_spec (calls : nat) (peers : list string) :
  let r := connectFrom calls peers in
  r.1 `prefix_of` filter (fun pid => pid <> ""%string) peers /\
  (forall i pid, r.1 !! S i = Some pid ->
     exists pid', r.1 !! i = Some pid' /\ ConnectToPeer (calls + i) pid' = None) /\
  match r.2 with
  | None => r.1 = filter (fun pid => pid <> ""%string) peers /\
            forall i pid, r.1 !! i = Some pid -> ConnectToPeer (calls + i) pid = None
  | Some err => exists pid, last r.1 = Some pid /\
                            ConnectToPeer (calls + pred (length r.1)) pid = Some err
  end.
Proof.
  cbn zeta. revert calls. induction peers as [|pid peers IH]; intros calls; cbn [connectFrom].
  - split; [done|]. split; [by intros i pid ?|]. split; [done | by intros i pid ?].
  - destruct (decide (pid = ""%string)) as [->|Hne].
    + rewrite filter_cons_False by (by intros ?). apply IH.
    + rewrite filter_cons_True by exact Hne.
      destruct (ConnectToPeer calls pid) as [err|] eqn:Hc; cbn [fst snd].
      * split; [by apply prefix_cons, prefix_nil|]. split; [by intros i p ?|].
        exists pid. cbn. by rewrite Nat.add_0_r.
      * destruct (IH (S calls)) as (Hpre & Hstep & Hend).
        split; [by apply prefix_cons|]. split.
        -- intros [|i] p Hp; cbn in Hp.
           ++ exists pid. split; [reflexivity|]. by rewrite Nat.add_0_r.
           ++ destruct (Hstep i p Hp) as (p' & Hp' & Hok). exists p'.
              split; [exact Hp'|]. by rewrite Nat.add_succ_r.
        -- destruct (connectFrom (S calls) peers).2 as [err|].
           ++ destruct Hend as (p & Hlast & Hp).
              destruct (connectFrom (S calls) peers).1 as [|q l] eqn:Hl; [done|].
              exists p. split; [by rewrite last_cons, Hlast|].
              cbn [length pred] in *. by rewrite Nat.add_succ_r.
           ++ destruct Hend as [Heq Hall]. split; [by rewrite Heq|].
              intros [|i] p Hp; cbn in Hp.
              ** injection Hp as <-. by rewrite Nat.add_0_r.
              ** rewrite Nat.add_succ_r. by apply Hall.
Qed.

(** X23: the earlier [connectInitialPeers] calls [ConnectToPeer] for the
    non-empty entries of the configured peers, in order and never for an
    empty one, and stops at the first error, which it returns: a peer is
    tried only after the one before it succeeded; nil is returned exactly
    when every non-empty entry was tried and succeeded; an error is the one
    of the last peer tried. *)
Theorem connectInitialPeers_stops_at_first_error (InitialPeers : list string) :
  let tried := (connectInitialPeers InitialPeers).1 in
  tried `prefix_of` filter (fun pid => pid <> ""%string) InitialPeers /\
  (forall i pid, tried !! S i = Some pid ->
     exists pid', tried !! i = Some pid' /\ ConnectToPeer i pid' = None) /\
  match (connectInitialPeers InitialPeers).2 with
  | None => tried = filter (fun pid => pid <> ""%string) InitialPeers /\
            forall i pid, tried !! i = Some pid -> ConnectToPeer i pid = None
  | Some err => exists pid, last tried = Some pid /\
                            ConnectToPeer (pred (length tried)) pid = Some err
  end.
Proof. exact (connectFrom_spec 0 InitialPeers). Qed.

End ConnectInitialPeers.

(** The second of three peers is unreachable: the third is never tried. *)
Example connectInitialPeers_sequential_run :
  connectInitialPeers (fun _ pid => if decide (pid = "QmB"%string) then Some "dial"%string else None)
    ["QmA"; ""; "QmB"; "QmC"]%string
  = (["QmA"; "QmB"]%string, Some "dial"%string).
Proof. vm_compute. reflexivity. Qed.

End Node.

(* ===================================================================== *)
(** * The test double of the RPC interface *)
(* ===================================================================== *)

Module TestRPC.

Local Open Scope Z_scope.

Definition uint64 (z : Z) : Z := z mod 2 ^ 64.

Section Double.

Variable Block : Type.

(** [type TestRPC struct]; [BlocksApplied] is [None] for a nil slice. *)
Record TestRPC : Type := {
  ChainID : Z;
  Height : Z;
  HeadBlockIDDelta : Z;
  ApplyBlocks : Z;
  BlocksApplied : option (list Block)
}.

(** [NewTestRPC] *)
Definition NewTestRPC (height : Z) : TestRPC :=
  {| ChainID := 1; Height := height; HeadBlockIDDelta := 0; ApplyBlocks := -1;
     BlocksApplied := Some [] |}.

Definition len (s : option (list Block)) : Z :=
  match s with
  | Some l => Z.of_nat (length l)
  | None => 0
  end.

Definition setBlocksApplied (k : TestRPC) (b : list Block) : TestRPC :=
  {| ChainID := ChainID k; Height := Height k; HeadBlockIDDelta := HeadBlockIDDelta k;
     ApplyBlocks := ApplyBlocks k; BlocksApplied := Some b |}.

(** [ApplyBlock]: the double after the call and the returned boolean (the
    error is always nil). *)
Definition ApplyBlock (k : TestRPC) (block : Block) : TestRPC * bool :=
  if (0 <=? ApplyBlocks k) && (ApplyBlocks k <=? len (BlocksApplied k)) then (k, false)
  else
    match BlocksApplied k with
    | Some applied => (setBlocksApplied k (applied ++ [block]), true)
    | None => (k, true)
    end.

(** A sequence of [ApplyBlock] calls. *)
Fixpoint applyAll (k : TestRPC) (blocks : list Block) : TestRPC * list bool :=
  match blocks with
  | [] => (k, [])
  | block :: blocks' =>
      let '(k', ok) := ApplyBlock k block in
      let '(k'', oks) := applyAll k' blocks' in
      (k'', ok :: oks)
  end.

(** The number of blocks the double still accepts. *)
Definition room (k : TestRPC) (offered : nat) : nat :=
  if ApplyBlocks k <? 0 then offered
  else Z.to_nat (ApplyBlocks k - len (BlocksApplied k)).

Lemma applyAll_recording (blocks : list Block) (k : TestRPC) (applied : list Block) :
  BlocksApplied k = Some applied ->
  applyAll k blocks
  = (setBlocksApplied k (applied ++ take (room k (length blocks)) blocks),
     replicate (Nat.min (room k (length blocks)) (length blocks)) true ++
     replicate (length blocks - room k (length blocks)) false).
Proof.
  revert k applied. induction blocks as [|block blocks IH]; intros k applied Hk.
  - cbn. rewrite take_nil, app_nil_r, Nat.min_0_r. cbn.
    destruct k; cbn in *; by subst.
  - cbn [applyAll]. unfold ApplyBlock.
    destruct ((0 <=? ApplyBlocks k) && (ApplyBlocks k <=? len (BlocksApplied k))) eqn:Hfull.
    + apply andb_true_iff in Hfull as [H0 Hle]. apply Z.leb_le in H0, Hle.
      assert (Hroom : forall n, room k n = 0%nat).
      { intros n. unfold room. destruct (ApplyBlocks k <? 0) eqn:Hneg; [apply Z.ltb_lt in Hneg|]; lia. }
      rewrite (IH k applied Hk), !Hroom. cbn [length take Nat.min replicate app].
      rewrite !Nat.sub_0_r. reflexivity.
    + rewrite Hk.
      rewrite (IH (setBlocksApplied k (applied ++ [block])) (applied ++ [block]) eq_refl).
      assert (Hroom : room k (length (block :: blocks))
                      = S (room (setBlocksApplied k (applied ++ [block])) (length blocks))).
      { unfold room. cbn [ApplyBlocks BlocksApplied setBlocksApplied len length].
        rewrite Hk in Hfull |- *. cbn [len] in Hfull |- *. rewrite length_app. cbn [length].
        destruct (ApplyBlocks k <? 0) eqn:Hneg; [reflexivity|].
        apply Z.ltb_ge in Hneg. apply andb_false_iff in Hfull as [H|H].
        - apply Z.leb_gt in H. lia.
        - apply Z.leb_gt in H. lia. }
      rewrite Hroom. cbn [take length Nat.min replicate app Nat.sub].
      rewrite <- app_assoc. reflexivity.
Qed.

Lemma applyAll_nil_slice (blocks : list Block) (k : TestRPC) :
  BlocksApplied k = None ->
  applyAll k blocks = (k, replicate (length blocks) (negb (ApplyBlocks k =? 0))).
Proof.
  intros Hk. induction blocks as [|block blocks IH]; [reflexivity|].
  cbn [applyAll]. unfold ApplyBlock. rewrite Hk. cbn [len].
  destruct (ApplyBlocks k =? 0) eqn:H0.
  - apply Z.eqb_eq in H0. rewrite H0 in *. cbn. by rewrite IH.
  - apply Z.eqb_neq in H0.
    replace ((0 <=? ApplyBlocks k) && (ApplyBlocks k <=? 0)) with false.
    + by rewrite IH.
    + symmetry. apply andb_false_iff.
      destruct (Z.leb_spec 0 (ApplyBlocks k)); [right; apply Z.leb_gt; lia | by left].
Qed.

(** X24: a test double that records blocks accepts the blocks offered to it
    in order until [ApplyBlocks] blocks are recorded (all of them when
    [ApplyBlocks] is negative) and refuses every later one; it records
    exactly the accepted blocks, after the ones it held.  With a nil
    [BlocksApplied] nothing is ever recorded, so the limit is never
    reached: unless [ApplyBlocks] is zero, every block is accepted. *)
Theorem ApplyBlock_limit (k : TestRPC) (blocks : list Block) :
  match BlocksApplied k with
  | Some applied =>
      let n := room k (length blocks) in
      applyAll k blocks
      = (setBlocksApplied k (applied ++ take n blocks),
         replicate (Nat.min n (length blocks)) true ++ replicate (length blocks - n) false)
  | None =>
      applyAll k blocks = (k, replicate (length blocks) (negb (ApplyBlocks k =? 0)))
  end.
Proof.
  destruct (BlocksApplied k) as [applied|] eqn:Hk.
  - by apply applyAll_recording.
  - by apply applyAll_nil_slice.
Qed.

(** [types.BlockItem], the multihash of [BlockID] by its [ID]. *)
Record BlockItem : Type := { BlockHeight : Z; BlockID : Z }.

(** The body of the loop of [GetBlocksByHeight] for one [i]. *)
Definition blockItemAt (k : TestRPC) (height i : Z) : BlockItem :=
  let h := uint64 (height + i) in
  {| BlockHeight := h; BlockID := uint64 (h + HeadBlockIDDelta k) |}.

(** [for i := types.UInt64(0); i < types.UInt64(numBlocks); i++] *)
Fixpoint blocksFrom (k : TestRPC) (height i : Z) (remaining : nat) : list BlockItem :=
  match remaining with
  | O => []
  | S remaining' => blockItemAt k height i :: blocksFrom k height (i + 1) remaining'
  end.

Definition GetBlocksByHeight (k : TestRPC) (height numBlocks : Z) : list BlockItem :=
  blocksFrom k height 0 (Z.to_nat numBlocks).

(** [GetHeadBlock]: the height and the id of the head topology. *)
Definition GetHeadBlock (k : TestRPC) : Z * Z :=
  (Height k, uint64 (uint64 (Height k) + HeadBlockIDDelta k)).

Lemma blocksFrom_lookup (k : TestRPC) (height : Z) (remaining : nat) (i : Z) (j : nat) :
  (j < remaining)%nat ->
  blocksFrom k height i remaining !! j = Some (blockItemAt k height (i + Z.of_nat j)).
Proof.
  revert i j. induction remaining as [|r IH]; intros i j Hj; [lia|].
  destruct j as [|j]; cbn [blocksFrom].
  - cbn. by rewrite Z.add_0_r.
  - cbn [lookup list_lookup]. change (blocksFrom k height (i + 1) r !! j = Some (blockItemAt k height (i + Z.of_nat (S j)))).
    rewrite IH by lia. do 2 f_equal. lia.
Qed.

Lemma length_blocksFrom (k : TestRPC) (height i : Z) (remaining : nat) :
  length (blocksFrom k height i remaining) = remaining.
Proof. revert i. induction remaining as [|r IH]; intros i; cbn; [reflexivity|]. by rewrite IH. Qed.

(** X25: for a [UInt32] number of blocks, [GetBlocksByHeight] of the test
    double returns that many items; the i-th has the height [height + i]
    and the id of its height plus [HeadBlockIDDelta], both as [uint64]
    sums; the ids are pairwise different, wrap-around included; and the
    item of the head's height carries the id [GetHeadBlock] reports. *)
Theorem GetBlocksByHeight_unique_ids (k : TestRPC) (height numBlocks : Z) :
  0 <= numBlocks < 2 ^ 32 ->
  length (GetBlocksByHeight k height numBlocks) = Z.to_nat numBlocks /\
  (forall (i : nat) item, GetBlocksByHeight k height numBlocks !! i = Some item ->
     BlockHeight item = uint64 (height + Z.of_nat i) /\
     BlockID item = uint64 (BlockHeight item + HeadBlockIDDelta k)) /\
  NoDup (BlockID <$> GetBlocksByHeight k height numBlocks) /\
  BlockID <$> GetBlocksByHeight k (Height k) 1 = [(GetHeadBlock k).2].
Proof.
  intros Hn. unfold GetBlocksByHeight.
  assert (Hlook : forall (i : nat) item,
            blocksFrom k height 0 (Z.to_nat numBlocks) !! i = Some item ->
            (i < Z.to_nat numBlocks)%nat /\ item = blockItemAt k height (Z.of_nat i)).
  { intros i item Hi. assert (Hlt : (i < Z.to_nat numBlocks)%nat).
    { apply lookup_lt_Some in Hi. by rewrite length_blocksFrom in Hi. }
    split; [exact Hlt|]. rewrite blocksFrom_lookup in Hi by exact Hlt.
    injection Hi as <-. reflexivity. }
  split; [apply length_blocksFrom|]. split; [|split].
  - intros i item Hi. apply Hlook in Hi as [_ ->]. by split.
  - apply NoDup_alt. intros i j x Hi Hj.
    rewrite list_lookup_fmap in Hi, Hj.
    destruct (blocksFrom _ _ _ _ !! i) as [a|] eqn:Ha; [|discriminate].
    destruct (blocksFrom _ _ _ _ !! j) as [b|] eqn:Hb; [|discriminate].
    apply Hlook in Ha as [Hli ->]. apply Hlook in Hb as [Hlj ->].
    cbn in Hi, Hj. injection Hi as Hi. injection Hj as Hj.
    assert (Heq : (height + Z.of_nat i + HeadBlockIDDelta k) mod 2 ^ 64
                  = (height + Z.of_nat j + HeadBlockIDDelta k) mod 2 ^ 64).
    { unfold uint64 in Hi, Hj. rewrite Zplus_mod_idemp_l in Hi, Hj. congruence. }
    assert (Hd : ((Z.of_nat i - Z.of_nat j) mod 2 ^ 64) = 0).
    { replace (Z.of_nat i - Z.of_nat j)
        with ((height + Z.of_nat i + HeadBlockIDDelta k)
              - (height + Z.of_nat j + HeadBlockIDDelta k)) by lia.
      rewrite Zminus_mod, Heq, Z.sub_diag. reflexivity. }
    apply Z.mod_divide in Hd; [|lia]. destruct Hd as [q Hq].
    assert (q = 0) by nia. lia.
  - change (Z.to_nat 1) with 1%nat.
    cbn [blocksFrom fmap list_fmap]. unfold blockItemAt, GetHeadBlock. cbn [BlockID snd].
    by rewrite Z.add_0_r.
Qed.

End Double.

Lemma GetBlocksByHeight_unique_ids_witness :
  let k := {| ChainID := 1; Height := 128; HeadBlockIDDelta := 2 ^ 64 - 1; ApplyBlocks := -1;
              BlocksApplied := Some ([] : list unit) |} in
  length (GetBlocksByHeight unit k (2 ^ 64 - 2) 4) = Z.to_nat 4 /\
  (forall (i : nat) item, GetBlocksByHeight unit k (2 ^ 64 - 2) 4 !! i = Some item ->
     BlockHeight item = uint64 (2 ^ 64 - 2 + Z.of_nat i) /\
     BlockID item = uint64 (BlockHeight item + HeadBlockIDDelta unit k)) /\
  NoDup (BlockID <$> GetBlocksByHeight unit k (2 ^ 64 - 2) 4) /\
  BlockID <$> GetBlocksByHeight unit k (Height unit k) 1 = [(GetHeadBlock unit k).2].
Proof.
  apply (GetBlocksByHeight_unique_ids unit
           {| ChainID := 1; Height := 128; HeadBlockIDDelta := 2 ^ 64 - 1; ApplyBlocks := -1;
              BlocksApplied := Some ([] : list unit) |} (2 ^ 64 - 2) 4).
  lia.
Defined.

(** Around the wrap: heights 2^64 - 2, 2^64 - 1, 0, 1. *)
Example GetBlocksByHeight_wraps :
  BlockHeight <$> GetBlocksByHeight unit (NewTestRPC unit 128) (2 ^ 64 - 2) 4
  = [2 ^ 64 - 2; 2 ^ 64 - 1; 0; 1].
Proof. vm_compute. reflexivity. Qed.

(** Two blocks are accepted, the third is refused. *)
Example ApplyBlock_run :
  applyAll unit
    {| ChainID := 1; Height := 128; HeadBlockIDDelta := 0; ApplyBlocks := 2;
       BlocksApplied := Some [] |} [tt; tt; tt]
  = ({| ChainID := 1; Height := 128; HeadBlockIDDelta := 0; ApplyBlocks := 2;
        BlocksApplied := Some [tt; tt] |}, [true; true; false]).
Proof. vm_compute. reflexivity. Qed.

End TestRPC.
